(** * networker: the NetworkPlanner runner

    A shallow embedding of [networker/networkplanner_runner.py]: the
    projection guess, the demand graph, the namespacing of an existing
    network, the dispatch to the network algorithm, the component filter,
    the realignment of node ids with the dataset store, the persistence of
    the networks and [dataset_store_to_geograph].

    Python objects are modelled as follows.
    - A node id is a Python int, a numpy integer or a string ([node_id]).
    - A [dict] keyed by node ids is an association list that is searched
      with the equality Python uses for keys ([py_eqb]).
    - A networkx [Graph] is the list of its nodes with their attributes and
      the list of its edges with theirs.
    - An exception is the name of its class; a call that may raise returns
      a [result].
    - The dataset store is an external collaborator: what the runner does to
      it is recorded as the trace of the calls it makes ([store_op]). *)

From Stdlib Require Import ZArith QArith List Relations.
From stdpp Require Import base decidable list strings gmap pretty.

Close Scope Q_scope.
Local Open Scope Z_scope.

(* ================================================================== *)
(** ** Exceptions and results *)

Definition exception := string.

Definition KeyError : exception := "KeyError".
Definition TypeError : exception := "TypeError".
Definition AssertionError : exception := "AssertionError".
Definition NetworkXError : exception := "NetworkXError".
Definition InvalidInputError : exception := "InvalidInputError".

Inductive result (A : Type) : Type :=
| Ok (a : A)
| Err (e : exception).
Arguments Ok {A} a.
Arguments Err {A} e.

#[global] Instance result_bind : MBind result := λ A B f r,
  match r with
  | Ok a => f a
  | Err e => Err e
  end.

#[global] Instance result_ret : MRet result := @Ok.

Fixpoint rmap {A B} (f : A → result B) (l : list A) : result (list B) :=
  match l with
  | [] => Ok []
  | a :: l' => b ← f a ; bs ← rmap f l' ; Ok (b :: bs)
  end.

(* ================================================================== *)
(** ** Numbers, node ids and dicts *)

(** A Python float as far as the runner looks at it: it is copied, and a
    budget is compared with [np.inf].  [NoneVal] is Python's [None], which
    the store hands out for an attribute it has no value for. *)
Inductive pyvalue : Type :=
| Finite (q : Q)
| PosInf
| NegInf
| NaN
| NoneVal.

(** [x == np.inf] *)
Definition eq_inf (x : pyvalue) : bool :=
  match x with
  | PosInf => true
  | _ => false
  end.

(** A Python [int] (unbounded) or a [numpy.int64]. *)
Inductive pyint : Type :=
| Int (z : Z)
| Int64 (z : Z).

Definition int_value (n : pyint) : Z :=
  match n with
  | Int z => z
  | Int64 z => z
  end.

Inductive node_id : Type :=
| Num (n : pyint)
| Str (s : string).

#[global] Instance pyint_eq_dec : EqDecision pyint.
Proof. solve_decision. Defined.

#[global] Instance node_id_eq_dec : EqDecision node_id.
Proof. solve_decision. Defined.

(** Two's complement wrap-around of a 64-bit numpy integer. *)
Definition wrap64 (z : Z) : Z := (z + 2 ^ 63) mod 2 ^ 64 - 2 ^ 63.

(** [i + 1]: a Python int stays one, a numpy integer stays a numpy integer
    (and wraps), a string raises. *)
Definition py_add1 (i : node_id) : result pyint :=
  match i with
  | Num (Int z) => Ok (Int (z + 1))
  | Num (Int64 z) => Ok (Int64 (wrap64 (z + 1)))
  | Str _ => Err TypeError
  end.

(** [int(n)] of a number. *)
Definition py_int (n : pyint) : pyint := Int (int_value n).

(** [str(n)] *)
Definition py_str (n : node_id) : string :=
  match n with
  | Num m => pretty (int_value m)
  | Str s => s
  end.

(** Equality of dict keys: numbers by value, whatever their type. *)
Definition py_eqb (a b : node_id) : bool :=
  match a, b with
  | Num m, Num n => bool_decide (int_value m = int_value n)
  | Str s, Str t => bool_decide (s = t)
  | _, _ => false
  end.

(** What Python compares when it compares two keys. *)
Definition key (i : node_id) : Z + string :=
  match i with
  | Num n => inl (int_value n)
  | Str s => inr s
  end.

Definition is_native (i : node_id) : bool :=
  match i with
  | Num (Int _) => true
  | _ => false
  end.

(** A [dict], as the list of its items; [eqb] is the equality of keys. *)
Section assoc.
Context {K V : Type} (eqb : K → K → bool).

(** [d[k]] *)
Fixpoint assoc_get (d : list (K * V)) (k : K) : result V :=
  match d with
  | [] => Err KeyError
  | (k', v) :: d' => if eqb k' k then Ok v else assoc_get d' k
  end.

(** [d[k] = v]: an entry whose key equals [k] keeps its key object. *)
Fixpoint assoc_set (d : list (K * V)) (k : K) (v : V) : list (K * V) :=
  match d with
  | [] => [(k, v)]
  | (k', v') :: d' =>
      if eqb k' k then (k', v) :: d' else (k', v') :: assoc_set d' k v
  end.

(** The dict a comprehension builds from its items, in order. *)
Definition assoc_of_items (items : list (K * V)) : list (K * V) :=
  fold_left (λ d kv, assoc_set d kv.1 kv.2) items [].
End assoc.

Definition dict (V : Type) : Type := list (node_id * V).

Definition dict_get {V} (d : dict V) (k : node_id) : result V :=
  assoc_get py_eqb d k.

Definition dict_of_items {V} (items : list (node_id * V)) : dict V :=
  assoc_of_items py_eqb items.

(** Equality of two pairs of node ids used as a key. *)
Definition pair_eqb (a b : node_id * node_id) : bool :=
  py_eqb a.1 b.1 && py_eqb a.2 b.2.

(** [enumerate(l)] *)
Definition enumerate {A} (l : list A) : list (node_id * A) :=
  imap (λ i a, (Num (Int (Z.of_nat i)), a)) l.

(* ================================================================== *)
(** ** Graphs *)

Definition coord : Type := Q * Q.

Inductive proj4 : Type :=
| PROJ4_FLAT_EARTH
| PROJ4_LATLONG
| PROJ4_OTHER (s : string).

(** The attributes the runner reads or writes; [None] is a missing key. *)
Record NodeData : Type := mkNodeData {
  budget : option pyvalue
}.

Record EdgeData : Type := mkEdgeData {
  weight : option pyvalue;
  edge_is_existing : option bool;
  edge_subnet_id : option nat
}.

Definition edge : Type := node_id * node_id * EdgeData.

Record Graph : Type := mkGraph {
  node : list (node_id * NodeData);
  edges : list edge
}.

Record GeoGraph : Type := mkGeoGraph {
  graph : Graph;
  srs : proj4;
  coords : dict coord
}.

Definition node_ids (g : Graph) : list node_id := (node g).*1.

Definition edge_ends (g : Graph) : list (node_id * node_id) := (edges g).*1.

(** The invariants networkx keeps: a node is stored once, and the ends of
    an edge are nodes. *)
Definition graph_wf (g : Graph) : Prop :=
  NoDup (node_ids g) ∧
  ∀ u v d, (u, v, d) ∈ edges g → u ∈ node_ids g ∧ v ∈ node_ids g.

(** [G.node[n]['budget']] *)
Fixpoint node_budget (ns : list (node_id * NodeData)) (n : node_id)
  : result pyvalue :=
  match ns with
  | [] => Err KeyError
  | (m, d) :: ns' =>
      if py_eqb m n
      then match budget d with Some b => Ok b | None => Err KeyError end
      else node_budget ns' n
  end.

(** [nx.set_node_attributes(G, 'budget', values)]: networkx 1.x assigns
    [G.node[n]['budget']] for each item, and raises on a node that is not
    in the graph. *)
Fixpoint set_budget (ns : list (node_id * NodeData)) (n : node_id)
  (b : pyvalue) : result (list (node_id * NodeData)) :=
  match ns with
  | [] => Err KeyError
  | (m, d) :: ns' =>
      if py_eqb m n then Ok ((m, mkNodeData (Some b)) :: ns')
      else ns'' ← set_budget ns' n b ; Ok ((m, d) :: ns'')
  end.

Definition set_node_attributes_budget (g : Graph) (values : dict pyvalue)
  : result Graph :=
  ns ← fold_left (λ acc kv, ns ← acc ; set_budget ns kv.1 kv.2)
         values (Ok (node g)) ;
  Ok (mkGraph ns (edges g)).

(** Modelled from the spec: [networker.classes.geograph.GeoGraph] is not
    among the sources.  The Demand Graph Builder turns coordinates into a
    graph of nodes, so the constructor makes a node of every key of
    [coords] that [data] does not have yet. *)
Definition add_node (ns : list (node_id * NodeData)) (n : node_id)
  : list (node_id * NodeData) :=
  if existsb (λ m, py_eqb m.1 n) ns then ns else ns ++ [(n, mkNodeData None)].

Definition new_GeoGraph (s : proj4) (cs : dict coord) (data : option Graph)
  : GeoGraph :=
  let g := default (mkGraph [] []) data in
  mkGeoGraph (mkGraph (fold_left add_node cs.*1 (node g)) (edges g)) s cs.

(** *** Connected components (networkx)

    [nx.connected_components] yields, for each node in turn that no
    earlier component holds, the nodes connected to it.  Here two nodes are
    connected when they have the same [root], the representative left
    after the classes of the two ends of every edge are merged. *)
Fixpoint root (es : list (node_id * node_id)) (v : node_id) : node_id :=
  match es with
  | [] => v
  | (a, b) :: es' =>
      if decide (root es' v = root es' b) then root es' a else root es' v
  end.

(** The first node of every class, in the order of [ns]. *)
Fixpoint reps (r : node_id → node_id) (seen ns : list node_id)
  : list node_id :=
  match ns with
  | [] => []
  | v :: ns' =>
      if decide (Exists (λ w, r w = r v) seen) then reps r seen ns'
      else v :: reps r (v :: seen) ns'
  end.

(** The nodes of [ns] in the class of [v]. *)
Definition class_of (r : node_id → node_id) (ns : list node_id)
  (v : node_id) : list node_id :=
  filter (λ u, r u = r v) ns.

Definition classes (r : node_id → node_id) (ns : list node_id)
  : list (list node_id) :=
  map (class_of r ns) (reps r [] ns).

(** Two nodes are linked when a chain of edges, taken either way round,
    leads from one to the other. *)
Definition linked (es : list (node_id * node_id)) : relation node_id :=
  clos_refl_sym_trans node_id (λ u v, (u, v) ∈ es).

Definition connected_components (g : Graph) : list (list node_id) :=
  classes (root (edge_ends g)) (node_ids g).

(** [G.subgraph(c)]: the nodes of [c] and the edges between them. *)
Definition subgraph (g : Graph) (c : list node_id) : Graph :=
  mkGraph (filter (λ n, n.1 ∈ c) (node g))
          (filter (λ e, e.1.1 ∈ c ∧ e.1.2 ∈ c) (edges g)).

Definition connected_component_subgraphs (g : Graph) : list Graph :=
  map (subgraph g) (connected_components g).

(** [nx.union(U, H)]: the node sets must be disjoint. *)
Definition union (U H : Graph) : result Graph :=
  if decide (Exists (λ n, n ∈ node_ids U) (node_ids H))
  then Err NetworkXError
  else Ok (mkGraph (node U ++ node H) (edges U ++ edges H)).

(** [nx.union_all(graphs)] of networkx 1.x: the graphs are zipped with
    [rename = (None,)] by [zip_longest] and the first pair is taken before
    the others are folded in; over an empty list that pair is
    [(None, None)], and [None] is what comes back. *)
Definition union_all (graphs : list Graph) : result (option Graph) :=
  match graphs with
  | [] => Ok None
  | U :: rest =>
      G ← fold_left (λ acc H, U' ← acc ; union U' H) rest (Ok U) ;
      Ok (Some G)
  end.

(** [nx.relabel_nodes(G, mapping, copy=True)] for a [mapping] that has
    every node of [G]: nodes and ends of edges are replaced by their
    images, the attributes are kept. *)
Definition relabel_nodes (g : Graph) (f : node_id → node_id) : Graph :=
  mkGraph (map (λ n, (f n.1, n.2)) (node g))
          (map (λ e, (f e.1.1, f e.1.2, e.2)) (edges g)).

(* ================================================================== *)
(** ** The dataset store (np.lib.dataset_store) *)

Module dataset_store.

Record Node : Type := mkNode {
  id : node_id;
  getCommonCoordinates : coord;
  is_fake : bool;
  metric : pyvalue
}.

(** [subnet_id] holds what was read from the [id] of a [Subnet]; in a
    trace it is the handle of that [Subnet] object. *)
Record Segment : Type := mkSegment {
  node1_id : node_id;
  node2_id : node_id;
  subnet_id : nat;
  is_existing : bool;
  weight : pyvalue
}.

(** What a store holds, as [cycleNodes] and [cycleSegments] read it. *)
Record Store : Type := mkStore {
  nodes : list Node;
  segments : list Segment
}.

Definition cycleNodes (s : Store) (isFake : bool) : list Node :=
  filter (λ n, is_fake n = isFake) (nodes s).

Definition cycleSegments (s : Store) (is_existing_ : bool) : list Segment :=
  filter (λ g, is_existing g = is_existing_) (segments s).

(** The calls the runner makes on the store and its session.  An object
    a call creates is known by its handle, the position of that call in
    the trace. *)
Inductive store_op : Type :=
| Subnet_new
| addNode (c : coord) (isFake : bool)
| set_id (h : nat) (i : node_id)
| session_add_subnet (h : nat)
| session_add_node (h : nat)
| session_add_segment (s : Segment)
| session_commit.

End dataset_store.

Abbreviation Segment := dataset_store.Segment.
Abbreviation store_op := dataset_store.store_op.

(** A run against the store: the trace so far is threaded through, and it
    is kept when the run raises. *)
Definition M (A : Type) : Type := list store_op → list store_op * result A.

#[global] Instance M_ret : MRet M := λ A a tr, (tr, Ok a).

#[global] Instance M_bind : MBind M := λ A B f m tr,
  match m tr with
  | (tr', Ok a) => f a tr'
  | (tr', Err e) => (tr', Err e)
  end.

Definition raise {A} (e : exception) : M A := λ tr, (tr, Err e).

Definition lift {A} (r : result A) : M A := λ tr, (tr, r).

(** Make the call [op]; the handle of what it creates is returned. *)
Definition call (op : store_op) : M nat := λ tr, (tr ++ [op], Ok (length tr)).

Definition assert_ (b : bool) : M unit :=
  if b then mret () else raise AssertionError.

Fixpoint for_each {A} (l : list A) (body : A → M unit) : M unit :=
  match l with
  | [] => mret ()
  | a :: l' => _ ← body a ; for_each l' body
  end.

(** The segments a trace adds to the session, in order. *)
Definition emitted (tr : list store_op) : list Segment :=
  omap (λ op, match op with
              | dataset_store.session_add_segment s => Some s
              | _ => None
              end) tr.

(** The calls of [store.addNode] in a trace. *)
Definition created_nodes (tr : list store_op) : list (coord * bool) :=
  omap (λ op, match op with
              | dataset_store.addNode c f => Some (c, f)
              | _ => None
              end) tr.

(** The ids a trace assigns to node records. *)
Definition assigned_ids (tr : list store_op) : list node_id :=
  omap (λ op, match op with
              | dataset_store.set_id _ i => Some i
              | _ => None
              end) tr.

(* ================================================================== *)
(** ** NetworkPlannerRunner *)

(** Modelled from the spec: [networker.geomath] is not among the sources.
    The resolver takes coordinates that all lie within
    [-180, 180] x [-90, 90] for geographic ones, and fails with
    [InvalidInputError] on an empty sequence. *)
Definition in_lon_lat_box (c : coord) : bool :=
  Qle_bool (-180) c.1 && Qle_bool c.1 180 &&
  Qle_bool (-90) c.2 && Qle_bool c.2 90.

Definition is_in_lon_lat (cs : list coord) : result bool :=
  match cs with
  | [] => Err InvalidInputError
  | _ => Ok (forallb in_lon_lat_box cs)
  end.

Definition _get_default_proj4 (cs : list coord) : result proj4 :=
  lon_lat ← is_in_lon_lat cs ;
  Ok (if lon_lat : bool then PROJ4_LATLONG else PROJ4_FLAT_EARTH).

Definition _get_demand_nodes (store : dataset_store.Store)
  (input_proj : option proj4) : result GeoGraph :=
  let nodes := dataset_store.cycleNodes store false in
  let cs := map dataset_store.getCommonCoordinates nodes in
  input_proj ← match input_proj with
               | Some p => Ok p
               | None => _get_default_proj4 cs
               end ;
  let coords_dict := dict_of_items (enumerate cs) in
  let budget_dict :=
    dict_of_items (enumerate (map dataset_store.metric nodes)) in
  let geo_nodes := new_GeoGraph input_proj coords_dict None in
  g ← set_node_attributes_budget (graph geo_nodes) budget_dict ;
  Ok (mkGeoGraph g (srs geo_nodes) (coords geo_nodes)).

(** ['grid-' + str(n)] *)
Definition grid (n : node_id) : node_id := Str ("grid-" +:+ py_str n).

(** The renaming of the existing network in [_build_network]. *)
Definition namespace_existing (existing : GeoGraph) : GeoGraph :=
  mkGeoGraph
    (relabel_nodes (graph existing) grid)
    (srs existing)
    (dict_of_items (map (λ nc, (grid nc.1, nc.2)) (coords existing))).

(** The filter of [_build_network] on the node count of the subnetworks. *)
Definition component_filter (result_graph : Graph) (min_node_count : Z)
  : result (option Graph) :=
  union_all
    (filter (λ sub, min_node_count ≤ Z.of_nat (length (node sub)))
       (connected_component_subgraphs result_graph)).

(** [d[key]] of a dict whose key may be missing. *)
Definition lookup_key {A} (o : option A) : result A :=
  match o with
  | Some a => Ok a
  | None => Err KeyError
  end.

(** [mapping.get(n, n)] *)
Definition mapping_get (mapping : dict node_id) (n : node_id) : node_id :=
  match dict_get mapping n with
  | Ok m => m
  | Err _ => n
  end.

(** The realignment of [_build_network]; iterating over [None] raises.
    A dict comprehension of Python 2 evaluates the value of an item before
    its key. *)
Definition realign (result_geo_graph : GeoGraph)
  (filtered_graph : option Graph) : result GeoGraph :=
  match filtered_graph with
  | None => Err TypeError
  | Some fg =>
      items ← rmap (λ i, c ← dict_get (coords result_geo_graph) i ;
                         k ← py_add1 i ;
                         Ok (Num k, c)) (node_ids fg) ;
      let coords := dict_of_items items in
      pairs ← rmap (λ i, k ← py_add1 i ; Ok (i, Num (py_int k)))
                (node_ids fg) ;
      let relabeled := relabel_nodes fg (mapping_get (dict_of_items pairs)) in
      Ok (new_GeoGraph (srs result_geo_graph) coords (Some relabeled))
  end.

Section build_network.
(** What [networker_runner] provides. *)
Context {params subgraphs_t rtree_t : Type}.

Definition strategy : Type :=
  GeoGraph → option subgraphs_t → option rtree_t → result GeoGraph.

Variable load_existing_networks : params → result GeoGraph.
Variable merge_network_and_nodes :
  GeoGraph → GeoGraph → result (GeoGraph * subgraphs_t * rtree_t).
Variable ALGOS : gmap string strategy.

(** The entries of the configuration that [_build_network] looks up;
    [None] is a key that is not there. *)
Record Config : Type := mkConfig {
  existing_networks : option params;
  network_algorithm : option string;
  minimum_node_count : option Z
}.

(** The choice and the run of the algorithm. *)
Definition dispatch (config : Config) (geo_graph : GeoGraph)
  (subgraphs : option subgraphs_t) (rtree : option rtree_t)
  : result GeoGraph :=
  name ← lookup_key (network_algorithm config) ;
  network_algo ← lookup_key (ALGOS !! name) ;
  network_algo geo_graph subgraphs rtree.

Definition _build_network (config : Config) (demand_nodes : GeoGraph)
  : result (option GeoGraph * GeoGraph) :=
  '(existing, geo_graph, subgraphs, rtree) ←
    match existing_networks config with
    | Some ps =>
        existing ← load_existing_networks ps ;
        let existing := namespace_existing existing in
        '(geo_graph, subgraphs, rtree) ←
          merge_network_and_nodes existing demand_nodes ;
        Ok (Some existing, geo_graph, Some subgraphs, Some rtree)
    | None => Ok (None, demand_nodes, None, None)
    end ;
  result_geo_graph ← dispatch config geo_graph subgraphs rtree ;
  min_node_count ← lookup_key (minimum_node_count config) ;
  filtered_graph ← component_filter (graph result_geo_graph) min_node_count ;
  msf ← realign result_geo_graph filtered_graph ;
  Ok (existing, msf).
End build_network.

(** The existing grid goes to the store under one [Subnet]. *)
Definition store_existing (existing : GeoGraph) : M unit :=
  dataset_subnet ← call dataset_store.Subnet_new ;
  for_each (edges (graph existing)) (λ e,
    w ← lift (lookup_key (weight e.2)) ;
    _ ← call (dataset_store.session_add_segment
                (dataset_store.mkSegment e.1.1 e.1.2 dataset_subnet true w)) ;
    mret ()).

(** [[n for n in edge if msf.node[n]['budget'] == np.inf]] *)
Definition fake_nodes (msf : GeoGraph) (ends : list node_id)
  : result (list node_id) :=
  flags ← rmap (λ n, b ← node_budget (node (graph msf)) n ;
                     Ok (n, eq_inf b)) ends ;
  Ok (filter (λ nb, nb.2 = true) flags).*1.

(** The body of the loop over the edges of a subnetwork. *)
Definition store_edge (msf : GeoGraph) (dataset_subnet : nat) (e : edge)
  : M unit :=
  fakes ← lift (fake_nodes msf [e.1.1; e.1.2]) ;
  _ ← for_each (imap (λ i fake, (S i, fake)) fakes) (λ ifake,
        c ← lift (dict_get (coords msf) ifake.2) ;
        dataset_node ← call (dataset_store.addNode c true) ;
        _ ← call (dataset_store.set_id dataset_node ifake.2) ;
        _ ← call (dataset_store.session_add_node dataset_node) ;
        _ ← call dataset_store.session_commit ;
        assert_ (bool_decide (ifake.1 ≤ 1)%nat)) ;
  w ← lift (lookup_key (weight e.2)) ;
  _ ← call (dataset_store.session_add_segment
              (dataset_store.mkSegment e.1.1 e.1.2 dataset_subnet false w)) ;
  mret ().

(** [if existing:] a graph is true when it has a node. *)
Definition truth (existing : option GeoGraph) : bool :=
  match existing with
  | Some g => bool_decide (node (graph g) ≠ [])
  | None => false
  end.

(** The existing grid is added when there is one. *)
Definition existing_pass (existing : option GeoGraph) : M unit :=
  match existing with
  | Some g => if truth existing then store_existing g else mret ()
  | None => mret ()
  end.

(** The subnetworks of [msf] go to the store, each under its [Subnet]. *)
Definition proposed_pass (msf : GeoGraph) : M unit :=
  for_each (connected_component_subgraphs (graph msf)) (λ subgraph,
    dataset_subnet ← call dataset_store.Subnet_new ;
    _ ← call (dataset_store.session_add_subnet dataset_subnet) ;
    _ ← call dataset_store.session_commit ;
    for_each (edges subgraph) (store_edge msf dataset_subnet)).

Definition _store_networks (msf : GeoGraph) (existing : option GeoGraph)
  : M unit :=
  _ ← existing_pass existing ;
  _ ← proposed_pass msf ;
  _ ← call dataset_store.session_commit ;
  mret ().

(* ================================================================== *)
(** ** dataset_store_to_geograph *)

Definition no_edge_data : EdgeData := mkEdgeData None None None.

(** The edge between [u] and [v], whichever way round it is stored. *)
Definition same_edge (u v : node_id) (e : edge) : bool :=
  pair_eqb e.1 (u, v) || pair_eqb e.1 (v, u).

(** [G.add_edge(u, v)] *)
Definition add_edge (g : Graph) (uv : node_id * node_id) : Graph :=
  let ns := add_node (add_node (node g) uv.1) uv.2 in
  if existsb (same_edge uv.1 uv.2) (edges g) then mkGraph ns (edges g)
  else mkGraph ns (edges g ++ [(uv.1, uv.2, no_edge_data)]).

Definition add_edges_from (g : Graph) (ebunch : list (node_id * node_id))
  : Graph :=
  fold_left add_edge ebunch g.

(** [G[u][v][name] = value] *)
Fixpoint set_edge_attr (upd : EdgeData → EdgeData) (es : list edge)
  (u v : node_id) : result (list edge) :=
  match es with
  | [] => Err KeyError
  | e :: es' =>
      if same_edge u v e then Ok ((e.1, upd e.2) :: es')
      else es'' ← set_edge_attr upd es' u v ; Ok (e :: es'')
  end.

(** [nx.set_edge_attributes(G, name, attributes)] of networkx 1.x. *)
Definition set_edge_attributes {A} (g : Graph)
  (upd : A → EdgeData → EdgeData)
  (attributes : list (node_id * node_id * A)) : result Graph :=
  es ← fold_left (λ acc kv, es ← acc ;
                            set_edge_attr (upd kv.2) es kv.1.1 kv.1.2)
         attributes (Ok (edges g)) ;
  Ok (mkGraph (node g) es).

Definition set_weight (w : pyvalue) (d : EdgeData) : EdgeData :=
  mkEdgeData (Some w) (edge_is_existing d) (edge_subnet_id d).

Definition set_is_existing (b : bool) (d : EdgeData) : EdgeData :=
  mkEdgeData (weight d) (Some b) (edge_subnet_id d).

Definition set_subnet_id (i : nat) (d : EdgeData) : EdgeData :=
  mkEdgeData (weight d) (edge_is_existing d) (Some i).

Section to_geograph.
(** The [srs] a [GeoGraph] takes when it is given none. *)
Variable default_srs : proj4.

Definition seg_to_nx_ids (np_to_nx_id : dict node_id) (seg : Segment)
  : result (node_id * node_id) :=
  a ← dict_get np_to_nx_id (dataset_store.node1_id seg) ;
  b ← dict_get np_to_nx_id (dataset_store.node2_id seg) ;
  Ok (a, b).

(** [{seg_to_nx_ids(s): f(s) for s in segs}] *)
Definition edge_dict {A} (np_to_nx_id : dict node_id) (f : Segment → A)
  (segs : list Segment) : result (list (node_id * node_id * A)) :=
  items ← rmap (λ s, k ← seg_to_nx_ids np_to_nx_id s ; Ok (k, f s)) segs ;
  Ok (assoc_of_items pair_eqb items).

Definition dataset_store_to_geograph (ds : dataset_store.Store)
  : result GeoGraph :=
  let all_nodes := dataset_store.cycleNodes ds false ++
                   dataset_store.cycleNodes ds true in
  let np_to_nx_id :=
    dict_of_items
      (imap (λ i n, (dataset_store.id n, Num (Int (Z.of_nat i))))
         all_nodes) in
  let cs := map dataset_store.getCommonCoordinates all_nodes in
  let coords_dict := dict_of_items (enumerate cs) in
  let budget_dict :=
    dict_of_items (enumerate (map dataset_store.metric all_nodes)) in
  let G := new_GeoGraph default_srs coords_dict None in
  g ← set_node_attributes_budget (graph G) budget_dict ;
  let segs := dataset_store.cycleSegments ds false in
  es ← rmap (seg_to_nx_ids np_to_nx_id) segs ;
  edge_weights ← edge_dict np_to_nx_id dataset_store.weight segs ;
  edge_is_existing ← edge_dict np_to_nx_id dataset_store.is_existing segs ;
  edge_subnet_id ← edge_dict np_to_nx_id dataset_store.subnet_id segs ;
  let g := add_edges_from g es in
  g ← set_edge_attributes g set_weight edge_weights ;
  g ← set_edge_attributes g set_is_existing edge_is_existing ;
  g ← set_edge_attributes g set_subnet_id edge_subnet_id ;
  Ok (mkGeoGraph g (srs G) (coords G)).
End to_geograph.

(* ================================================================== *)
(** ** Vocabulary of the properties *)

(** A synthetic node: its budget is infinite. *)
Definition is_synthetic (msf : GeoGraph) (n : node_id) : Prop :=
  node_budget (node (graph msf)) n = Ok PosInf.

(** Every lookup that [store_edge] may make for the edge succeeds. *)
Definition edge_complete (msf : GeoGraph) (e : edge) : Prop :=
  (∃ b, node_budget (node (graph msf)) e.1.1 = Ok b) ∧
  (∃ b, node_budget (node (graph msf)) e.1.2 = Ok b) ∧
  (∃ c, dict_get (coords msf) e.1.1 = Ok c) ∧
  (∃ c, dict_get (coords msf) e.1.2 = Ok c) ∧
  is_Some (weight e.2).

(** A run ends well or raises an exception of [E]. *)
Definition outcome_in (E : exception → Prop) (r : result ()) : Prop :=
  match r with
  | Ok _ => True
  | Err e => E e
  end.

(** A run raises an exception of [E]. *)
Definition fails_in (E : exception → Prop) (r : result ()) : Prop :=
  match r with
  | Ok _ => False
  | Err e => E e
  end.

(** A segment of the proposed pass: it is not existing, its [Subnet] was
    made at position [n] of the trace or later, and its ends are not both
    synthetic. *)
Definition proposed_segment (msf : GeoGraph) (n : nat) (s : Segment) : Prop :=
  dataset_store.is_existing s = false ∧
  (n ≤ dataset_store.subnet_id s)%nat ∧
  ¬ (is_synthetic msf (dataset_store.node1_id s) ∧
     is_synthetic msf (dataset_store.node2_id s)).

(** The segment of the existing pass for an edge, under [Subnet] [sn]. *)
Definition existing_segment (sn : nat) (e : edge) : Segment :=
  dataset_store.mkSegment e.1.1 e.1.2 sn true (default NoneVal (weight e.2)).

(** A coordinate within the range of degrees of longitude and latitude. *)
Definition within_degrees (c : coord) : Prop :=
  (-180 <= c.1)%Q ∧ (c.1 <= 180)%Q ∧ (-90 <= c.2)%Q ∧ (c.2 <= 90)%Q.

(** Two pairs of ids name the same undirected edge. *)
Definition same_ends (p q : node_id * node_id) : Prop :=
  prod_map key key p = prod_map key key q ∨
  prod_map key key p = prod_map key key (q.2, q.1).

(** No two pairs of a list name the same undirected edge. *)
Fixpoint distinct_ends (ps : list (node_id * node_id)) : Prop :=
  match ps with
  | [] => True
  | p :: ps' => Forall (λ q, ¬ same_ends p q) ps' ∧ distinct_ends ps'
  end.

(** How an edge stands after the items [attrs] have been assigned to the
    edges of its graph: its ends are the same, its data are kept in the
    sense of [Keep], and they satisfy [Sset] when they did or when an item
    was assigned to the edge. *)
Definition assigned {A} (Keep : EdgeData → EdgeData → Prop)
  (Sset : EdgeData → Prop) (attrs : list (node_id * node_id * A))
  (e e' : edge) : Prop :=
  e'.1 = e.1 ∧ Keep e.2 e'.2 ∧ (Sset e.2 → Sset e'.2) ∧
  ((∃ kv, kv ∈ attrs ∧ same_ends e.1 kv.1) → Sset e'.2).

(** The nodes of a store in the order [dataset_store_to_geograph] takes
    them. *)
Definition store_nodes (ds : dataset_store.Store) : list dataset_store.Node :=
  dataset_store.cycleNodes ds false ++ dataset_store.cycleNodes ds true.

(** The integer an id stands for. *)
Definition id_value (i : node_id) : Z :=
  match i with
  | Num n => int_value n
  | Str _ => 0
  end.

(** The id of the store for the node [i] of the demand graph. *)
Definition store_id (i : node_id) : node_id := Num (Int (id_value i + 1)).

(** An id of a node that comes from the demand graph: an integer, and
    below the last one when it is a numpy integer. *)
Definition demand_id (i : node_id) : Prop :=
  match i with
  | Num (Int _) => True
  | Num (Int64 z) => - 2 ^ 63 ≤ z < 2 ^ 63 - 1
  | Str _ => False
  end.

(** * Sample inputs *)

Definition forest_example : Graph :=
  mkGraph
    [(Num (Int 0), mkNodeData (Some (Finite 10)));
     (Num (Int 1), mkNodeData (Some (Finite 20)));
     (Num (Int 2), mkNodeData (Some (Finite 5)))]
    [(Num (Int 0), Num (Int 1), mkEdgeData (Some (Finite 3)) None None)].

Definition synthetic_pair : GeoGraph :=
  mkGeoGraph
    (mkGraph
       [(Num (Int 1), mkNodeData (Some PosInf));
        (Num (Int 2), mkNodeData (Some PosInf))]
       [(Num (Int 1), Num (Int 2), mkEdgeData (Some (Finite 1)) None None)])
    PROJ4_LATLONG
    [(Num (Int 1), (0, 0)%Q); (Num (Int 2), (1, 0)%Q)].

Definition existing_example : GeoGraph :=
  mkGeoGraph
    (mkGraph
       [(Str "grid-0", mkNodeData None); (Str "grid-1", mkNodeData None)]
       [(Str "grid-0", Str "grid-1",
         mkEdgeData (Some (Finite 7)) None None)])
    PROJ4_LATLONG
    [(Str "grid-0", (0, 0)%Q); (Str "grid-1", (0, 1)%Q)].

Definition junction : GeoGraph :=
  mkGeoGraph
    (mkGraph
       [(Num (Int 1), mkNodeData (Some (Finite 10)));
        (Num (Int 2), mkNodeData (Some PosInf));
        (Num (Int 3), mkNodeData (Some (Finite 20)))]
       [(Num (Int 1), Num (Int 2), mkEdgeData (Some (Finite 5)) None None);
        (Num (Int 2), Num (Int 3), mkEdgeData (Some (Finite 6)) None None)])
    PROJ4_LATLONG
    [(Num (Int 1), (0, 0)%Q); (Num (Int 2), (1, 0)%Q);
     (Num (Int 3), (2, 0)%Q)].

Definition lonely : GeoGraph :=
  mkGeoGraph
    (mkGraph [(Num (Int 0), mkNodeData (Some (Finite 10)))] [])
    PROJ4_LATLONG
    [(Num (Int 0), (0, 0)%Q)].

(** The registry of a runner whose one algorithm gives its input back. *)
Definition one_algorithm : gmap string (@strategy unit unit) :=
  {[ "mod_boruvka" := λ g _ _, Ok g ]}.

Definition lonely_config : @Config unit :=
  mkConfig None (Some "mod_boruvka") (Some 2).

Definition unknown_config : @Config unit :=
  mkConfig None (Some "steiner") (Some 2).

Definition small_store : dataset_store.Store :=
  dataset_store.mkStore
    [dataset_store.mkNode (Num (Int 1)) (36.8, -1.3)%Q false (Finite 10);
     dataset_store.mkNode (Num (Int 2)) (36.9, -1.2)%Q false (Finite 20)]
    [].


Definition stored_network : dataset_store.Store :=
  dataset_store.mkStore
    [dataset_store.mkNode (Num (Int 1)) (36.8, -1.3)%Q false (Finite 10);
     dataset_store.mkNode (Num (Int 2)) (36.9, -1.2)%Q false (Finite 20);
     dataset_store.mkNode (Num (Int 3)) (36.85, -1.25)%Q true NoneVal]
    [dataset_store.mkSegment (Str "grid-0") (Str "grid-1") 0 true (Finite 7);
     dataset_store.mkSegment (Num (Int 1)) (Num (Int 3)) 1 false (Finite 5);
     dataset_store.mkSegment (Num (Int 3)) (Num (Int 2)) 1 false (Finite 6)].

Definition numpy_filtered : Graph :=
  mkGraph
    [(Num (Int64 0), mkNodeData (Some (Finite 10)));
     (Num (Int64 1), mkNodeData (Some (Finite 20)))]
    [(Num (Int64 0), Num (Int64 1), mkEdgeData (Some (Finite 3)) None None)].

Definition result_of_algorithm : GeoGraph :=
  mkGeoGraph
    (mkGraph
       [(Num (Int 0), mkNodeData (Some (Finite 10)));
        (Num (Int 1), mkNodeData (Some (Finite 20)))]
       [(Num (Int 0), Num (Int 1), mkEdgeData (Some (Finite 3)) None None)])
    PROJ4_LATLONG
    [(Num (Int 0), (36.8, -1.3)%Q); (Num (Int 1), (36.9, -1.2)%Q)].

(** The graph of nodes that the demand graph builder makes of the
    records [l]: node [i] is the [i]-th record, with its metric for
    budget and its coordinate. *)
Definition graph_of_records (s : proj4) (l : list dataset_store.Node)
  : GeoGraph :=
  mkGeoGraph
    (mkGraph
       (imap (λ i n, (Num (Int (Z.of_nat i)),
                      mkNodeData (Some (dataset_store.metric n)))) l)
       [])
    s
    (enumerate (map dataset_store.getCommonCoordinates l)).

(** An id that is a number, a Python int or a numpy integer. *)
Definition is_number (i : node_id) : Prop :=
  match i with
  | Num _ => True
  | Str _ => False
  end.

(** The connected component of [v] in [g], as the list of its nodes. *)
Definition component_of (g : Graph) (v : node_id) : list node_id :=
  class_of (root (edge_ends g)) (node_ids g) v.

(** A configuration without existing network that keeps every
    subnetwork. *)
Definition keep_all_config : @Config unit :=
  mkConfig None (Some "mod_boruvka") (Some 1).

#[global] Instance is_synthetic_dec msf n : Decision (is_synthetic msf n).
Proof.
  unfold is_synthetic.
  destruct (node_budget (node (graph msf)) n) as [[]|];
    first [by left | by right].
Defined.

(** The ends of an edge that are synthetic, as the persister meets them. *)
Definition synthetic_ends (msf : GeoGraph) (e : edge) : list node_id :=
  filter (is_synthetic msf) [e.1.1; e.1.2].

(** The calls that put the record of a synthetic node in the store; [h]
    is the handle of the record. *)
Definition node_ops (h : nat) (c : coord) (n : node_id) : list store_op :=
  [dataset_store.addNode c true;
   dataset_store.set_id h n;
   dataset_store.session_add_node h;
   dataset_store.session_commit].

(** The segment of the proposed pass for an edge, under [Subnet] [sn]. *)
Definition proposed_segment_of (sn : nat) (e : edge) : Segment :=
  dataset_store.mkSegment e.1.1 e.1.2 sn false (default NoneVal (weight e.2)).

(** The [Subnet]s a trace adds to the session, by their handles. *)
Definition added_subnets (tr : list store_op) : list nat :=
  omap (λ op, match op with
              | dataset_store.session_add_subnet h => Some h
              | _ => None
              end) tr.

(** The edges of the proposed pass for which the body of the loop
    succeeds. *)
Definition storable (msf : GeoGraph) (e : edge) : Prop :=
  edge_complete msf e ∧
  ¬ (is_synthetic msf e.1.1 ∧ is_synthetic msf e.1.2).

(** The records made for the nodes [ns]: fake ones, at the coordinates
    of the nodes. *)
Definition records_of (msf : GeoGraph) (ns : list node_id)
  (cs : list (coord * bool)) : Prop :=
  Forall2 (λ n cf, dict_get (coords msf) n = Ok cf.1 ∧ cf.2 = true) ns cs.

(** The segments of the subnetworks [subs] under the [Subnet]s [hs]. *)
Definition segments_of (hs : list nat) (subs : list Graph) : list Segment :=
  concat (zip_with (λ h sub, map (proposed_segment_of h) (edges sub)) hs subs).

(** A fake record at the coordinate of a synthetic node. *)
Definition fake_record (msf : GeoGraph) (cf : coord * bool) : Prop :=
  cf.2 = true ∧
  ∃ n, is_synthetic msf n ∧ dict_get (coords msf) n = Ok cf.1.

(** A synthetic node that is an end of an edge of the forest. *)
Definition synthetic_end_of (msf : GeoGraph) (i : node_id) : Prop :=
  is_synthetic msf i ∧
  ∃ e, e ∈ edges (graph msf) ∧ (i = e.1.1 ∨ i = e.1.2).

(** The records and the ids of a run of calls are those of synthetic
    nodes. *)
Definition persisted (msf : GeoGraph) (ops : list store_op) : Prop :=
  Forall (fake_record msf) (created_nodes ops) ∧
  Forall (synthetic_end_of msf) (assigned_ids ops).

(** An existing network whose second edge has no weight. *)
Definition unweighted_existing : GeoGraph :=
  mkGeoGraph
    (mkGraph
       [(Str "grid-0", mkNodeData None); (Str "grid-1", mkNodeData None);
        (Str "grid-2", mkNodeData None)]
       [(Str "grid-0", Str "grid-1",
         mkEdgeData (Some (Finite 7)) None None);
        (Str "grid-1", Str "grid-2", mkEdgeData None None None)])
    PROJ4_LATLONG
    [(Str "grid-0", (0, 0)%Q); (Str "grid-1", (0, 1)%Q);
     (Str "grid-2", (0, 2)%Q)].

(** Every segment of the store that is not existing joins nodes of the
    store. *)
Definition segments_refer (ds : dataset_store.Store) : Prop :=
  ∀ s, s ∈ dataset_store.cycleSegments ds false →
    key (dataset_store.node1_id s) ∈
      key <$> (dataset_store.id <$> store_nodes ds) ∧
    key (dataset_store.node2_id s) ∈
      key <$> (dataset_store.id <$> store_nodes ds).

(** A store with a proposed segment to a node it does not have. *)
Definition dangling_store : dataset_store.Store :=
  dataset_store.mkStore
    [dataset_store.mkNode (Num (Int 1)) (36.8, -1.3)%Q false (Finite 10)]
    [dataset_store.mkSegment (Num (Int 1)) (Num (Int 9)) 1 false (Finite 5)].

(** The ends of a segment. *)
Definition segment_ends (s : Segment) : node_id * node_id :=
  (dataset_store.node1_id s, dataset_store.node2_id s).

(** The attributes of the edge that [dataset_store_to_geograph] makes of
    a segment. *)
Definition segment_data (s : Segment) : EdgeData :=
  mkEdgeData (Some (dataset_store.weight s))
             (Some (dataset_store.is_existing s))
             (Some (dataset_store.subnet_id s)).

(** A store with two segments between the same nodes. *)
Definition doubled_store : dataset_store.Store :=
  dataset_store.mkStore
    [dataset_store.mkNode (Num (Int 1)) (36.8, -1.3)%Q false (Finite 10);
     dataset_store.mkNode (Num (Int 2)) (36.9, -1.2)%Q false (Finite 20)]
    [dataset_store.mkSegment (Num (Int 1)) (Num (Int 2)) 1 false (Finite 5);
     dataset_store.mkSegment (Num (Int 2)) (Num (Int 1)) 2 false (Finite 6)].

(** The segment [s] stands for the edge [e]. *)
Definition segment_of_edge (s : Segment) (e : edge) : Prop :=
  dataset_store.node1_id s = e.1.1 ∧
  dataset_store.node2_id s = e.1.2 ∧
  weight e.2 = Some (dataset_store.weight s).

(** The segment [s] stands for an edge of the existing network when it
    is flagged existing, and for an edge of the forest when it is not. *)
Definition segment_of_network (msf : GeoGraph) (existing : option GeoGraph)
  (s : Segment) : Prop :=
  if dataset_store.is_existing s
  then ∃ g e, existing = Some g ∧ e ∈ edges (graph g) ∧ segment_of_edge s e
  else ∃ e, e ∈ edges (graph msf) ∧ segment_of_edge s e.

(** A forest without nodes. *)
Definition empty_forest : GeoGraph :=
  mkGeoGraph (mkGraph [] []) PROJ4_LATLONG [].

(** What the session knows of the [Subnet]s of the segments of a trace:
    the [Subnet] made first, at position 0, was never added to the
    session; a segment flagged existing carries what was read of that
    [Subnet], and any other segment carries what was read of a [Subnet]
    that was added to the session. *)
Definition subnets_known (tr : list store_op) : Prop :=
  head tr = Some dataset_store.Subnet_new ∧
  (0%nat ∉ added_subnets tr) ∧
  Forall (λ s, if dataset_store.is_existing s
               then dataset_store.subnet_id s = 0%nat
               else dataset_store.subnet_id s ∈ added_subnets tr)
    (emitted tr).

(** The ends and the weight of a segment. *)
Definition segment_line (s : Segment) : node_id * node_id * pyvalue :=
  (dataset_store.node1_id s, dataset_store.node2_id s, dataset_store.weight s).

(** Unfolds the binds of the store monad. *)
Ltac run :=
  unfold mbind, M_bind, mret, M_ret, lift, call, raise, assert_ in *;
  simpl in *.

(* ================================================================== *)
(** * Properties *)

(** ** Dicts *)

Lemma py_eqb_key a b : py_eqb a b = true ↔ key a = key b.
Proof.
  destruct a as [m|s], b as [n|t]; simpl;
    rewrite ?bool_decide_eq_true; split; intros H; try done; congruence.
Qed.

Lemma pair_eqb_key a b :
  pair_eqb a b = true ↔ prod_map key key a = prod_map key key b.
Proof.
  destruct a as [a1 a2], b as [b1 b2]. unfold pair_eqb, prod_map. simpl.
  rewrite andb_true_iff, !py_eqb_key. split.
  - intros [-> ->]. done.
  - intros H. by inversion H.
Qed.

Section assoc_facts.
Context {K V T : Type} `{EqDecision T}.
Context (eqb : K → K → bool) (key : K → T).
Hypothesis eqb_key : ∀ a b, eqb a b = true ↔ key a = key b.

Lemma eqb_refl k : eqb k k = true.
Proof. by apply eqb_key. Qed.

Lemma assoc_set_fresh (d : list (K * V)) k v :
  key k ∉ key <$> d.*1 → assoc_set eqb d k v = d ++ [(k, v)].
Proof.
  induction d as [|[k' v'] d IH]; simpl; [done|].
  rewrite not_elem_of_cons. intros [Hne Hd].
  destruct (eqb k' k) eqn:E.
  - apply eqb_key in E. congruence.
  - by rewrite IH.
Qed.

Lemma assoc_fold_fresh (items acc : list (K * V)) :
  NoDup (key <$> (acc ++ items).*1) →
  fold_left (λ d kv, assoc_set eqb d kv.1 kv.2) items acc = acc ++ items.
Proof.
  revert acc. induction items as [|[k v] items IH]; intros acc Hnd; simpl.
  - by rewrite app_nil_r.
  - rewrite assoc_set_fresh.
    + rewrite IH; rewrite <- app_assoc; [done|]. exact Hnd.
    + rewrite !fmap_app, NoDup_app in Hnd. destruct Hnd as (_ & Hd & _).
      intros Hin. apply (Hd _ Hin). simpl. left.
Qed.

Lemma assoc_of_items_nodup (items : list (K * V)) :
  NoDup (key <$> items.*1) → assoc_of_items eqb items = items.
Proof. intros. unfold assoc_of_items. by rewrite assoc_fold_fresh. Qed.

Lemma assoc_get_elem (d : list (K * V)) k v :
  NoDup (key <$> d.*1) → (k, v) ∈ d → assoc_get eqb d k = Ok v.
Proof.
  induction d as [|[k' v'] d IH]; simpl; intros Hnd Hin.
  - by apply elem_of_nil in Hin.
  - apply NoDup_cons in Hnd as [Hk Hnd].
    apply elem_of_cons in Hin as [Heq|Hin].
    + inversion Heq; subst. by rewrite eqb_refl.
    + destruct (eqb k' k) eqn:E; [|by apply IH].
      apply eqb_key in E. exfalso. apply Hk. rewrite E.
      apply list_elem_of_fmap. exists k. split; [done|].
      apply list_elem_of_fmap. by exists (k, v).
Qed.

(** A value found in a dict is the value of one of its items. *)
Lemma assoc_get_Ok (d : list (K * V)) k v :
  assoc_get eqb d k = Ok v → ∃ k', (k', v) ∈ d ∧ key k' = key k.
Proof.
  induction d as [|[k' v'] d IH]; simpl; [done|].
  destruct (eqb k' k) eqn:E.
  - intros [= ->]. exists k'. split; [left|by apply eqb_key].
  - intros H. destruct (IH H) as (k'' & Hin & Hk). exists k''.
    split; [by right|done].
Qed.

Lemma assoc_get_Err (d : list (K * V)) k e :
  assoc_get eqb d k = Err e → e = KeyError ∧ key k ∉ key <$> d.*1.
Proof.
  induction d as [|[k' v'] d IH]; simpl.
  - intros [= <-]. split; [done|]. apply not_elem_of_nil.
  - destruct (eqb k' k) eqn:E; [done|]. intros H.
    destruct (IH H) as [-> Hn]. split; [done|].
    apply not_elem_of_cons. split; [|done].
    intros Hk. symmetry in Hk. apply eqb_key in Hk. congruence.
Qed.

Lemma assoc_set_keys (d : list (K * V)) k v t :
  t ∈ key <$> (assoc_set eqb d k v).*1 ↔ t = key k ∨ t ∈ key <$> d.*1.
Proof.
  induction d as [|[k' v'] d IH]; csimpl.
  - rewrite list_elem_of_singleton, elem_of_nil. tauto.
  - destruct (eqb k' k) eqn:E; csimpl; rewrite !elem_of_cons.
    + apply eqb_key in E. rewrite E. tauto.
    + rewrite IH. tauto.
Qed.

Lemma assoc_set_values (d : list (K * V)) k v x :
  x ∈ (assoc_set eqb d k v).*2 → x = v ∨ x ∈ d.*2.
Proof.
  induction d as [|[k' v'] d IH]; simpl.
  - rewrite list_elem_of_singleton. by left.
  - destruct (eqb k' k); simpl; rewrite !elem_of_cons; [tauto|].
    intros [->|H]; [tauto|]. destruct (IH H); tauto.
Qed.

Lemma assoc_fold_keys (items acc : list (K * V)) t :
  t ∈ key <$> (fold_left (λ d kv, assoc_set eqb d kv.1 kv.2) items acc).*1
  ↔ t ∈ key <$> (acc ++ items).*1.
Proof.
  revert acc. induction items as [|[k v] items IH]; intros acc; csimpl.
  - by rewrite app_nil_r.
  - rewrite IH. rewrite !fmap_app, !elem_of_app. csimpl.
    rewrite assoc_set_keys, elem_of_cons. tauto.
Qed.

Lemma assoc_fold_values (items acc : list (K * V)) x :
  x ∈ (fold_left (λ d kv, assoc_set eqb d kv.1 kv.2) items acc).*2 →
  x ∈ (acc ++ items).*2.
Proof.
  revert acc. induction items as [|[k v] items IH]; intros acc; simpl.
  - by rewrite app_nil_r.
  - intros H. apply IH in H. rewrite !fmap_app, !elem_of_app in *.
    simpl. rewrite elem_of_cons.
    destruct H as [H|H]; [|tauto].
    apply assoc_set_values in H. tauto.
Qed.
End assoc_facts.

(** ** Connected components *)

Lemma linked_mono es es' u v :
  (∀ e, e ∈ es → e ∈ es') → linked es u v → linked es' u v.
Proof.
  intros Hsub H. induction H as [x y H| |x y _ IH|x y z _ IH1 _ IH2].
  - apply rst_step. by apply Hsub.
  - apply rst_refl.
  - by apply rst_sym.
  - by eapply rst_trans.
Qed.

(** [root] decides [linked]: the model of the components is sound and
    complete for connectivity. *)
Lemma root_linked es u v : root es u = root es v ↔ linked es u v.
Proof.
  revert u v. induction es as [|[a b] es IH]; intros u v.
  - simpl. split.
    + intros ->. apply rst_refl.
    + intros H. induction H as [x y H| | |]; try congruence.
      by apply elem_of_nil in H.
  - assert (∀ x y, linked es x y → linked ((a, b) :: es) x y) as Hup.
    { intros x y. apply linked_mono. intros e. by right. }
    assert (linked ((a, b) :: es) a b) as Hab.
    { apply rst_step. left. }
    split.
    + simpl. repeat case_decide; intros Heq.
      * eapply rst_trans; [apply Hup, IH; eassumption|].
        apply rst_sym, Hup, IH. done.
      * eapply rst_trans; [apply Hup, IH; eassumption|].
        eapply rst_trans; [apply rst_sym, Hab|]. by apply Hup, IH.
      * eapply rst_trans; [apply Hup, IH; eassumption|].
        eapply rst_trans; [apply Hab|]. apply rst_sym, Hup, IH. done.
      * by apply Hup, IH.
    + intros H. induction H as [x y H| |x y _ IH'|x y z _ IH1 _ IH2];
        [|done|done|congruence].
      apply elem_of_cons in H as [[= -> ->]|H].
      * simpl. rewrite (decide_True (P := root es b = root es b)); [|done].
        by case_decide.
      * assert (root es x = root es y) as Hxy by by apply IH, rst_step.
        simpl. rewrite Hxy. done.
Qed.

Lemma reps_elem r seen ns v : v ∈ reps r seen ns → v ∈ ns.
Proof.
  revert seen. induction ns as [|w ns IH]; intros seen; simpl; [done|].
  case_decide.
  - intros H'. right. by eapply IH.
  - rewrite !elem_of_cons. intros [->|H']; [by left|right; by eapply IH].
Qed.

(** Every node has the root of a node already seen or of a representative. *)
Lemma reps_cover r seen ns v :
  v ∈ ns → r v ∈ r <$> seen ∨ ∃ w, w ∈ reps r seen ns ∧ r w = r v.
Proof.
  revert seen. induction ns as [|x ns IH]; intros seen Hv; simpl.
  - by apply elem_of_nil in Hv.
  - apply elem_of_cons in Hv as [->|Hv].
    + case_decide as Hx.
      * left. apply Exists_exists in Hx as (w & Hw & Hr).
        rewrite <- Hr. apply list_elem_of_fmap. by exists w.
      * right. exists x. split; [left|done].
    + case_decide as Hx.
      * destruct (IH seen Hv) as [?|(w & ? & ?)]; [by left|right; eauto].
      * destruct (IH (x :: seen) Hv) as [Hs|(w & ? & ?)].
        -- rewrite fmap_cons, elem_of_cons in Hs.
           destruct Hs as [Hs|Hs]; [|by left].
           right. exists x. split; [left|done].
        -- right. exists w. split; [by right|done].
Qed.

(** The representatives have pairwise different roots, none of them seen. *)
Lemma reps_NoDup r seen ns :
  NoDup (r <$> reps r seen ns) ∧
  ∀ w, w ∈ reps r seen ns → r w ∉ r <$> seen.
Proof.
  revert seen. induction ns as [|x ns IH]; intros seen; simpl.
  - split; [constructor|]. intros w Hw. by apply elem_of_nil in Hw.
  - case_decide as Hx; [apply IH|].
    destruct (IH (x :: seen)) as [Hnd Hseen]. split.
    + rewrite fmap_cons. constructor; [|done].
      intros Hin. apply list_elem_of_fmap in Hin as (w & Hr & Hw).
      apply (Hseen w Hw). rewrite fmap_cons, <- Hr. left.
    + intros w. rewrite elem_of_cons. intros [->|Hw].
      * intros Hin. apply Hx, Exists_exists.
        apply list_elem_of_fmap in Hin as (s & Hr & Hs). eauto.
      * intros Hin. apply (Hseen w Hw). rewrite fmap_cons. by right.
Qed.

Lemma class_of_elem r ns v u : u ∈ class_of r ns v ↔ r u = r v ∧ u ∈ ns.
Proof. unfold class_of. by rewrite list_elem_of_filter. Qed.

Lemma classes_elem r ns c :
  c ∈ classes r ns ↔ ∃ v, v ∈ reps r [] ns ∧ c = class_of r ns v.
Proof.
  unfold classes. rewrite list_elem_of_fmap. split.
  - intros (v & -> & Hv). eauto.
  - intros (v & Hv & ->). eauto.
Qed.

(** A node with the same root as one of a list, at one place only. *)
Lemma NoDup_fmap_split (r : node_id → node_id) vs w :
  NoDup (r <$> vs) → w ∈ vs →
  ∃ vs1 vs2, vs = vs1 ++ w :: vs2 ∧ ∀ z, z ∈ vs1 ++ vs2 → r z ≠ r w.
Proof.
  intros Hnd Hw. apply list_elem_of_split in Hw as (vs1 & vs2 & ->).
  exists vs1, vs2. split; [done|].
  rewrite fmap_app, fmap_cons in Hnd.
  apply NoDup_app in Hnd as (_ & Hd & Hnd2).
  apply NoDup_cons in Hnd2 as [Hw2 _].
  intros z Hz Heq. apply elem_of_app in Hz as [Hz|Hz].
  - apply (Hd (r z)); [by apply list_elem_of_fmap_2|]. rewrite Heq. left.
  - apply Hw2. rewrite <- Heq. by apply list_elem_of_fmap_2.
Qed.

(** ** Lists *)

Section list_facts.
Context {A : Type}.
Implicit Types (P Q : A → Prop) (l : list A) (ls : list (list A)).

Lemma filter_ext_in P Q `{!∀ x, Decision (P x)} `{!∀ x, Decision (Q x)} l :
  (∀ x, x ∈ l → P x ↔ Q x) → filter P l = filter Q l.
Proof.
  induction l as [|x l IH]; intros HPQ; [done|].
  rewrite !filter_cons, IH.
  - destruct (decide (P x)) as [HP|HP], (decide (Q x)) as [HQ|HQ];
      try done; exfalso; apply (HPQ x (list_elem_of_here _ _)) in HP ||
      apply (HPQ x (list_elem_of_here _ _)) in HQ; done.
  - intros y Hy. apply HPQ. by right.
Qed.

Lemma filter_all P `{!∀ x, Decision (P x)} l :
  (∀ x, x ∈ l → P x) → filter P l = l.
Proof.
  induction l as [|x l IH]; intros HP; [done|].
  rewrite filter_cons_True by (apply HP; left).
  rewrite IH; [done|]. intros y Hy. apply HP. by right.
Qed.

Lemma elem_of_concat (x : A) ls : x ∈ concat ls ↔ ∃ l, l ∈ ls ∧ x ∈ l.
Proof.
  induction ls as [|l ls IH]; simpl.
  - split; [by intros ?%elem_of_nil|]. by intros (l & ?%elem_of_nil & _).
  - rewrite elem_of_app, IH. split.
    + intros [H|(l' & H1 & H2)]; [exists l; split; [left|done]|].
      exists l'. split; [by right|done].
    + intros (l' & [->|H1]%elem_of_cons & H2); [by left|right; eauto].
Qed.

Lemma filter_concat P `{!∀ x, Decision (P x)} ls :
  filter P (concat ls) = concat (map (filter P) ls).
Proof.
  induction ls as [|l ls IH]; simpl; [done|]. by rewrite filter_app, IH.
Qed.

Lemma length_filter_concat_ge P `{!∀ x, Decision (P x)} ls l :
  l ∈ ls → (∀ x, x ∈ l → P x) →
  (length l ≤ length (filter P (concat ls)))%nat.
Proof.
  intros Hl HP. rewrite filter_concat.
  apply list_elem_of_split in Hl as (ls1 & ls2 & ->).
  rewrite map_app, concat_app. simpl.
  rewrite !length_app, (filter_all P l HP). lia.
Qed.
End list_facts.

Lemma filter_fmap {A B} (f : A → B) (P : B → Prop) `{!∀ y, Decision (P y)}
  (l : list A) :
  filter P (f <$> l) = f <$> filter (λ x, P (f x)) l.
Proof.
  induction l as [|x l IH]; [done|].
  rewrite fmap_cons, !filter_cons, IH. by destruct (decide (P (f x))).
Qed.

Lemma fmap_concat {A B} (f : A → B) (ls : list (list A)) :
  f <$> concat ls = concat (map (fmap f) ls).
Proof.
  induction ls as [|l ls IH]; [done|]. simpl. by rewrite fmap_app, IH.
Qed.

(** Filtering a list once for each of [vs], when every element passes for
    one of them only, deals the list out. *)
Lemma concat_filter_perm {A} (f : A → node_id → Prop)
  `{!∀ x v, Decision (f x v)} (l : list A) (vs : list node_id) :
  (∀ x, x ∈ l → ∃ vs1 v vs2,
     vs = vs1 ++ v :: vs2 ∧ f x v ∧ ∀ w, w ∈ vs1 ++ vs2 → ¬ f x w) →
  concat (map (λ v, filter (λ x, f x v) l) vs) ≡ₚ l.
Proof.
  induction l as [|x l IH]; intros Hl.
  - clear Hl. induction vs as [|v vs IHvs]; [done|]. simpl. exact IHvs.
  - assert (∀ ws, (∀ w, w ∈ ws → ¬ f x w) →
      map (λ v, filter (λ y, f y v) (x :: l)) ws =
      map (λ v, filter (λ y, f y v) l) ws) as Hskip.
    { induction ws as [|w ws IHws]; intros Hws; [done|]. simpl.
      rewrite filter_cons_False by (apply Hws; left).
      rewrite IHws; [done|]. intros w' Hw'. apply Hws. by right. }
    destruct (Hl x) as (vs1 & v & vs2 & Hvs & Hv & Hothers); [left|].
    specialize (IH (λ y Hy, Hl y (list_elem_of_further _ _ _ Hy))).
    rewrite Hvs in *. rewrite map_app, concat_app in *. simpl in *.
    rewrite !Hskip.
    + rewrite filter_cons_True by done. simpl.
      rewrite <- Permutation_middle. by constructor.
    + intros w Hw. apply Hothers, elem_of_app. by right.
    + intros w Hw. apply Hothers, elem_of_app. by left.
Qed.

(** ** The component filter *)

Section filter_facts.
Variable g : Graph.
Hypothesis wf : graph_wf g.

Let r := root (edge_ends g).
Let ids := node_ids g.
Let sub (v : node_id) : Graph := subgraph g (class_of r ids v).

Lemma subgraph_ids (g' : Graph) r' v :
  node_ids (subgraph g' (class_of r' (node_ids g') v)) =
  class_of r' (node_ids g') v.
Proof.
  transitivity
    ((filter (λ x : node_id * NodeData, r' x.1 = r' v) (node g')).*1).
  2: { symmetry. exact (filter_fmap fst (λ u, r' u = r' v) (node g')). }
  unfold node_ids at 1. simpl. f_equal.
  apply filter_ext_in. intros [u d] Hu. rewrite class_of_elem. simpl.
  split; [tauto|]. intros Hr. split; [done|].
  unfold node_ids. apply list_elem_of_fmap. by exists (u, d).
Qed.

Lemma subgraph_length (g' : Graph) r' v :
  length (node (subgraph g' (class_of r' (node_ids g') v))) =
  length (class_of r' (node_ids g') v).
Proof.
  pose proof (f_equal length (subgraph_ids g' r' v)) as H.
  unfold node_ids at 1 in H. by rewrite length_fmap in H.
Qed.

Lemma subgraphs_eq (g' : Graph) :
  connected_component_subgraphs g' =
  (λ v, subgraph g' (class_of (root (edge_ends g')) (node_ids g') v)) <$>
    reps (root (edge_ends g')) [] (node_ids g').
Proof.
  unfold connected_component_subgraphs, connected_components, classes.
  by rewrite map_map.
Qed.

Lemma sub_ids v : node_ids (sub v) = class_of r ids v.
Proof. apply subgraph_ids. Qed.

Lemma sub_elem n v : n ∈ (node (sub v)).*1 ↔ r n = r v ∧ n ∈ ids.
Proof.
  change (n ∈ node_ids (sub v) ↔ r n = r v ∧ n ∈ ids).
  by rewrite sub_ids, class_of_elem.
Qed.

(** The ends of an edge have the same root. *)
Lemma edge_same_root a b d : (a, b, d) ∈ edges g → r a = r b.
Proof.
  intros He. apply root_linked, rst_step.
  unfold edge_ends. apply list_elem_of_fmap. by exists (a, b, d).
Qed.

(** The union of subnetworks of different roots is their juxtaposition. *)
Lemma union_fold (vs : list node_id) (acc : Graph) :
  (∀ n, n ∈ node_ids acc → r n ∉ r <$> vs) →
  NoDup (r <$> vs) →
  fold_left (λ acc H, U' ← acc ; union U' H) (sub <$> vs) (Ok acc) =
  Ok (mkGraph (node acc ++ concat (map (λ v, node (sub v)) vs))
              (edges acc ++ concat (map (λ v, edges (sub v)) vs))).
Proof.
  revert acc. induction vs as [|w vs IH]; intros acc Hacc Hnd.
  - simpl. rewrite !app_nil_r. by destruct acc.
  - rewrite fmap_cons in Hnd. apply NoDup_cons in Hnd as [Hw Hnd].
    rewrite fmap_cons. cbn [fold_left]. unfold union at 2.
    cbn [mbind result_bind].
    rewrite decide_False.
    + rewrite IH; [|..|done].
      * simpl. by rewrite <- !app_assoc.
      * intros n. unfold node_ids. simpl. rewrite fmap_app, elem_of_app.
        intros [Hn|Hn].
        -- intros Hin. apply (Hacc n Hn). rewrite fmap_cons. by right.
        -- apply sub_elem in Hn as [-> _]. done.
    + rewrite Exists_exists. intros (n & Hn & Hn').
      apply sub_elem in Hn as [Hr _].
      apply (Hacc n Hn'). rewrite Hr, fmap_cons. left.
Qed.

Lemma union_all_subgraphs (vs : list node_id) :
  NoDup (r <$> vs) →
  union_all (sub <$> vs) =
  match vs with
  | [] => Ok None
  | _ => Ok (Some (mkGraph (concat (map (λ v, node (sub v)) vs))
                           (concat (map (λ v, edges (sub v)) vs))))
  end.
Proof.
  destruct vs as [|v vs]; [done|]. intros Hnd.
  rewrite fmap_cons in Hnd. apply NoDup_cons in Hnd as [Hv Hnd].
  rewrite fmap_cons. unfold union_all. rewrite union_fold; [done| |done].
  intros n Hn. apply sub_elem in Hn as [-> _]. done.
Qed.

(** The representatives of the subnetworks that the filter keeps. *)
Let survivors (k : Z) : list node_id :=
  filter (λ v, k ≤ Z.of_nat (length (class_of r ids v))) (reps r [] ids).

Lemma component_filter_eq k :
  component_filter g k =
  match survivors k with
  | [] => Ok None
  | vs => Ok (Some (mkGraph (concat (map (λ v, node (sub v)) vs))
                            (concat (map (λ v, edges (sub v)) vs))))
  end.
Proof.
  unfold component_filter. rewrite subgraphs_eq.
  rewrite (filter_fmap _ (λ s, k ≤ Z.of_nat (length (node s)))).
  fold r ids.
  replace (filter _ (reps r [] ids)) with (survivors k).
  - rewrite union_all_subgraphs; [by destruct (survivors k)|].
    eapply sublist_NoDup; [apply (reps_NoDup r [] ids)|].
    apply fmap_sublist, sublist_filter.
  - unfold survivors. apply filter_ext_in. intros v _.
    unfold ids. by rewrite subgraph_length.
Qed.

Lemma survivors_ids k :
  (concat (map (λ v, node (sub v)) (survivors k))).*1 =
  concat (filter (λ c, k ≤ Z.of_nat (length c)) (connected_components g)).
Proof.
  unfold connected_components, classes. fold r ids.
  rewrite (filter_fmap _ (λ c, k ≤ Z.of_nat (length c))).
  fold (survivors k). rewrite fmap_concat, map_map. f_equal.
  induction (survivors k) as [|v vs IH]; [done|].
  cbn [map]. rewrite IH. by rewrite fmap_cons, <- sub_ids.
Qed.

Lemma juxtaposed_ids (vs : list node_id) :
  (concat (map (λ v, node (sub v)) vs)).*1 =
  concat (map (class_of r ids) vs).
Proof.
  rewrite fmap_concat, map_map.
  induction vs as [|v vs IH]; [done|].
  cbn [map concat]. by rewrite IH, <- sub_ids.
Qed.

(** Nodes that are linked in the graph and lie in a subnetwork that is
    kept are linked in what the filter gives back. *)
Lemma linked_within (out : Graph) (c : list node_id) :
  (∀ a b d, (a, b, d) ∈ edges g → a ∈ c ∨ b ∈ c →
     a ∈ c ∧ b ∈ c ∧ (a, b) ∈ edge_ends out) →
  ∀ x y, linked (edge_ends g) x y → x ∈ c ∨ y ∈ c →
    x ∈ c ∧ y ∈ c ∧ linked (edge_ends out) x y.
Proof.
  intros Hc x y H.
  induction H as [x y H|x|x y _ IH|x y z _ IH1 _ IH2]; intros Hxy.
  - apply list_elem_of_fmap in H as ([[a b] d] & Heq & He).
    simpl in Heq. inversion Heq; subst.
    destruct (Hc _ _ _ He Hxy) as (? & ? & ?).
    repeat split; try done. by apply rst_step.
  - assert (x ∈ c) by tauto. repeat split; try done. apply rst_refl.
  - destruct IH as (? & ? & ?); [tauto|].
    repeat split; try done. by apply rst_sym.
  - destruct Hxy as [Hx|Hz].
    + destruct IH1 as (? & ? & ?); [by left|].
      destruct IH2 as (? & ? & ?); [by left|].
      repeat split; try done. by eapply rst_trans.
    + destruct IH2 as (? & ? & ?); [by right|].
      destruct IH1 as (? & ? & ?); [by right|].
      repeat split; try done. by eapply rst_trans.
Qed.

Lemma kept_closed (vs : list node_id) v a b d :
  v ∈ vs → (a, b, d) ∈ edges g →
  a ∈ class_of r ids v ∨ b ∈ class_of r ids v →
  a ∈ class_of r ids v ∧ b ∈ class_of r ids v ∧
  (a, b, d) ∈ concat (map (λ v, edges (sub v)) vs).
Proof.
  intros Hv He Hab. destruct wf as [_ Hends].
  destruct (Hends _ _ _ He) as [Ha Hb].
  pose proof (edge_same_root _ _ _ He) as Hr.
  assert (r a = r v) as Hav.
  { destruct Hab as [H|H]; apply class_of_elem in H as [H _]; congruence. }
  assert (a ∈ class_of r ids v) as Hac by (apply class_of_elem; done).
  assert (b ∈ class_of r ids v) as Hbc.
  { apply class_of_elem. split; [congruence|done]. }
  repeat split; try done.
  apply elem_of_concat. exists (edges (sub v)). split.
  - apply list_elem_of_In, in_map_iff. exists v.
    split; [done|by apply list_elem_of_In].
  - unfold sub, subgraph. simpl. apply list_elem_of_filter. done.
Qed.

(** Every connected component of the juxtaposition of subnetworks of
    [k] nodes or more has [k] nodes or more. *)
Lemma kept_components (k : Z) (vs : list node_id) :
  (∀ v, v ∈ vs → k ≤ Z.of_nat (length (class_of r ids v))) →
  Forall (λ s, k ≤ Z.of_nat (length (node s)))
    (connected_component_subgraphs
       (mkGraph (concat (map (λ v, node (sub v)) vs))
                (concat (map (λ v, edges (sub v)) vs)))).
Proof.
  intros Hk. set (out := mkGraph _ _).
  rewrite subgraphs_eq. apply Forall_fmap, Forall_forall.
  intros v' Hv'. unfold compose. rewrite subgraph_length.
  apply reps_elem in Hv'.
  assert (node_ids out = concat (map (class_of r ids) vs)) as Hids.
  { apply juxtaposed_ids. }
  rewrite Hids in Hv' |- *.
  apply elem_of_concat in Hv' as (c & Hc & Hv'c).
  apply list_elem_of_In, in_map_iff in Hc as (v & <- & Hv).
  apply list_elem_of_In in Hv.
  etrans; [apply (Hk v Hv)|]. apply inj_le.
  unfold class_of at 2.
  apply (length_filter_concat_ge (λ u, root (edge_ends out) u =
                                       root (edge_ends out) v')).
  - apply list_elem_of_In, in_map_iff. exists v.
    split; [done|by apply list_elem_of_In].
  - intros u Hu. apply root_linked.
    assert (linked (edge_ends g) u v') as Hl.
    { apply root_linked. apply class_of_elem in Hu as [Hu _].
      apply class_of_elem in Hv'c as [Hv'c _]. fold r. congruence. }
    apply (linked_within out (class_of r ids v)) in Hl as (_ & _ & Hl);
      [done| |by left].
    intros a b d He Hab.
    destruct (kept_closed vs v a b d Hv He Hab) as (? & ? & Hin).
    repeat split; try done.
    unfold edge_ends. apply list_elem_of_fmap. by exists (a, b, d).
Qed.

Lemma rep_in_class v : v ∈ reps r [] ids → v ∈ class_of r ids v.
Proof. intros Hv. apply class_of_elem. split; [done|by eapply reps_elem]. Qed.

(** Each node has one representative. *)
Lemma one_rep u :
  u ∈ ids → ∃ vs1 w vs2, reps r [] ids = vs1 ++ w :: vs2 ∧ r u = r w ∧
    ∀ z, z ∈ vs1 ++ vs2 → r u ≠ r z.
Proof.
  intros Hu. destruct (reps_cover r [] ids u Hu) as [H|(w & Hw & Hr)].
  - by apply elem_of_nil in H.
  - destruct (NoDup_fmap_split r _ w (proj1 (reps_NoDup r [] ids)) Hw)
      as (vs1 & vs2 & Heq & Hne).
    exists vs1, w, vs2. repeat split; [done|done|].
    intros z Hz. rewrite <- Hr. intros Heq'. by apply (Hne z Hz).
Qed.

(** The juxtaposition of all the subnetworks is the graph. *)
Lemma all_components_perm :
  concat (map (λ v, node (sub v)) (reps r [] ids)) ≡ₚ node g ∧
  concat (map (λ v, edges (sub v)) (reps r [] ids)) ≡ₚ edges g.
Proof.
  destruct wf as [_ Hends]. split.
  - apply (concat_filter_perm
             (λ (n : node_id * NodeData) v, n.1 ∈ class_of r ids v)).
    intros [u d] Hn.
    assert (u ∈ ids) as Hu.
    { unfold ids, node_ids. apply list_elem_of_fmap. by exists (u, d). }
    destruct (one_rep u Hu) as (vs1 & w & vs2 & Heq & Hr & Hne).
    exists vs1, w, vs2. repeat split; [done|by apply class_of_elem|].
    intros z Hz Hin. simpl in Hin. apply class_of_elem in Hin as [Hin _].
    by apply (Hne z Hz).
  - apply (concat_filter_perm
             (λ (e : edge) v,
                e.1.1 ∈ class_of r ids v ∧ e.1.2 ∈ class_of r ids v)).
    intros [[a b] d] He. destruct (Hends _ _ _ He) as [Ha Hb].
    pose proof (edge_same_root _ _ _ He) as Hab.
    destruct (one_rep a Ha) as (vs1 & w & vs2 & Heq & Hr & Hne).
    exists vs1, w, vs2. repeat split; [done|..].
    + by apply class_of_elem.
    + apply class_of_elem. simpl. split; [congruence|done].
    + intros z Hz [Hin _]. simpl in Hin.
      apply class_of_elem in Hin as [Hin _]. by apply (Hne z Hz).
Qed.

Lemma survivors_all k : k ≤ 1 → survivors k = reps r [] ids.
Proof.
  intros Hk. apply filter_all. intros v Hv.
  apply rep_in_class in Hv. destruct (class_of r ids v); [|simpl; lia].
  by apply elem_of_nil in Hv.
Qed.
End filter_facts.

(** C3 fails on the code.  The forest has no node and the minimum node
    count is 1: the forest has no subnetwork, so none passes the filter,
    [nx.union_all] of no graph gives [None] and not the forest, and
    [_build_network] raises [TypeError] when the realignment iterates
    over it.  The claim wants the forest back. *)
Theorem component_filter_of_empty_forest :
  connected_component_subgraphs (graph empty_forest) = [] ∧
  component_filter (graph empty_forest) 1 = Ok None ∧
  _build_network (λ _ : unit, Err KeyError)
    (λ _ _, Err KeyError) one_algorithm keep_all_config empty_forest =
    Err TypeError.
Proof.
  split; [|split].
  - reflexivity.
  - reflexivity.
  - vm_compute. reflexivity.
Qed.

Lemma forest_example_wf : graph_wf forest_example.
Proof.
  split.
  - apply (bool_decide_unpack _). vm_compute. exact I.
  - intros u v d Hin. apply list_elem_of_singleton in Hin. inversion Hin.
    split; apply (bool_decide_unpack _); vm_compute; exact I.
Defined.

(** ** Runs against the store *)

Lemma emitted_app tr tr' : emitted (tr ++ tr') = emitted tr ++ emitted tr'.
Proof. unfold emitted. apply omap_app. Qed.

Lemma for_each_inv {A} (P : list store_op → Prop) (l : list A)
  (body : A → M unit) :
  (∀ a tr, a ∈ l → P tr → P (body a tr).1) →
  ∀ tr, P tr → P (for_each l body tr).1.
Proof.
  induction l as [|a l IH]; intros Hb tr HP; [done|].
  simpl. unfold mbind, M_bind.
  pose proof (Hb a tr (list_elem_of_here _ _) HP) as Ha.
  destruct (body a tr) as [tr' [[]|e]]; simpl in *; [|done].
  apply IH; [|done]. intros x tr'' Hx. apply Hb. by right.
Qed.

Lemma for_each_outcome {A} (E : exception → Prop) (l : list A)
  (body : A → M unit) :
  (∀ a tr, a ∈ l → outcome_in E (body a tr).2) →
  ∀ tr, outcome_in E (for_each l body tr).2.
Proof.
  induction l as [|a l IH]; intros Hb tr; [done|].
  simpl. unfold mbind, M_bind.
  pose proof (Hb a tr (list_elem_of_here _ _)) as Ha.
  destruct (body a tr) as [tr' [[]|e]]; simpl in *; [|done].
  apply IH. intros x tr'' Hx. apply Hb. by right.
Qed.

Lemma for_each_fails {A} (E : exception → Prop) (l : list A)
  (body : A → M unit) (a : A) :
  a ∈ l →
  (∀ x tr, x ∈ l → outcome_in E (body x tr).2) →
  (∀ tr, fails_in E (body a tr).2) →
  ∀ tr, fails_in E (for_each l body tr).2.
Proof.
  induction l as [|x l IH]; intros Ha Hb Hfail tr.
  - by apply elem_of_nil in Ha.
  - simpl. unfold mbind, M_bind.
    pose proof (Hb x tr (list_elem_of_here _ _)) as Hx.
    destruct (body x tr) as [tr' [[]|e]] eqn:Hrun; simpl in *; [|done].
    apply elem_of_cons in Ha as [->|Ha].
    + specialize (Hfail tr). by rewrite Hrun in Hfail.
    + apply IH; [done| |done]. intros y tr'' Hy. apply Hb. by right.
Qed.

Lemma eq_inf_true b : eq_inf b = true ↔ b = PosInf.
Proof. by destruct b. Qed.

Lemma node_budget_Err ns n e : node_budget ns n = Err e → e = KeyError.
Proof.
  induction ns as [|[m d] ns IH]; simpl; [by intros [= <-]|].
  destruct (py_eqb m n); [|done]. destruct (budget d); [done|].
  by intros [= <-].
Qed.

Lemma dict_get_Err {V} (d : dict V) k e : dict_get d k = Err e → e = KeyError.
Proof. intros H. by apply (assoc_get_Err py_eqb key py_eqb_key) in H as [-> _]. Qed.

(** What the body of the loop over the edges does with one edge. *)
Lemma store_edge_spec (msf : GeoGraph) (sn : nat) (e : edge) tr :
  ∃ tr' r, store_edge msf sn e tr = (tr', r) ∧
    (length tr ≤ length tr')%nat ∧
    match r with
    | Ok _ =>
        ∃ w, weight e.2 = Some w ∧
          emitted tr' = emitted tr ++
            [dataset_store.mkSegment e.1.1 e.1.2 sn false w] ∧
          ¬ (is_synthetic msf e.1.1 ∧ is_synthetic msf e.1.2)
    | Err x =>
        emitted tr' = emitted tr ∧
        ((x = AssertionError ∧
          is_synthetic msf e.1.1 ∧ is_synthetic msf e.1.2) ∨
         (x = KeyError ∧ ¬ edge_complete msf e))
    end.
Proof.
  destruct e as [[u v] d]. unfold store_edge, fake_nodes, is_synthetic,
    edge_complete. simpl.
  destruct (node_budget (node (graph msf)) u) as [bu|xu] eqn:Hu.
  2: { apply node_budget_Err in Hu as ->. run. eexists _, _.
       split; [done|]. split; [done|]. split; [done|]. right.
       split; [done|]. intros ([b Hb] & _). done. }
  destruct (node_budget (node (graph msf)) v) as [bv|xv] eqn:Hv.
  2: { apply node_budget_Err in Hv as ->. run. eexists _, _.
       split; [done|]. split; [done|]. split; [done|]. right.
       split; [done|]. intros (_ & [b Hb] & _). done. }
  run.
  destruct (eq_inf bu) eqn:Eu, (eq_inf bv) eqn:Ev; simpl;
    rewrite ?eq_inf_true in *; subst;
    repeat match goal with
    | |- context [dict_get (coords msf) ?n] =>
        let Hc := fresh "Hc" in
        destruct (dict_get (coords msf) n) as [?|?] eqn:Hc; simpl;
        [|apply dict_get_Err in Hc as ->]
    end;
    destruct (weight d) as [w|] eqn:Hw; simpl;
    eexists _, _; (split; [done|]);
    rewrite ?length_app; simpl; (split; [lia|]);
    rewrite ?emitted_app; simpl; rewrite ?app_nil_r.
  all: try (split; [done|]; left; done).
  all: try (split; [done|]; right; split; [done|];
            intros (_ & _ & [? ?] & [? ?] & ?); simplify_eq; done).
  all: try (split; [done|]; right; split; [done|];
            intros (_ & _ & _ & _ & [? ?]); simplify_eq; done).
  all: try (eexists; split; [done|]; split; [done|];
            intros [? ?]; simplify_eq; done).
Qed.

Lemma subgraph_edge_of g s e :
  s ∈ connected_component_subgraphs g → e ∈ edges s → e ∈ edges g.
Proof.
  unfold connected_component_subgraphs. intros Hs He.
  apply list_elem_of_fmap in Hs as (c & -> & _).
  unfold subgraph in He. simpl in He.
  by apply list_elem_of_filter in He as [_ He].
Qed.

(** Every edge of a graph is an edge of one of its subnetworks. *)
Lemma edge_in_subgraph g u v d :
  graph_wf g → (u, v, d) ∈ edges g →
  ∃ s, s ∈ connected_component_subgraphs g ∧ (u, v, d) ∈ edges s.
Proof.
  intros wf He. pose proof (edge_same_root g u v d He) as Hr.
  destruct (proj2 wf _ _ _ He) as [Hu Hv].
  destruct (reps_cover (root (edge_ends g)) [] (node_ids g) u Hu)
    as [H|(w & Hw & Hrw)]; [by apply elem_of_nil in H|].
  exists (subgraph g (class_of (root (edge_ends g)) (node_ids g) w)). split.
  - rewrite subgraphs_eq. apply list_elem_of_fmap. by exists w.
  - unfold subgraph. simpl. apply list_elem_of_filter. simpl.
    rewrite !class_of_elem. split; [|done]. split; split; congruence.
Qed.

(** The existing pass adds one segment for each edge, while edges have a
    weight. *)
Lemma store_existing_spec (g : GeoGraph) tr :
  ∃ tr' r n, store_existing g tr = (tr', r) ∧
    (length tr < length tr')%nat ∧
    emitted tr' = emitted tr ++
      map (existing_segment (length tr)) (take n (edges (graph g))) ∧
    match r with
    | Ok _ => n = length (edges (graph g))
    | Err x =>
        x = KeyError ∧
        ¬ Forall (λ e : edge, is_Some (weight e.2)) (edges (graph g))
    end.
Proof.
  unfold store_existing. run.
  set (tr0 := tr ++ [dataset_store.Subnet_new]).
  assert (length tr < length tr0)%nat as Hlen.
  { unfold tr0. rewrite length_app. simpl. lia. }
  assert (emitted tr0 = emitted tr) as Hem.
  { unfold tr0. rewrite emitted_app. simpl. by rewrite app_nil_r. }
  rewrite <- Hem. clearbody tr0. clear Hem.
  revert tr0 Hlen. induction (edges (graph g)) as [|e es IH]; intros tr0 Hlen.
  - exists tr0, (Ok ()), 0%nat. simpl. rewrite app_nil_r. done.
  - simpl. destruct (weight e.2) as [w|] eqn:Hw; run.
    + destruct (IH (tr0 ++ [dataset_store.session_add_segment
         (dataset_store.mkSegment e.1.1 e.1.2 (length tr) true w)]))
        as (tr' & r & n & Hrun & Hlen' & Hem & Hr).
      { rewrite length_app. simpl. lia. }
      exists tr', r, (S n). rewrite Hrun. split; [done|].
      split; [done|]. split.
      * rewrite Hem, emitted_app. unfold existing_segment. simpl.
        rewrite Hw. simpl. by rewrite <- app_assoc.
      * destruct r; [by f_equal|]. destruct Hr as [-> Hr]. split; [done|].
        intros Hall. apply Hr. by apply Forall_cons in Hall as [_ ?].
    + exists tr0, (Err KeyError), 0%nat. simpl. rewrite app_nil_r.
      split; [done|]. split; [done|]. split; [done|]. split; [done|].
      intros Hall. apply Forall_cons in Hall as [[? Hs] _]. congruence.
Qed.

(** The proposed pass fails when the body of its loop fails on an edge. *)
Lemma proposed_pass_fails (E : exception → Prop) msf e0 :
  graph_wf (graph msf) →
  e0 ∈ edges (graph msf) →
  (∀ e sn tr, e ∈ edges (graph msf) →
     outcome_in E (store_edge msf sn e tr).2) →
  (∀ sn tr, fails_in E (store_edge msf sn e0 tr).2) →
  ∀ tr, fails_in E (proposed_pass msf tr).2.
Proof.
  intros wf He0 Hedge Hbad. destruct e0 as [[u v] d].
  destruct (edge_in_subgraph _ u v d wf He0) as (s0 & Hs0 & He0s).
  unfold proposed_pass. apply (for_each_fails E _ _ s0 Hs0).
  - intros s tr' Hs. run. apply for_each_outcome.
    intros x tr'' Hx. apply Hedge. by eapply subgraph_edge_of.
  - intros tr'. run.
    apply (for_each_fails E _ _ (u, v, d) He0s).
    + intros x tr'' Hx. apply Hedge. by eapply subgraph_edge_of.
    + intros tr''. apply Hbad.
Qed.

Lemma store_networks_fails (E : exception → Prop) msf existing :
  (∀ tr, outcome_in E (existing_pass existing tr).2) →
  (∀ tr, fails_in E (proposed_pass msf tr).2) →
  ∀ tr, fails_in E (_store_networks msf existing tr).2.
Proof.
  intros Hex Hprop tr. unfold _store_networks. unfold mbind at 1, M_bind at 1.
  specialize (Hex tr).
  destruct (existing_pass existing tr) as [tr1 [[]|x]]; simpl in *; [|done].
  unfold mbind at 1, M_bind at 1. specialize (Hprop tr1).
  destruct (proposed_pass msf tr1) as [tr2 [[]|x]]; simpl in *; done.
Qed.

Lemma proposed_pass_emitted msf tr :
  ∃ segs, emitted (proposed_pass msf tr).1 = emitted tr ++ segs ∧
    Forall (proposed_segment msf (length tr)) segs.
Proof.
  set (P := λ tr' : list store_op,
    (length tr ≤ length tr')%nat ∧
    ∃ segs, emitted tr' = emitted tr ++ segs ∧
      Forall (proposed_segment msf (length tr)) segs).
  assert (P tr) as HP.
  { split; [done|]. exists []. by rewrite app_nil_r. }
  apply (for_each_inv P (connected_component_subgraphs (graph msf))
    (λ subgraph,
       dataset_subnet ← call dataset_store.Subnet_new ;
       _ ← call (dataset_store.session_add_subnet dataset_subnet) ;
       _ ← call dataset_store.session_commit ;
       for_each (edges subgraph) (store_edge msf dataset_subnet))) in HP.
  { apply HP. }
  clear HP. intros s tr1 _ [Hlen (segs & Hem & Hsegs)]. run.
  set (P' := λ tr' : list store_op,
    (length tr1 < length tr')%nat ∧
    ∃ segs, emitted tr' = emitted tr ++ segs ∧
      Forall (proposed_segment msf (length tr)) segs).
  assert (∀ tr', P' tr' → P tr') as HP'.
  { intros tr' [? ?]. split; [lia|done]. }
  apply HP'. apply (for_each_inv P').
  - intros e tr2 _ [Hlen2 (segs2 & Hem2 & Hsegs2)].
    destruct (store_edge_spec msf (length tr1) e tr2)
      as (tr3 & r & -> & Hlen3 & Hr).
    simpl. split; [lia|]. destruct r as [[]|x].
    + destruct Hr as (w & Hw & Hem3 & Hsyn).
      eexists. rewrite Hem3, Hem2, <- app_assoc. split; [done|].
      apply Forall_app. split; [done|]. apply Forall_singleton.
      split; [done|]. split; [simpl; lia|done].
    + destruct Hr as [Hem3 _]. exists segs2. by rewrite Hem3.
  - split; [rewrite !length_app; simpl; lia|].
    exists segs. rewrite !emitted_app. simpl. by rewrite !app_nil_r.
Qed.

Lemma existing_pass_emitted existing tr :
  ∃ segs, emitted (existing_pass existing tr).1 = emitted tr ++ segs ∧
    Forall (λ s, dataset_store.is_existing s = true) segs.
Proof.
  unfold existing_pass. destruct existing as [g|].
  2: { exists []. by rewrite app_nil_r. }
  destruct (truth (Some g)).
  2: { exists []. by rewrite app_nil_r. }
  destruct (store_existing_spec g tr) as (tr' & r & n & -> & _ & Hem & _).
  eexists. split; [exact Hem|]. by apply Forall_fmap, Forall_true.
Qed.

Lemma store_networks_emitted msf existing tr :
  ∃ segs,
    emitted (_store_networks msf existing tr).1 =
      emitted (existing_pass existing tr).1 ++ segs ∧
    Forall (proposed_segment msf (length (existing_pass existing tr).1)) segs.
Proof.
  unfold _store_networks. unfold mbind at 1, M_bind at 1.
  destruct (existing_pass existing tr) as [tr1 [[]|x]]; simpl.
  2: { exists []. by rewrite app_nil_r. }
  unfold mbind at 1, M_bind at 1.
  destruct (proposed_pass_emitted msf tr1) as (segs & Hem & Hsegs).
  destruct (proposed_pass msf tr1) as [tr2 [[]|x]]; simpl in *.
  - exists segs. run. rewrite emitted_app, Hem. simpl.
    by rewrite app_nil_r.
  - by exists segs.
Qed.

Lemma existing_pass_outcome existing tr :
  match (existing_pass existing tr).2 with
  | Ok _ => True
  | Err x =>
      x = KeyError ∧
      ∃ g, existing = Some g ∧
        ¬ Forall (λ e : edge, is_Some (weight e.2)) (edges (graph g))
  end.
Proof.
  unfold existing_pass. destruct existing as [g|]; [|done].
  destruct (truth (Some g)); [|done].
  destruct (store_existing_spec g tr) as (tr' & r & n & -> & _ & _ & Hr).
  simpl. destruct r as [[]|x]; [done|]. destruct Hr as [-> Hr]. eauto.
Qed.

(** C2 (as amended).  Every segment that the proposed pass adds to the
    session has at most one end of infinite budget.  When the graph has an
    edge whose two ends have an infinite budget, the persister aborts: it
    raises [AssertionError] when every lookup it makes succeeds (each node
    has a budget and a coordinate, each edge a weight), and [KeyError]
    from the lookup that fails before otherwise. *)
Theorem two_synthetic_ends_abort (msf : GeoGraph)
  (existing : option GeoGraph) :
  graph_wf (graph msf) →
  (∀ s, s ∈ emitted (_store_networks msf existing []).1 →
     dataset_store.is_existing s = false →
     ¬ (is_synthetic msf (dataset_store.node1_id s) ∧
        is_synthetic msf (dataset_store.node2_id s))) ∧
  (∀ u v d, (u, v, d) ∈ edges (graph msf) →
     is_synthetic msf u → is_synthetic msf v →
     fails_in (λ x, x = AssertionError ∨ x = KeyError)
       (_store_networks msf existing []).2 ∧
     ((∀ e, e ∈ edges (graph msf) → edge_complete msf e) →
      (∀ g, existing = Some g →
         Forall (λ e : edge, is_Some (weight e.2)) (edges (graph g))) →
      (_store_networks msf existing []).2 = Err AssertionError)).
Proof.
  intros wf. split.
  - intros s Hs Hex.
    destruct (store_networks_emitted msf existing []) as (segs & Hem & Hsegs).
    destruct (existing_pass_emitted existing []) as (segs' & Hem' & Hsegs').
    rewrite Hem, Hem' in Hs. simpl in Hs.
    apply elem_of_app in Hs as [Hs|Hs].
    + rewrite Forall_forall in Hsegs'. apply Hsegs' in Hs. congruence.
    + rewrite Forall_forall in Hsegs. by apply Hsegs in Hs as (_ & _ & ?).
  - intros u v d He Hu Hv.
    assert (∀ (E : exception → Prop),
      E AssertionError →
      (∀ e, e ∈ edges (graph msf) → ¬ edge_complete msf e → E KeyError) →
      (∀ g, existing = Some g →
         ¬ Forall (λ e : edge, is_Some (weight e.2)) (edges (graph g)) →
         E KeyError) →
      fails_in E (_store_networks msf existing []).2) as Hfails.
    { intros E HA HK HKex. apply store_networks_fails.
      - intros tr. pose proof (existing_pass_outcome existing tr) as Hout.
        destruct (existing_pass existing tr).2 as [[]|x]; [done|].
        destruct Hout as (-> & g & Hg & Hw). simpl. eauto.
      - apply (proposed_pass_fails E msf (u, v, d) wf He).
        + intros e sn tr Hin.
          destruct (store_edge_spec msf sn e tr) as (tr' & r & -> & _ & Hr).
          simpl. destruct r as [[]|x]; [done|].
          destruct Hr as [_ [(-> & _)|(-> & Hc)]]; simpl; eauto.
        + intros sn tr.
          destruct (store_edge_spec msf sn (u, v, d) tr)
            as (tr' & r & -> & _ & Hr).
          simpl. destruct r as [[]|x].
          * destruct Hr as (_ & _ & _ & Hr). by destruct Hr.
          * destruct Hr as [_ [(-> & _)|(-> & Hc)]]; simpl; eauto. }
    split.
    + apply Hfails; auto.
    + intros Hcomplete Hweights.
      specialize (Hfails (λ x, x = AssertionError) eq_refl).
      destruct (_store_networks msf existing []).2 as [[]|x]; simpl in *.
      * exfalso. apply Hfails.
        -- intros e Hin Hc. by destruct Hc; apply Hcomplete.
        -- intros g Hg Hw. by destruct Hw; apply Hweights.
      * f_equal. apply Hfails.
        -- intros e Hin Hc. by destruct Hc; apply Hcomplete.
        -- intros g Hg Hw. by destruct Hw; apply Hweights.
Qed.

Lemma synthetic_pair_wf : graph_wf (graph synthetic_pair).
Proof.
  split.
  - apply (bool_decide_unpack _). vm_compute. exact I.
  - intros u v d Hin. apply list_elem_of_singleton in Hin. inversion Hin.
    split; apply (bool_decide_unpack _); vm_compute; exact I.
Defined.

Lemma two_synthetic_ends_abort_witness :
  graph_wf (graph synthetic_pair) ∧
  (_store_networks synthetic_pair None []).2 = Err AssertionError.
Proof.
  split; [exact synthetic_pair_wf|].
  refine (proj2 (proj2 (two_synthetic_ends_abort synthetic_pair None
                          synthetic_pair_wf)
                   (Num (Int 1)) (Num (Int 2))
                   (mkEdgeData (Some (Finite 1)) None None) _ _ _) _ _).
  - apply list_elem_of_here.
  - reflexivity.
  - reflexivity.
  - intros e He. apply list_elem_of_singleton in He. subst e.
    repeat split; eexists; reflexivity.
  - intros g Hg. discriminate Hg.
Defined.

(** C2, as stated, fails: on an edge whose two ends are synthetic the
    exception is [AssertionError], not [StructuralIntegrityError]. *)
Lemma two_synthetic_ends_not_StructuralIntegrityError :
  is_synthetic synthetic_pair (Num (Int 1)) ∧
  is_synthetic synthetic_pair (Num (Int 2)) ∧
  (_store_networks synthetic_pair None []).2 = Err AssertionError ∧
  (_store_networks synthetic_pair None []).2 ≠
    Err "StructuralIntegrityError".
Proof.
  split; [reflexivity|]. split; [reflexivity|]. split; [reflexivity|].
  discriminate.
Qed.

Lemma filter_none {A} (P : A → Prop) `{!∀ x, Decision (P x)} (l : list A) :
  (∀ x, x ∈ l → ¬ P x) → filter P l = [].
Proof.
  induction l as [|x l IH]; intros HP; [done|].
  rewrite filter_cons_False by (apply HP; left).
  apply IH. intros y Hy. apply HP. by right.
Qed.

Lemma existing_example_wf : graph_wf (graph existing_example).
Proof.
  split.
  - apply (bool_decide_unpack _). vm_compute. exact I.
  - intros u v d Hin. apply list_elem_of_singleton in Hin. inversion Hin.
    split; apply (bool_decide_unpack _); vm_compute; exact I.
Defined.

(** ** The nodes made for synthetic ends *)

(** C6 fails on the code.  Node 2 is synthetic and is an end of two edges
    of the forest: the persister succeeds, calls [store.addNode] for it
    once for each of the two edges, and gives the id 2 to both records. *)
Theorem synthetic_node_of_two_edges_added_twice :
  (_store_networks junction None []).2 = Ok () ∧
  created_nodes (_store_networks junction None []).1 =
    [((1, 0)%Q, true); ((1, 0)%Q, true)] ∧
  assigned_ids (_store_networks junction None []).1 =
    [Num (Int 2); Num (Int 2)].
Proof. repeat split; reflexivity. Qed.

(** ** No subnetwork is large enough *)

(** C4 fails on the code.  The forest is one isolated node and the
    minimum node count is 2: no subnetwork passes the filter,
    [nx.union_all] of no graph gives [None] and not a graph without
    nodes, and [_build_network] raises [TypeError] when the realignment
    iterates over it. *)
Theorem component_filter_of_small_components :
  Forall (λ c, Z.of_nat (length c) < 2) (connected_components (graph lonely)) ∧
  component_filter (graph lonely) 2 = Ok None ∧
  _build_network (λ _ : unit, Err KeyError)
    (λ _ _, Err KeyError) one_algorithm lonely_config lonely =
    Err TypeError.
Proof.
  split; [|split].
  - apply Forall_singleton. done.
  - reflexivity.
  - vm_compute. reflexivity.
Qed.

(** Whenever every component is smaller than the threshold, the filter
    gives [None]. *)
Lemma component_filter_none (g : Graph) (k : Z) :
  Forall (λ c, Z.of_nat (length c) < k) (connected_components g) →
  component_filter g k = Ok None.
Proof.
  intros Hsmall. rewrite component_filter_eq. cbv beta zeta.
  rewrite filter_none; [done|].
  intros v Hv Hk. rewrite Forall_forall in Hsmall.
  assert (Z.of_nat (length (class_of (root (edge_ends g)) (node_ids g) v))
          < k); [|lia].
  apply Hsmall. apply classes_elem. eauto.
Qed.

(** ** The choice of the algorithm *)

(** C8 (as amended).  When the configuration names an algorithm that the
    registry does not have, the dispatcher raises [KeyError], the
    exception of the lookup in the registry; no algorithm runs. *)
Theorem dispatch_unknown_algorithm {params subgraphs_t rtree_t : Type}
  (ALGOS : gmap string (@strategy subgraphs_t rtree_t))
  (config : @Config params) (name : string) (geo_graph : GeoGraph)
  (subgraphs : option subgraphs_t) (rtree : option rtree_t) :
  network_algorithm config = Some name →
  ALGOS !! name = None →
  dispatch ALGOS config geo_graph subgraphs rtree = Err KeyError.
Proof.
  intros Hname Hnone. unfold dispatch. rewrite Hname.
  change (lookup_key (Some name) ≫= _) with
    (lookup_key (ALGOS !! name) ≫= λ network_algo : strategy,
       network_algo geo_graph subgraphs rtree).
  by rewrite Hnone.
Qed.

Lemma dispatch_unknown_algorithm_witness :
  network_algorithm unknown_config = Some "steiner" ∧
  one_algorithm !! "steiner" = None ∧
  dispatch one_algorithm unknown_config lonely None None = Err KeyError.
Proof.
  assert (one_algorithm !! "steiner" = None) as Hnone.
  { unfold one_algorithm. apply lookup_singleton_ne. discriminate. }
  split; [reflexivity|]. split; [exact Hnone|].
  exact (dispatch_unknown_algorithm one_algorithm unknown_config "steiner"
           lonely None None eq_refl Hnone).
Defined.

(** C8, as stated, fails: the exception is not [ConfigurationError]. *)
Lemma dispatch_unknown_not_ConfigurationError :
  one_algorithm !! "steiner" = None ∧
  dispatch one_algorithm unknown_config lonely None None = Err KeyError ∧
  dispatch one_algorithm unknown_config lonely None None ≠
    Err "ConfigurationError".
Proof.
  assert (one_algorithm !! "steiner" = None) as Hnone.
  { apply lookup_singleton_ne. discriminate. }
  assert (dispatch one_algorithm unknown_config lonely None None =
          Err KeyError) as Hd.
  { vm_compute. reflexivity. }
  split; [done|]. split; [done|]. rewrite Hd. discriminate.
Qed.

(** ** The guess of the projection *)

Lemma in_lon_lat_box_spec c : in_lon_lat_box c = true ↔ within_degrees c.
Proof.
  unfold in_lon_lat_box, within_degrees.
  rewrite !andb_true_iff, !Qle_bool_iff. tauto.
Qed.

(** C9.  On coordinates that all lie within [-180, 180] x [-90, 90] the
    resolver takes the geographic reference, on coordinates one of which
    lies outside it takes the planar one, and on no coordinate at all it
    fails with [InvalidInputError]. *)
Theorem default_proj4_guess (cs : list coord) :
  (cs ≠ [] → Forall within_degrees cs →
   _get_default_proj4 cs = Ok PROJ4_LATLONG) ∧
  (Exists (λ c, ¬ within_degrees c) cs →
   _get_default_proj4 cs = Ok PROJ4_FLAT_EARTH) ∧
  (cs = [] → _get_default_proj4 cs = Err InvalidInputError).
Proof.
  unfold _get_default_proj4, is_in_lon_lat. split; [|split].
  - intros Hne Hall. destruct cs as [|c cs]; [done|].
    assert (forallb in_lon_lat_box (c :: cs) = true) as ->; [|done].
    apply forallb_forall. intros x Hx.
    apply in_lon_lat_box_spec. rewrite Forall_forall in Hall.
    by apply Hall, list_elem_of_In.
  - intros Hex. destruct cs as [|c cs]; [by apply Exists_nil in Hex|].
    assert (forallb in_lon_lat_box (c :: cs) = false) as ->; [|done].
    apply not_true_is_false. intros Hall.
    apply Exists_exists in Hex as (x & Hx & Hout). apply Hout.
    apply in_lon_lat_box_spec.
    rewrite forallb_forall in Hall. by apply Hall, list_elem_of_In.
  - by intros ->.
Qed.

Lemma default_proj4_guess_witness :
  _get_default_proj4 [(36.8, -1.3)%Q; (39.7, -4)%Q] = Ok PROJ4_LATLONG ∧
  _get_default_proj4 [(36.8, -1.3)%Q; (257000, 9856000)%Q] =
    Ok PROJ4_FLAT_EARTH ∧
  _get_default_proj4 [] = Err InvalidInputError.
Proof.
  split; [|split].
  - apply (proj1 (default_proj4_guess _)); [done|].
    repeat constructor; vm_compute; discriminate.
  - apply (proj1 (proj2 (default_proj4_guess _))).
    apply Exists_cons_tl, Exists_cons_hd.
    intros (_ & H & _). vm_compute in H. by apply H.
  - by apply (proj2 (proj2 (default_proj4_guess _))).
Defined.

(** ** The demand graph *)

Lemma enumerate_keys {A} (l : list A) :
  (enumerate l).*1 = (λ i, Num (Int (Z.of_nat i))) <$> seq 0 (length l).
Proof.
  unfold enumerate. rewrite fmap_imap. simpl.
  apply (imap_seq_0 l (λ i, Num (Int (Z.of_nat i)))).
Qed.

Lemma enumerate_NoDup {A} (l : list A) : NoDup (key <$> (enumerate l).*1).
Proof.
  rewrite enumerate_keys, <- list_fmap_compose.
  apply NoDup_fmap_2; [|apply NoDup_seq].
  intros i j Hij. simpl in Hij. inversion Hij. lia.
Qed.

Lemma dict_of_enumerate {A} (l : list A) :
  dict_of_items (enumerate l) = enumerate l.
Proof.
  apply (assoc_of_items_nodup py_eqb key py_eqb_key), enumerate_NoDup.
Qed.

Lemma add_node_fresh ns n :
  key n ∉ key <$> ns.*1 → add_node ns n = ns ++ [(n, mkNodeData None)].
Proof.
  intros Hn. unfold add_node.
  destruct (existsb (λ m, py_eqb m.1 n) ns) eqn:E; [|done].
  apply existsb_exists in E as ([m d] & Hin & Heq). simpl in Heq.
  apply py_eqb_key in Heq. destruct Hn. rewrite <- Heq.
  apply list_elem_of_fmap. exists m. split; [done|].
  apply list_elem_of_fmap. exists (m, d). split; [done|].
  by apply list_elem_of_In.
Qed.

Lemma fold_add_node ks acc :
  NoDup (key <$> (acc.*1 ++ ks)) →
  fold_left add_node ks acc = acc ++ ((λ k, (k, mkNodeData None)) <$> ks).
Proof.
  revert acc. induction ks as [|k ks IH]; intros acc Hnd; simpl.
  - by rewrite app_nil_r.
  - rewrite add_node_fresh.
    + rewrite IH; [by rewrite <- app_assoc|].
      replace ((acc ++ [(k, mkNodeData None)]).*1 ++ ks)
        with (acc.*1 ++ k :: ks); [done|].
      by rewrite (fmap_app fst), <- app_assoc.
    + rewrite fmap_app, NoDup_app in Hnd. destruct Hnd as (_ & Hd & _).
      intros Hin. apply (Hd _ Hin). rewrite fmap_cons. left.
Qed.

Lemma set_budget_ids ns n b ns' :
  set_budget ns n b = Ok ns' → ns'.*1 = ns.*1.
Proof.
  revert ns'. induction ns as [|[m d] ns IH]; intros ns'; simpl; [done|].
  destruct (py_eqb m n); [by intros [= <-]|].
  destruct (set_budget ns n b) as [ns''|] eqn:E; simpl; [|done].
  intros [= <-]. simpl. f_equal. by apply IH.
Qed.

Lemma set_node_attributes_budget_ids g values g' :
  set_node_attributes_budget g values = Ok g' →
  node_ids g' = node_ids g ∧ edges g' = edges g.
Proof.
  unfold set_node_attributes_budget.
  assert (∀ acc ns',
    fold_left (λ acc kv, ns ← acc ; set_budget ns kv.1 kv.2) values acc
      = Ok ns' →
    ∃ ns, acc = Ok ns ∧ ns'.*1 = ns.*1) as Hfold.
  { induction values as [|[k v] values IH]; intros acc ns'; simpl.
    - intros ->. eauto.
    - intros H. apply IH in H as (ns1 & H1 & Heq).
      destruct acc as [ns|]; [|done]. simpl in H1.
      apply set_budget_ids in H1. exists ns. split; [done|congruence]. }
  destruct (fold_left _ values (Ok (node g))) as [ns'|] eqn:E; [|done].
  simpl. intros [= <-]. apply Hfold in E as (ns & [= <-] & Heq).
  split; [exact Heq|done].
Qed.

Lemma demand_nodes_spec store input_proj demand_nodes :
  _get_demand_nodes store input_proj = Ok demand_nodes →
  node_ids (graph demand_nodes) =
    (λ i, Num (Int (Z.of_nat i))) <$>
      seq 0 (length (dataset_store.cycleNodes store false)) ∧
  edges (graph demand_nodes) = [] ∧
  coords demand_nodes =
    enumerate (map dataset_store.getCommonCoordinates
                 (dataset_store.cycleNodes store false)).
Proof.
  unfold _get_demand_nodes.
  set (nodes := dataset_store.cycleNodes store false).
  destruct (match input_proj with Some p => Ok p | None => _ end)
    as [p|]; [|done].
  simpl. rewrite !dict_of_enumerate.
  set (cs := map dataset_store.getCommonCoordinates nodes).
  destruct (set_node_attributes_budget _ _) as [g|] eqn:E; [|done].
  simpl. intros [= <-]. simpl.
  apply set_node_attributes_budget_ids in E as [Hids Hedges].
  rewrite Hids, Hedges. split; [|done].
  unfold new_GeoGraph, node_ids. simpl.
  rewrite fold_add_node by (simpl; apply enumerate_NoDup).
  simpl. rewrite <- list_fmap_compose.
  assert (∀ l : list node_id,
    (fst ∘ λ k : node_id, (k, mkNodeData None)) <$> l = l) as Hid.
  { intros l. induction l as [|x l IH]; [done|]. by rewrite fmap_cons, IH. }
  rewrite Hid, enumerate_keys. unfold cs.
  by rewrite length_map.
Qed.

(** ** The names of the existing network *)

Lemma map_fst_renamed {A B} (f : A → A) (l : list (A * B)) :
  (map (λ n, (f n.1, n.2)) l).*1 = f <$> l.*1.
Proof.
  induction l as [|[a b] l IH]; [done|].
  cbn [map]. by rewrite !fmap_cons, IH.
Qed.







(** ** The graph of a store *)

Lemma rmap_Ok {A B} (f : A → result B) (l : list A) (ys : list B) :
  rmap f l = Ok ys → Forall2 (λ x y, f x = Ok y) l ys.
Proof.
  revert ys. induction l as [|a l IH]; intros ys; simpl.
  - intros [= <-]. constructor.
  - destruct (f a) as [b|] eqn:Hb; simpl; [|done].
    destruct (rmap f l) as [bs|]; simpl; [|done].
    intros [= <-]. constructor; [done|by apply IH].
Qed.

Lemma rmap_total {A B} (f : A → result B) (l : list A) :
  (∀ x, x ∈ l → ∃ y, f x = Ok y) → ∃ ys, rmap f l = Ok ys.
Proof.
  induction l as [|a l IH]; intros Hf; simpl; [by eexists|].
  destruct (Hf a) as [b ->]; [left|]. simpl.
  destruct IH as [bs ->]; [|by eexists].
  intros x Hx. apply Hf. by right.
Qed.

Lemma rmap_tagged {A B C} (f : A → result B) (g : A → C) l ys :
  rmap f l = Ok ys →
  ∃ items, rmap (λ s, k ← f s ; Ok (k, g s)) l = Ok items ∧
    items.*1 = ys ∧ items.*2 = g <$> l.
Proof.
  revert ys. induction l as [|a l IH]; intros ys; simpl.
  - intros [= <-]. by exists [].
  - destruct (f a) as [b|] eqn:Hb; simpl; [|done].
    destruct (rmap f l) as [bs|] eqn:Hbs; simpl; [|done].
    intros [= <-]. destruct (IH bs eq_refl) as (items & -> & H1 & H2).
    simpl. exists ((b, g a) :: items). by rewrite !fmap_cons, H1, H2.
Qed.

Lemma same_edge_spec u v (e : edge) :
  same_edge u v e = true ↔ same_ends e.1 (u, v).
Proof.
  unfold same_edge, same_ends. by rewrite orb_true_iff, !pair_eqb_key.
Qed.

Lemma same_ends_sym p q : same_ends p q → same_ends q p.
Proof.
  destruct p as [p1 p2], q as [q1 q2]. unfold same_ends, prod_map. simpl.
  intros [H|H]; inversion H; [left|right]; congruence.
Qed.

Lemma same_ends_trans p q r : same_ends p q → same_ends q r → same_ends p r.
Proof.
  destruct p as [p1 p2], q as [q1 q2], r as [r1 r2].
  unfold same_ends, prod_map. simpl.
  intros [H|H] [H'|H']; inversion H; inversion H';
    [left|right|right|left]; congruence.
Qed.

Lemma same_ends_key p q : prod_map key key p = prod_map key key q → same_ends p q.
Proof. intros H. by left. Qed.

Lemma add_node_present ns n :
  key n ∈ key <$> ns.*1 → add_node ns n = ns.
Proof.
  intros Hn. unfold add_node.
  destruct (existsb (λ m, py_eqb m.1 n) ns) eqn:E; [done|].
  apply list_elem_of_fmap in Hn as (m & Hk & Hm).
  apply list_elem_of_fmap in Hm as ([m' d] & -> & Hin).
  assert (existsb (λ m, py_eqb m.1 n) ns = true); [|congruence].
  apply existsb_exists. exists (m', d).
  split; [by apply list_elem_of_In|]. by apply py_eqb_key.
Qed.

Lemma distinct_ends_snoc ps p :
  distinct_ends ps → Forall (λ q, ¬ same_ends q p) ps →
  distinct_ends (ps ++ [p]).
Proof.
  induction ps as [|q ps IH]; simpl; intros Hd Hp.
  - split; [constructor|done].
  - destruct Hd as [Hq Hd]. apply Forall_cons in Hp as [Hqp Hp].
    split; [|by apply IH].
    apply Forall_app. split; [done|]. by apply Forall_singleton.
Qed.

Section add_edges.
Variable g : Graph.

(** What holds of a graph while the pairs [done] have been added. *)
Let added (done : list (node_id * node_id)) (g' : Graph) : Prop :=
  node g' = node g ∧
  distinct_ends (edge_ends g') ∧
  (∀ e, e ∈ edges g' → e.2 = no_edge_data ∧ e.1 ∈ done) ∧
  (∀ p, p ∈ done → ∃ e, e ∈ edges g' ∧ same_ends e.1 p).

Lemma add_edge_added done g' p :
  added done g' →
  key p.1 ∈ key <$> node_ids g → key p.2 ∈ key <$> node_ids g →
  added (done ++ [p]) (add_edge g' p).
Proof.
  intros (Hn & Hd & He & Hp) Hu Hv.
  assert (add_node (add_node (node g') p.1) p.2 = node g) as Hns.
  { rewrite Hn. unfold node_ids in *.
    rewrite (add_node_present _ p.1 Hu). by apply add_node_present. }
  unfold add_edge. rewrite Hns.
  destruct (existsb (same_edge p.1 p.2) (edges g')) eqn:E.
  - split; [done|]. split; [done|]. split.
    + intros e Hin. destruct (He e Hin). split; [done|].
      apply elem_of_app. by left.
    + intros q [Hq|Hq]%elem_of_app; [by apply Hp|].
      apply list_elem_of_singleton in Hq as ->.
      apply existsb_exists in E as (e & Hin & Hs).
      exists e. split; [by apply list_elem_of_In|].
      apply same_edge_spec in Hs. by destruct p.
  - split; [done|]. simpl.
    assert (∀ e, e ∈ edges g' → ¬ same_ends e.1 p) as Hnone.
    { intros e Hin Hs. 
      assert (existsb (same_edge p.1 p.2) (edges g') = true); [|congruence].
      apply existsb_exists. exists e. split; [by apply list_elem_of_In|].
      apply same_edge_spec. by destruct p. }
    split; [|split].
    + unfold edge_ends. simpl. rewrite fmap_app. simpl.
      apply distinct_ends_snoc; [done|].
      apply Forall_forall. intros q Hq.
      apply list_elem_of_fmap in Hq as (e & -> & Hin). by apply Hnone.
    + intros e [Hin|Hin]%elem_of_app.
      * destruct (He e Hin). split; [done|]. apply elem_of_app. by left.
      * apply list_elem_of_singleton in Hin as ->. simpl.
        split; [done|]. apply elem_of_app. right.
        apply list_elem_of_singleton. by destruct p.
    + intros q [Hq|Hq]%elem_of_app.
      * destruct (Hp q Hq) as (e & Hin & Hs). exists e.
        split; [|done]. apply elem_of_app. by left.
      * apply list_elem_of_singleton in Hq as ->.
        exists (p.1, p.2, no_edge_data). split.
        -- apply elem_of_app. right. by apply list_elem_of_singleton.
        -- simpl. left. by destruct p.
Qed.

Lemma add_edges_added ps done g' :
  added done g' →
  (∀ p, p ∈ ps →
     key p.1 ∈ key <$> node_ids g ∧ key p.2 ∈ key <$> node_ids g) →
  added (done ++ ps) (fold_left add_edge ps g').
Proof.
  revert done g'. induction ps as [|p ps IH]; intros done g' Ha Hps; simpl.
  - by rewrite app_nil_r.
  - replace (done ++ p :: ps) with ((done ++ [p]) ++ ps)
      by by rewrite <- app_assoc.
    apply IH.
    + destruct (Hps p); [left|]. by apply add_edge_added.
    + intros q Hq. apply Hps. by right.
Qed.

(** What [add_edges_from] makes of a graph without edges. *)
Lemma add_edges_from_spec (ebunch : list (node_id * node_id)) :
  edges g = [] →
  (∀ p, p ∈ ebunch →
     key p.1 ∈ key <$> node_ids g ∧ key p.2 ∈ key <$> node_ids g) →
  node (add_edges_from g ebunch) = node g ∧
  distinct_ends (edge_ends (add_edges_from g ebunch)) ∧
  (∀ e, e ∈ edges (add_edges_from g ebunch) →
     e.2 = no_edge_data ∧ e.1 ∈ ebunch) ∧
  (∀ p, p ∈ ebunch →
     ∃ e, e ∈ edges (add_edges_from g ebunch) ∧ same_ends e.1 p).
Proof.
  intros Hnil Hps. apply (add_edges_added ebunch [] g); [|done].
  split; [done|]. unfold edge_ends. rewrite Hnil.
  split; [done|]. split; intros ? Hin; by apply elem_of_nil in Hin.
Qed.
End add_edges.

(** [G[u][v][name] = value] changes the one edge between [u] and [v]. *)
Lemma set_edge_attr_spec upd (E : list edge) u v :
  distinct_ends E.*1 →
  (∃ e, e ∈ E ∧ same_ends e.1 (u, v)) →
  ∃ E1 e E2, E = E1 ++ e :: E2 ∧ same_ends e.1 (u, v) ∧
    (∀ e', e' ∈ E1 ++ E2 → ¬ same_ends e'.1 (u, v)) ∧
    set_edge_attr upd E u v = Ok (E1 ++ (e.1, upd e.2) :: E2).
Proof.
  induction E as [|e0 E IH]; intros Hd (e & Hin & Hs).
  - by apply elem_of_nil in Hin.
  - rewrite fmap_cons in Hd. destruct Hd as [Hd0 Hd]. cbn [set_edge_attr].
    destruct (same_edge u v e0) eqn:E0.
    + apply same_edge_spec in E0. exists [], e0, E.
      split; [done|]. split; [done|]. split; [|done].
      intros e' Hin' Hs'. simpl in Hin'.
      rewrite Forall_forall in Hd0. apply (Hd0 e'.1).
      * by apply list_elem_of_fmap_2.
      * eapply same_ends_trans; [done|]. by apply same_ends_sym.
    + assert (¬ same_ends e0.1 (u, v)) as Hne.
      { intros Hs0. apply same_edge_spec in Hs0. congruence. }
      apply elem_of_cons in Hin as [->|Hin]; [done|].
      destruct (IH Hd) as (E1 & e1 & E2 & -> & Hs1 & Hothers & ->); [eauto|].
      exists (e0 :: E1), e1, E2. split; [done|]. split; [done|].
      split; [|done].
      intros e' [->|Hin']%elem_of_cons; [done|]. by apply Hothers.
Qed.

Section set_attributes.
Context {A : Type} (upd : A → EdgeData → EdgeData).
Variable Val : A → Prop.
Variable Keep : EdgeData → EdgeData → Prop.
Variable Sset : EdgeData → Prop.
Hypothesis Keep_refl : ∀ d, Keep d d.
Hypothesis Keep_trans : ∀ a b c, Keep a b → Keep b c → Keep a c.
Hypothesis Keep_upd : ∀ a d, Keep d (upd a d).
Hypothesis Sset_upd : ∀ a d, Val a → Sset (upd a d).

Lemma fold_set_edge_attr attrs (E : list edge) :
  distinct_ends E.*1 →
  Forall Val attrs.*2 →
  (∀ kv, kv ∈ attrs → ∃ e, e ∈ E ∧ same_ends e.1 kv.1) →
  ∃ E', fold_left (λ acc kv, es ← acc ;
                     set_edge_attr (upd kv.2) es kv.1.1 kv.1.2)
          attrs (Ok E) = Ok E' ∧
    Forall2 (assigned Keep Sset attrs) E E'.
Proof.
  revert E. induction attrs as [|[[u v] a] attrs IH]; intros E Hd Hval Hm.
  - exists E. split; [done|]. apply Forall_Forall2_diag, Forall_forall.
    intros e _. split; [done|]. split; [done|]. split; [done|].
    intros (kv & Hkv & _). by apply elem_of_nil in Hkv.
  - rewrite fmap_cons in Hval. apply Forall_cons in Hval as [Ha Hval].
    destruct (set_edge_attr_spec (upd a) E u v Hd)
      as (E1 & e & E2 & -> & Hs & Hothers & Hset).
    { destruct (Hm (u, v, a)) as (e & ? & ?); [left|]. eauto. }
    cbn [fold_left]. cbn [mbind result_bind fst snd]. rewrite Hset.
    set (E_1 := E1 ++ (e.1, upd a e.2) :: E2).
    assert (E_1.*1 = (E1 ++ e :: E2).*1) as Hends.
    { unfold E_1. by rewrite !fmap_app, !fmap_cons. }
    destruct (IH E_1) as (E' & Hfold & HF); [by rewrite Hends|done|..].
    { intros kv Hkv. destruct (Hm kv) as (e' & Hin & Hs'); [by right|].
      apply elem_of_app in Hin as [Hin|Hin].
      - exists e'. split; [|done]. apply elem_of_app. by left.
      - apply elem_of_cons in Hin as [->|Hin].
        + exists (e.1, upd a e.2). split; [|done].
          apply elem_of_app. right. left.
        + exists e'. split; [|done]. apply elem_of_app. right. by right. }
    exists E'. split; [done|].
    assert (Forall2 (λ x y : edge,
              (y = x ∧ ¬ same_ends x.1 (u, v)) ∨
              (y = (x.1, upd a x.2) ∧ same_ends x.1 (u, v)))
              (E1 ++ e :: E2) E_1) as Hstep.
    { unfold E_1. apply Forall2_app; [|constructor].
      - apply Forall_Forall2_diag, Forall_forall. intros x Hx. left.
        split; [done|]. apply Hothers, elem_of_app. by left.
      - by right.
      - apply Forall_Forall2_diag, Forall_forall. intros x Hx. left.
        split; [done|]. apply Hothers, elem_of_app. by right. }
    eapply Forall2_trans; [|exact Hstep|exact HF].
    intros x y z Hxy (Hz1 & Hz2 & Hz3 & Hz4).
    destruct Hxy as [[-> Hno]|[-> Hyes]].
    + split; [done|]. split; [done|]. split; [done|].
      intros (kv & [->|Hkv]%elem_of_cons & Hs'); [done|]. apply Hz4. eauto.
    + simpl in *. split; [done|].
      split; [apply (Keep_trans _ (upd a x.2)); [apply Keep_upd|done]|].
      split; intros _; by apply Hz3, Sset_upd.
Qed.

Lemma set_edge_attributes_spec (g : Graph) attrs :
  distinct_ends (edge_ends g) →
  Forall Val attrs.*2 →
  (∀ kv, kv ∈ attrs → ∃ e, e ∈ edges g ∧ same_ends e.1 kv.1) →
  ∃ g', set_edge_attributes g upd attrs = Ok g' ∧
    node g' = node g ∧
    Forall2 (assigned Keep Sset attrs) (edges g) (edges g').
Proof.
  intros Hd Hval Hm. unfold set_edge_attributes.
  destruct (fold_set_edge_attr attrs (edges g) Hd Hval Hm)
    as (E' & -> & HF).
  simpl. by eexists.
Qed.
End set_attributes.

Section assoc_entries.
Context {K V T : Type} `{EqDecision T}.
Context (eqb : K → K → bool) (key : K → T).
Hypothesis eqb_key : ∀ a b, eqb a b = true ↔ key a = key b.

Lemma assoc_set_entry (d : list (K * V)) k v k0 x :
  (k0, x) ∈ assoc_set eqb d k v →
  (key k0 = key k ∧ x = v) ∨ (k0, x) ∈ d.
Proof.
  induction d as [|[k' v'] d IH]; simpl.
  - intros Hin. apply list_elem_of_singleton in Hin. inversion Hin. by left.
  - destruct (eqb k' k) eqn:E; rewrite !elem_of_cons.
    + apply eqb_key in E. intros [Heq|Hin]; [|by right; right].
      inversion Heq; subst. by left.
    + intros [Heq|Hin]; [by right; left|].
      destruct (IH Hin); [by left|by right; right].
Qed.

Lemma assoc_fold_entry (items acc : list (K * V)) k0 x :
  (k0, x) ∈ fold_left (λ d kv, assoc_set eqb d kv.1 kv.2) items acc →
  ∃ k1, key k1 = key k0 ∧ (k1, x) ∈ acc ++ items.
Proof.
  revert acc. induction items as [|[k v] items IH]; intros acc; simpl.
  - rewrite app_nil_r. eauto.
  - intros Hin. apply IH in Hin as (k1 & Hk & Hin).
    apply elem_of_app in Hin as [Hin|Hin].
    + apply assoc_set_entry in Hin as [[Hk' ->]|Hin].
      * exists k. split; [congruence|]. apply elem_of_app. right. left.
      * exists k1. split; [done|]. apply elem_of_app. by left.
    + exists k1. split; [done|]. apply elem_of_app. right. by right.
Qed.

Lemma assoc_get_is_Ok (d : list (K * V)) k :
  key k ∈ key <$> d.*1 → ∃ v, assoc_get eqb d k = Ok v.
Proof.
  intros Hin. destruct (assoc_get eqb d k) as [v|e] eqn:E; [eauto|].
  by apply (assoc_get_Err eqb key eqb_key) in E as [_ ?].
Qed.
End assoc_entries.

Lemma Forall2_elem_r {A B} (R : A → B → Prop) l k y :
  Forall2 R l k → y ∈ k → ∃ x, x ∈ l ∧ R x y.
Proof.
  intros HF Hy. apply list_elem_of_lookup in Hy as [i Hi].
  destruct (Forall2_lookup_r _ _ _ _ _ HF Hi) as (x & Hx & HR).
  exists x. split; [|done]. by eapply list_elem_of_lookup_2.
Qed.

Lemma Forall2_elem_l {A B} (R : A → B → Prop) l k x :
  Forall2 R l k → x ∈ l → ∃ y, y ∈ k ∧ R x y.
Proof.
  intros HF Hx. apply list_elem_of_lookup in Hx as [i Hi].
  destruct (Forall2_lookup_l _ _ _ _ _ HF Hi) as (y & Hy & HR).
  exists y. split; [|done]. by eapply list_elem_of_lookup_2.
Qed.

Lemma set_budget_after pre k d tail b :
  (∀ p, p ∈ pre.*1 → key p ≠ key k) →
  set_budget (pre ++ (k, d) :: tail) k b =
    Ok (pre ++ (k, mkNodeData (Some b)) :: tail).
Proof.
  induction pre as [|[m dm] pre IH]; intros Hpre; simpl.
  - assert (py_eqb k k = true) as -> by by apply py_eqb_key. done.
  - destruct (py_eqb m k) eqn:E.
    + apply py_eqb_key in E. destruct (Hpre m); [left|done].
    + rewrite IH; [done|]. intros p Hp. apply Hpre. by right.
Qed.

(** Every node in turn gets its budget. *)
Lemma set_budgets_all (kf : nat → node_id) (ms : list pyvalue) pre :
  (∀ i j, key (kf i) = key (kf j) → i = j) →
  (∀ p i, p ∈ pre.*1 → key p ≠ key (kf i)) →
  fold_left (λ acc kv, ns ← acc ; set_budget ns kv.1 kv.2)
    (imap (λ i m, (kf i, m)) ms)
    (Ok (pre ++ imap (λ i _, (kf i, mkNodeData None)) ms)) =
  Ok (pre ++ imap (λ i m, (kf i, mkNodeData (Some m))) ms).
Proof.
  revert kf pre. induction ms as [|m ms IH]; intros kf pre Hinj Hpre.
  - done.
  - rewrite !imap_cons. cbn [fold_left mbind result_bind fst snd].
    rewrite set_budget_after by (intros p Hp; by apply Hpre).
    specialize (IH (kf ∘ S) (pre ++ [(kf 0%nat, mkNodeData (Some m))])).
    rewrite <- !app_assoc in IH. simpl in IH. apply IH.
    + intros i j Hij. apply Hinj in Hij. lia.
    + intros p i. rewrite fmap_app, elem_of_app. intros [Hp|Hp].
      * by apply Hpre.
      * apply list_elem_of_singleton in Hp as ->.
        intros Hk. by apply Hinj in Hk.
Qed.

Lemma map_fmap {A B} (f : A → B) (l : list A) : map f l = f <$> l.
Proof. induction l as [|x l IH]; [done|]. simpl. by rewrite IH. Qed.

Section store_graph.
Variable default_srs : proj4.
Variable ds : dataset_store.Store.

Let all := store_nodes ds.
Let N (i : nat) : node_id := Num (Int (Z.of_nat i)).
Let np : dict node_id :=
  dict_of_items (imap (λ i n, (dataset_store.id n, N i)) all).
Let segs := dataset_store.cycleSegments ds false.

Lemma np_is_Ok k :
  key k ∈ key <$> (dataset_store.id <$> all) → ∃ v, dict_get np k = Ok v.
Proof.
  intros Hk. apply (assoc_get_is_Ok py_eqb key py_eqb_key).
  apply (assoc_fold_keys py_eqb key py_eqb_key). simpl.
  rewrite fmap_imap. by rewrite (imap_const dataset_store.id).
Qed.

Lemma np_value k v :
  dict_get np k = Ok v →
  ∃ i n, v = N i ∧ all !! i = Some n ∧ key (dataset_store.id n) = key k.
Proof.
  intros Hget.
  apply (assoc_get_Ok py_eqb key py_eqb_key) in Hget as (k' & Hin & Hk').
  apply (assoc_fold_entry py_eqb key py_eqb_key) in Hin as (k1 & Hk1 & Hin).
  simpl in Hin. apply elem_of_lookup_imap in Hin as (i & n & Heq & Hi).
  inversion Heq; subst. exists i, n. split; [done|]. split; [done|].
  congruence.
Qed.

Lemma seg_ids_value s p :
  seg_to_nx_ids np s = Ok p →
  ∃ i j ni nj, p = (N i, N j) ∧
    all !! i = Some ni ∧
    key (dataset_store.id ni) = key (dataset_store.node1_id s) ∧
    all !! j = Some nj ∧
    key (dataset_store.id nj) = key (dataset_store.node2_id s).
Proof.
  unfold seg_to_nx_ids.
  destruct (dict_get np (dataset_store.node1_id s)) as [a|] eqn:Ha; [|done].
  destruct (dict_get np (dataset_store.node2_id s)) as [b|] eqn:Hb; [|done].
  simpl. intros [= <-].
  apply np_value in Ha as (i & ni & -> & Hi & Hki).
  apply np_value in Hb as (j & nj & -> & Hj & Hkj).
  by exists i, j, ni, nj.
Qed.

Lemma store_graph_nodes :
  set_node_attributes_budget
    (graph (new_GeoGraph default_srs
              (dict_of_items
                 (enumerate (map dataset_store.getCommonCoordinates all)))
              None))
    (dict_of_items (enumerate (map dataset_store.metric all))) =
  Ok (mkGraph
        (imap (λ i n, (N i, mkNodeData (Some (dataset_store.metric n)))) all)
        []).
Proof.
  rewrite !dict_of_enumerate, !map_fmap.
  unfold set_node_attributes_budget, new_GeoGraph. simpl.
  rewrite fold_add_node by (simpl; apply enumerate_NoDup).
  simpl. unfold enumerate.
  rewrite !fmap_imap, !imap_fmap.
  pose proof (set_budgets_all N (dataset_store.metric <$> all) []) as H.
  simpl in H. rewrite !imap_fmap in H.
  unfold compose, N in *. simpl. rewrite H.
  - done.
  - intros i j Hij. inversion Hij. lia.
  - intros p i Hp. by apply elem_of_nil in Hp.
Qed.

Hypothesis integrity : ∀ s, s ∈ segs →
  key (dataset_store.node1_id s) ∈ key <$> (dataset_store.id <$> all) ∧
  key (dataset_store.node2_id s) ∈ key <$> (dataset_store.id <$> all).

Lemma seg_ids_total : ∃ es, rmap (seg_to_nx_ids np) segs = Ok es.
Proof.
  apply rmap_total. intros s Hs. destruct (integrity s Hs) as [H1 H2].
  destruct (np_is_Ok _ H1) as [a Ha], (np_is_Ok _ H2) as [b Hb].
  exists (a, b). unfold seg_to_nx_ids. by rewrite Ha, Hb.
Qed.

(** An item of the dict of an attribute lies on an edge of the graph,
    and every edge has an item. *)
Lemma edge_dict_spec {A} (f : Segment → A) es :
  rmap (seg_to_nx_ids np) segs = Ok es →
  ∃ attrs, edge_dict np f segs = Ok attrs ∧
    (∀ x, x ∈ attrs.*2 → ∃ s, s ∈ segs ∧ x = f s) ∧
    (∀ kv, kv ∈ attrs → ∃ p, p ∈ es ∧ same_ends p kv.1) ∧
    (∀ p, p ∈ es → ∃ kv, kv ∈ attrs ∧ same_ends p kv.1).
Proof.
  intros Hes. destruct (rmap_tagged _ f _ _ Hes) as (items & Hit & H1 & H2).
  unfold edge_dict. rewrite Hit. simpl. eexists. split; [done|].
  unfold assoc_of_items. split; [|split].
  - intros x Hx. apply assoc_fold_values in Hx. simpl in Hx.
    rewrite H2 in Hx. apply list_elem_of_fmap in Hx as (s & -> & Hs). eauto.
  - intros [k v] Hkv.
    assert (prod_map key key k ∈ prod_map key key <$> items.*1) as Hk.
    { apply (assoc_fold_keys pair_eqb (prod_map key key) pair_eqb_key
               items []).
      apply list_elem_of_fmap. exists k. split; [done|].
      apply list_elem_of_fmap. by exists (k, v). }
    rewrite H1 in Hk. apply list_elem_of_fmap in Hk as (p & Hp & Hin).
    exists p. split; [done|]. by apply same_ends_key.
  - intros p Hp.
    assert (prod_map key key p ∈
      prod_map key key <$>
        (fold_left (λ d kv, assoc_set pair_eqb d kv.1 kv.2) items []).*1)
      as Hk.
    { apply (assoc_fold_keys pair_eqb (prod_map key key) pair_eqb_key).
      simpl. rewrite H1. by apply list_elem_of_fmap_2. }
    apply list_elem_of_fmap in Hk as (k & Hk & Hin).
    apply list_elem_of_fmap in Hin as ([k' v] & -> & Hin).
    exists (k', v). split; [done|]. by apply same_ends_key.
Qed.

Lemma store_graph_spec :
  ∃ G, dataset_store_to_geograph default_srs ds = Ok G ∧
    node (graph G) =
      imap (λ i n, (N i, mkNodeData (Some (dataset_store.metric n)))) all ∧
    coords G =
      enumerate (map dataset_store.getCommonCoordinates all) ∧
    ∀ e, e ∈ edges (graph G) →
      edge_is_existing e.2 = Some false ∧
      ∃ s i j ni nj,
        s ∈ dataset_store.segments ds ∧
        dataset_store.is_existing s = false ∧
        e.1 = (N i, N j) ∧
        all !! i = Some ni ∧
        key (dataset_store.id ni) = key (dataset_store.node1_id s) ∧
        all !! j = Some nj ∧
        key (dataset_store.id nj) = key (dataset_store.node2_id s).
Proof.
  destruct seg_ids_total as [es Hes].
  pose proof (rmap_Ok _ _ _ Hes) as Hsegs.
  destruct (edge_dict_spec dataset_store.weight es Hes)
    as (aw & Haw & _ & Hw1 & _).
  destruct (edge_dict_spec dataset_store.is_existing es Hes)
    as (ax & Hax & Hxv & Hx1 & Hx2).
  destruct (edge_dict_spec dataset_store.subnet_id es Hes)
    as (an & Han & _ & Hn1 & _).
  set (g1 := mkGraph
    (imap (λ i n, (N i, mkNodeData (Some (dataset_store.metric n)))) all)
    []).
  destruct (add_edges_from_spec g1 es eq_refl) as (Hn2 & Hd2 & He2 & Hp2).
  { intros p Hp. destruct (Forall2_elem_r _ _ _ _ Hsegs Hp) as (s & Hs & Hp').
    apply seg_ids_value in Hp' as (i & j & ni & nj & -> & Hi & _ & Hj & _).
    assert (∀ i n, all !! i = Some n → key (N i) ∈ key <$> node_ids g1)
      as Hin.
    { intros i' n' Hi'. apply list_elem_of_fmap_2.
      unfold node_ids, g1. simpl. rewrite fmap_imap.
      apply (elem_of_lookup_imap_2
               (λ n, fst ∘ λ n0 : dataset_store.Node,
                  (N n, mkNodeData (Some (dataset_store.metric n0))))
               all n' i' Hi'). }
    split; eauto. }
  set (g2 := add_edges_from g1 es) in *.
  assert (∀ (attrs : list (node_id * node_id * pyvalue)) g,
    edge_ends g = edge_ends g2 → True) as _ by done.
  assert (∀ {A} (attrs : list (node_id * node_id * A)) g,
    edge_ends g = edge_ends g2 →
    (∀ kv, kv ∈ attrs → ∃ p, p ∈ es ∧ same_ends p kv.1) →
    ∀ kv, kv ∈ attrs → ∃ e, e ∈ edges g ∧ same_ends e.1 kv.1) as Hmatch.
  { intros A attrs g Hends Hattrs kv Hkv.
    destruct (Hattrs kv Hkv) as (p & Hp & Hs).
    destruct (Hp2 p Hp) as (e & He & Hs').
    assert (e.1 ∈ edge_ends g) as Hin.
    { rewrite Hends. by apply list_elem_of_fmap_2. }
    apply list_elem_of_fmap in Hin as (e' & Heq & Hin).
    exists e'. split; [done|]. rewrite <- Heq.
    by eapply same_ends_trans. }
  assert (∀ {A} Keep Sset (attrs : list (node_id * node_id * A)) E E',
    Forall2 (assigned Keep Sset attrs) E E' → E'.*1 = E.*1) as Hends.
  { intros A Keep Sset attrs E E' HF.
    induction HF as [|x y l k (Hxy & _) _ IH]; [done|].
    by rewrite !fmap_cons, IH, Hxy. }
  destruct (set_edge_attributes_spec set_weight (λ _, True) (λ _ _, True)
              (λ _, True) (λ _, I) (λ _ _ _ _ _, I) (λ _ _, I)
              (λ _ _ _, I) g2 aw Hd2)
    as (g3 & Hg3 & Hn3 & HF3).
  { by apply Forall_true. }
  { by apply Hmatch. }
  pose proof (Hends _ _ _ _ _ _ HF3) as Hends3.
  destruct (set_edge_attributes_spec set_is_existing (λ b, b = false)
              (λ _ _, True) (λ d, edge_is_existing d = Some false)
              (λ _, I) (λ _ _ _ _ _, I) (λ _ _, I)
              (λ a d (Ha : a = false), f_equal Some Ha) g3 ax)
    as (g4 & Hg4 & Hn4 & HF4).
  { unfold edge_ends. by rewrite Hends3. }
  { apply Forall_forall. intros x Hx. destruct (Hxv x Hx) as (s & Hs & ->).
    unfold segs, dataset_store.cycleSegments in Hs.
    by apply list_elem_of_filter in Hs as [? _]. }
  { by apply Hmatch. }
  pose proof (Hends _ _ _ _ _ _ HF4) as Hends4.
  destruct (set_edge_attributes_spec set_subnet_id (λ _, True)
              (λ d d', edge_is_existing d' = edge_is_existing d)
              (λ _, True) (λ _, eq_refl)
              (λ a b c Hab Hbc, eq_trans Hbc Hab) (λ _ _, eq_refl)
              (λ _ _ _, I) g4 an)
    as (g5 & Hg5 & Hn5 & HF5).
  { unfold edge_ends. by rewrite Hends4, Hends3. }
  { by apply Forall_true. }
  { apply Hmatch; [|done]. unfold edge_ends. by rewrite Hends4, Hends3. }
  pose proof (Hends _ _ _ _ _ _ HF5) as Hends5.
  eexists. split.
  { unfold dataset_store_to_geograph.
    change (dataset_store.cycleNodes ds false ++
            dataset_store.cycleNodes ds true) with all.
    cbv zeta. rewrite store_graph_nodes.
    fold g1. cbn [mbind result_bind].
    change (dict_of_items (imap _ all)) with np.
    change (dataset_store.cycleSegments ds false) with segs.
    rewrite Hes. cbn [mbind result_bind].
    rewrite Haw. cbn [mbind result_bind].
    rewrite Hax. cbn [mbind result_bind].
    rewrite Han. cbn [mbind result_bind].
    fold g2. rewrite Hg3. cbn [mbind result_bind].
    rewrite Hg4. cbn [mbind result_bind].
    rewrite Hg5. cbn [mbind result_bind]. reflexivity. }
  cbn [graph coords]. split; [by rewrite Hn5, Hn4, Hn3, Hn2|].
  split; [by rewrite dict_of_enumerate|].
  intros e5 He5.
  destruct (Forall2_elem_r _ _ _ _ HF5 He5) as (e4 & He4 & H45 & Hk45 & _).
  destruct (Forall2_elem_r _ _ _ _ HF4 He4) as (e3 & He3 & H34 & _ & _ & Hs34).
  destruct (Forall2_elem_r _ _ _ _ HF3 He3) as (e2 & He2' & H23 & _).
  destruct (He2 e2 He2') as [_ Hin2].
  assert (e5.1 = e2.1) as Heq by congruence.
  split.
  - rewrite Hk45. apply Hs34. rewrite H23.
    destruct (Hx2 _ Hin2) as (kv & Hkv & Hs). eauto.
  - destruct (Forall2_elem_r _ _ _ _ Hsegs Hin2) as (s & Hs & Hp).
    apply seg_ids_value in Hp as (i & j & ni & nj & Hp & Hi & Hki & Hj & Hkj).
    exists s, i, j, ni, nj.
    unfold segs, dataset_store.cycleSegments in Hs.
    apply list_elem_of_filter in Hs as [Hex Hs].
    rewrite Heq. done.
Qed.
End store_graph.

Lemma stored_network_refs :
  ∀ s, s ∈ dataset_store.cycleSegments stored_network false →
    key (dataset_store.node1_id s) ∈
      key <$> (dataset_store.id <$> store_nodes stored_network) ∧
    key (dataset_store.node2_id s) ∈
      key <$> (dataset_store.id <$> store_nodes stored_network).
Proof.
  intros s Hs.
  change (dataset_store.cycleSegments stored_network false) with
    [dataset_store.mkSegment (Num (Int 1)) (Num (Int 3)) 1 false (Finite 5);
     dataset_store.mkSegment (Num (Int 3)) (Num (Int 2)) 1 false (Finite 6)]
    in Hs.
  apply elem_of_cons in Hs as [->|Hs];
    [|apply list_elem_of_singleton in Hs as ->];
    split; apply (bool_decide_unpack _); vm_compute; exact I.
Defined.

(** ** The realignment *)

Lemma wrap64_small z : - 2 ^ 63 ≤ z < 2 ^ 63 → wrap64 z = z.
Proof. intros Hz. unfold wrap64. rewrite Z.mod_small; lia. Qed.

Lemma py_add1_demand i :
  demand_id i →
  ∃ n, py_add1 i = Ok n ∧ int_value n = id_value i + 1.
Proof.
  destruct i as [[z|z]|s]; simpl; intros Hi; [by eexists| |done].
  eexists. split; [done|]. simpl. apply wrap64_small. lia.
Qed.

Lemma rmap_map {A B} (f : A → result B) (g : A → B) (l : list A) :
  (∀ x, x ∈ l → f x = Ok (g x)) → rmap f l = Ok (g <$> l).
Proof.
  induction l as [|a l IH]; intros Hf; [done|].
  simpl. rewrite Hf by left. simpl. rewrite IH; [done|].
  intros x Hx. apply Hf. by right.
Qed.

Lemma rmap_Forall2 {A B} (f : A → result B) (R : A → B → Prop)
  (l : list A) :
  (∀ x, x ∈ l → ∃ y, f x = Ok y ∧ R x y) →
  ∃ ys, rmap f l = Ok ys ∧ Forall2 R l ys.
Proof.
  induction l as [|a l IH]; intros Hf.
  - exists []. split; [done|constructor].
  - destruct (Hf a) as (b & Hb & HR); [left|].
    destruct IH as (bs & Hbs & HF); [intros x Hx; apply Hf; by right|].
    exists (b :: bs). simpl. rewrite Hb. simpl. rewrite Hbs. simpl.
    split; [done|by constructor].
Qed.

Lemma assoc_get_elem_key {K V T} (eqb : K → K → bool) (key : K → T)
  (eqb_key : ∀ a b, eqb a b = true ↔ key a = key b)
  (d : list (K * V)) k k' v :
  NoDup (key <$> d.*1) → (k', v) ∈ d → key k' = key k →
  assoc_get eqb d k = Ok v.
Proof.
  induction d as [|[k0 v0] d IH]; simpl; intros Hnd Hin Hk.
  - by apply elem_of_nil in Hin.
  - apply NoDup_cons in Hnd as [Hk0 Hnd].
    apply elem_of_cons in Hin as [Heq|Hin].
    + inversion Heq; subst.
      assert (eqb k0 k = true) as -> by by apply eqb_key. done.
    + destruct (eqb k0 k) eqn:E; [|by apply IH].
      apply eqb_key in E. exfalso. apply Hk0. rewrite E, <- Hk.
      apply list_elem_of_fmap. exists k'. split; [done|].
      apply list_elem_of_fmap. by exists (k', v).
Qed.

Lemma fold_add_node_present ks ns :
  (∀ k, k ∈ ks → key k ∈ key <$> ns.*1) → fold_left add_node ks ns = ns.
Proof.
  induction ks as [|k ks IH]; intros Hks; [done|].
  simpl. rewrite add_node_present by (apply Hks; left).
  apply IH. intros k' Hk'. apply Hks. by right.
Qed.

Lemma store_id_key_inj i j :
  key (store_id i) = key (store_id j) → id_value i = id_value j.
Proof. unfold store_id. simpl. intros [= H]. lia. Qed.

Lemma demand_id_key i j :
  demand_id i → demand_id j → id_value i = id_value j → key i = key j.
Proof.
  destruct i as [m|s], j as [n|t]; simpl; try done.
  all: try by destruct m.
  by intros _ _ ->.
Qed.

Lemma Forall2_fmap_eq {A B C} (f : B → C) (g : A → C) (R : A → B → Prop)
  (l : list A) (k : list B) :
  Forall2 (λ x y, f y = g x ∧ R x y) l k → f <$> k = g <$> l.
Proof.
  induction 1 as [|x y l k [Hxy _] _ IH]; [done|].
  by rewrite !fmap_cons, IH, Hxy.
Qed.

Lemma NoDup_fmap_inj_on {A B} (f : A → B) (l : list A) x y :
  NoDup (f <$> l) → x ∈ l → y ∈ l → f x = f y → x = y.
Proof.
  induction l as [|a l IH]; intros Hnd Hx Hy Hxy.
  - by apply elem_of_nil in Hx.
  - rewrite fmap_cons in Hnd. apply NoDup_cons in Hnd as [Ha Hnd].
    apply elem_of_cons in Hx as [->|Hx], Hy as [->|Hy]; [done|..].
    + destruct Ha. rewrite Hxy. by apply list_elem_of_fmap_2.
    + destruct Ha. rewrite <- Hxy. by apply list_elem_of_fmap_2.
    + by apply IH.
Qed.

Section realign_facts.
Variable result_geo_graph : GeoGraph.
Variable fg : Graph.
Hypothesis ids_demand : ∀ i, i ∈ node_ids fg → demand_id i.
Hypothesis ids_NoDup : NoDup (key <$> node_ids fg).
Hypothesis ids_coords :
  ∀ i, i ∈ node_ids fg → ∃ c, dict_get (coords result_geo_graph) i = Ok c.
Hypothesis ends_nodes :
  ∀ u v d, (u, v, d) ∈ edges fg → u ∈ node_ids fg ∧ v ∈ node_ids fg.

Lemma realign_pairs :
  rmap (λ i, k ← py_add1 i ; Ok (i, Num (py_int k))) (node_ids fg) =
  Ok ((λ i, (i, store_id i)) <$> node_ids fg).
Proof.
  apply rmap_map. intros i Hi.
  destruct (py_add1_demand i (ids_demand i Hi)) as (n & -> & Hn).
  simpl. unfold store_id, py_int. by rewrite Hn.
Qed.

Lemma realign_mapping n :
  n ∈ node_ids fg →
  mapping_get (dict_of_items ((λ i, (i, store_id i)) <$> node_ids fg)) n =
  store_id n.
Proof.
  intros Hn. unfold mapping_get, dict_of_items, dict_get.
  assert (((λ i, (i, store_id i)) <$> node_ids fg).*1 = node_ids fg) as Hk.
  { clear. induction (node_ids fg) as [|x l IH]; [done|].
    rewrite !fmap_cons. simpl. by f_equal. }
  rewrite (assoc_of_items_nodup py_eqb key py_eqb_key) by by rewrite Hk.
  rewrite (assoc_get_elem py_eqb key py_eqb_key _ n (store_id n));
    [done|by rewrite Hk|].
  apply list_elem_of_fmap. by exists n.
Qed.

Lemma realign_items :
  ∃ items,
    rmap (λ i, c ← dict_get (coords result_geo_graph) i ;
               k ← py_add1 i ; Ok (Num k, c)) (node_ids fg) = Ok items ∧
    Forall2 (λ i it, key it.1 = key (store_id i) ∧
                     dict_get (coords result_geo_graph) i = Ok it.2)
      (node_ids fg) items.
Proof.
  apply rmap_Forall2. intros i Hi. destruct (ids_coords i Hi) as [c Hc].
  destruct (py_add1_demand i (ids_demand i Hi)) as (n & Hn & Hv).
  exists (Num n, c). rewrite Hc, Hn. simpl. split; [done|].
  split; [|done]. by rewrite Hv.
Qed.

Lemma realign_spec :
  ∃ msf, realign result_geo_graph (Some fg) = Ok msf ∧
    srs msf = srs result_geo_graph ∧
    node (graph msf) = map (λ n, (store_id n.1, n.2)) (node fg) ∧
    edges (graph msf) =
      map (λ e, (store_id e.1.1, store_id e.1.2, e.2)) (edges fg) ∧
    ∀ i c, i ∈ node_ids fg →
      dict_get (coords result_geo_graph) i = Ok c →
      dict_get (coords msf) (store_id i) = Ok c.
Proof.
  destruct realign_items as (items & Hitems & HF).
  unfold realign. rewrite Hitems, realign_pairs. cbn [mbind result_bind].
  eexists. split; [done|]. cbn [srs graph coords new_GeoGraph node edges].
  set (mapping := dict_of_items ((λ i, (i, store_id i)) <$> node_ids fg)).
  assert (map (λ n : node_id * NodeData, (mapping_get mapping n.1, n.2))
            (node fg) = map (λ n, (store_id n.1, n.2)) (node fg)) as Hnodes.
  { apply map_ext_in. intros [n d] Hin. simpl. f_equal.
    apply realign_mapping. unfold node_ids.
    apply list_elem_of_fmap. exists (n, d).
    split; [done|by apply list_elem_of_In]. }
  assert (key <$> items.*1 = key <$> (store_id <$> node_ids fg)) as Hkeys.
  { rewrite <- !list_fmap_compose.
    apply (Forall2_fmap_eq _ _ _ _ _ HF). }
  assert (NoDup (key <$> items.*1)) as Hnd.
  { rewrite Hkeys, <- list_fmap_compose.
    apply NoDup_fmap_2_strong; [|by eapply NoDup_fmap_1].
    intros i j Hi Hj Hij. apply store_id_key_inj in Hij.
    apply (NoDup_fmap_inj_on key (node_ids fg)); [done..|].
    by apply demand_id_key; auto. }
  split; [done|]. split; [|split].
  - simpl. rewrite Hnodes. apply fold_add_node_present.
    intros k Hk.
    assert (key k ∈ key <$> (dict_of_items items).*1) as Hk'.
    { by apply list_elem_of_fmap_2. }
    apply (assoc_fold_keys py_eqb key py_eqb_key) in Hk'. simpl in Hk'.
    rewrite Hkeys in Hk'. rewrite map_fst_renamed. exact Hk'.
  - simpl. apply map_ext_in. intros [[u v] d] Hin.
    apply list_elem_of_In in Hin. destruct (ends_nodes u v d Hin).
    simpl. by rewrite !realign_mapping.
  - intros i c Hi Hc. unfold dict_of_items.
    rewrite (assoc_of_items_nodup py_eqb key py_eqb_key) by done.
    apply list_elem_of_lookup in Hi as [j Hj].
    destruct (Forall2_lookup_l _ _ _ _ _ HF Hj) as ([k c'] & Hit & Hk & Hc').
    simpl in *. 
    apply (assoc_get_elem_key py_eqb key py_eqb_key _ _ k); [done| |done].
    replace c with c' by congruence. by eapply list_elem_of_lookup_2.
Qed.
End realign_facts.

(** The realignment gives every node of the demand graph the id of the
    store, one more than its own, as a Python int, and different nodes get
    different ids. *)
Lemma realign_bijection (result_geo_graph : GeoGraph) (fg : Graph) :
  (∀ i, i ∈ node_ids fg → demand_id i) →
  NoDup (key <$> node_ids fg) →
  (∀ i, i ∈ node_ids fg →
     ∃ c, dict_get (coords result_geo_graph) i = Ok c) →
  (∀ u v d, (u, v, d) ∈ edges fg → u ∈ node_ids fg ∧ v ∈ node_ids fg) →
  ∃ msf, realign result_geo_graph (Some fg) = Ok msf ∧
    node_ids (graph msf) = store_id <$> node_ids fg ∧
    NoDup (node_ids (graph msf)) ∧
    Forall (λ m, is_native m = true) (node_ids (graph msf)) ∧
    ∀ i c, i ∈ node_ids fg →
      dict_get (coords result_geo_graph) i = Ok c →
      dict_get (coords msf) (store_id i) = Ok c.
Proof.
  intros Hd Hnd Hc He.
  destruct (realign_spec result_geo_graph fg Hd Hnd Hc He)
    as (msf & Hmsf & _ & Hnodes & _ & Hcoords).
  exists msf. split; [done|].
  assert (node_ids (graph msf) = store_id <$> node_ids fg) as Hids.
  { unfold node_ids. rewrite Hnodes. apply map_fst_renamed. }
  split; [done|]. rewrite Hids. split; [|split; [|done]].
  - apply NoDup_fmap_2_strong; [|by eapply NoDup_fmap_1].
    intros i j Hi Hj Hij. apply (f_equal key) in Hij.
    apply store_id_key_inj in Hij.
    apply (NoDup_fmap_inj_on key (node_ids fg)); [done..|].
    by apply demand_id_key; auto.
  - apply Forall_fmap, Forall_true. done.
Qed.

(** A node goes from the store through the demand graph and the
    realignment back to its id in the store, with its coordinate, when the
    ids of the store count from 1 in the order of [cycleNodes]. *)
Lemma realign_round_trip (store : dataset_store.Store)
  (input_proj : option proj4) (demand_nodes : GeoGraph) (fg : Graph) :
  _get_demand_nodes store input_proj = Ok demand_nodes →
  (∀ j nd, dataset_store.cycleNodes store false !! j = Some nd →
     dataset_store.id nd = Num (Int (Z.of_nat j + 1))) →
  (∀ i, i ∈ node_ids fg → i ∈ node_ids (graph demand_nodes)) →
  NoDup (key <$> node_ids fg) →
  (∀ u v d, (u, v, d) ∈ edges fg → u ∈ node_ids fg ∧ v ∈ node_ids fg) →
  ∃ msf, realign demand_nodes (Some fg) = Ok msf ∧
    ∀ j nd, dataset_store.cycleNodes store false !! j = Some nd →
      Num (Int (Z.of_nat j)) ∈ node_ids fg →
      dataset_store.id nd ∈ node_ids (graph msf) ∧
      dict_get (coords msf) (dataset_store.id nd) =
        Ok (dataset_store.getCommonCoordinates nd).
Proof.
  intros Hdemand Hstore Hsub Hnd Hends.
  apply demand_nodes_spec in Hdemand as (Hids & _ & Hcoords).
  assert (∀ i, i ∈ node_ids fg → ∃ j nd,
    i = Num (Int (Z.of_nat j)) ∧
    dataset_store.cycleNodes store false !! j = Some nd ∧
    dict_get (coords demand_nodes) i =
      Ok (dataset_store.getCommonCoordinates nd)) as Hfg.
  { intros i Hi. apply Hsub in Hi. rewrite Hids in Hi.
    apply list_elem_of_fmap in Hi as (j & -> & Hj).
    apply elem_of_seq in Hj as [_ Hj]. simpl in Hj.
    destruct (lookup_lt_is_Some_2 (dataset_store.cycleNodes store false) j Hj)
      as [nd Hnd'].
    exists j, nd. split; [done|]. split; [done|].
    rewrite Hcoords. apply (assoc_get_elem py_eqb key py_eqb_key).
    - apply enumerate_NoDup.
    - unfold enumerate. rewrite map_fmap.
      apply (elem_of_lookup_imap_2
               (λ i a, (Num (Int (Z.of_nat i)), a)) _ _ j).
      by rewrite list_lookup_fmap, Hnd'. }
  destruct (realign_bijection demand_nodes fg)
    as (msf & Hmsf & Hmids & _ & _ & Hmc); try done.
  - intros i Hi. by destruct (Hfg i Hi) as (j & nd & -> & _).
  - intros i Hi. destruct (Hfg i Hi) as (j & nd & _ & _ & ?). eauto.
  - exists msf. split; [done|]. intros j nd Hj Hin.
    rewrite (Hstore j nd Hj).
    change (Num (Int (Z.of_nat j + 1))) with
      (store_id (Num (Int (Z.of_nat j)))).
    split.
    + rewrite Hmids. by apply list_elem_of_fmap_2.
    + apply Hmc; [done|]. destruct (Hfg _ Hin) as (j' & nd' & Heq & Hj' & Hc).
      inversion Heq. assert (j' = j) as -> by lia. congruence.
Qed.

(** C1 fails on the code.  When the filtering has left numpy integers as
    ids, the realignment succeeds and the nodes of the graph get the ids
    of the store as Python ints, but the keys of the coordinates are
    [i+1] without [int]: they are numpy integers. *)
Theorem realign_coords_keys_not_native :
  ∃ msf, realign result_of_algorithm (Some numpy_filtered) = Ok msf ∧
    node_ids (graph msf) = [Num (Int 1); Num (Int 2)] ∧
    (coords msf).*1 = [Num (Int64 1); Num (Int64 2)] ∧
    forallb is_native (node_ids (graph msf)) = true ∧
    forallb is_native (coords msf).*1 = false.
Proof. eexists. split; [vm_compute; reflexivity|]. repeat split. Qed.

(* ================================================================== *)
(** * Further properties of the runner *)

(** ** The demand graph, in full *)

Lemma records_graph (s : proj4) (l : list dataset_store.Node) :
  (g ← set_node_attributes_budget
         (graph (new_GeoGraph s
                   (dict_of_items
                      (enumerate (map dataset_store.getCommonCoordinates l)))
                   None))
         (dict_of_items (enumerate (map dataset_store.metric l))) ;
   Ok (mkGeoGraph g s
         (dict_of_items
            (enumerate (map dataset_store.getCommonCoordinates l))))) =
  Ok (graph_of_records s l).
Proof.
  rewrite !dict_of_enumerate.
  unfold set_node_attributes_budget, new_GeoGraph. simpl.
  rewrite fold_add_node by (simpl; apply enumerate_NoDup).
  simpl. unfold graph_of_records, enumerate.
  rewrite !map_fmap, !fmap_imap, !imap_fmap.
  pose proof (set_budgets_all (λ i, Num (Int (Z.of_nat i)))
                (dataset_store.metric <$> l) []) as H.
  simpl in H. rewrite !imap_fmap in H.
  unfold compose in *. simpl. rewrite H.
  - done.
  - intros i j Hij. inversion Hij. lia.
  - intros p i Hp. by apply elem_of_nil in Hp.
Qed.

(** X1.  The demand graph has a node for every record of the store that
    is not fake, numbered from 0 in the order of [cycleNodes], with the
    metric of the record for budget and its coordinate under the same
    number, and no edge.  With a projection given the builder cannot fail
    and keeps that projection; with none, it fails only where the guess of
    the projection does and takes the guessed one. *)
Theorem demand_nodes_graph (store : dataset_store.Store) :
  (∀ p, p ≠ PROJ4_OTHER EmptyString →
     _get_demand_nodes store (Some p) =
       Ok (graph_of_records p (dataset_store.cycleNodes store false))) ∧
  _get_demand_nodes store None =
    (p ← _get_default_proj4
           (map dataset_store.getCommonCoordinates
              (dataset_store.cycleNodes store false)) ;
     Ok (graph_of_records p (dataset_store.cycleNodes store false))).
Proof.
  split.
  - intros p _. unfold _get_demand_nodes. cbn [mbind result_bind].
    apply records_graph.
  - unfold _get_demand_nodes.
    destruct (_get_default_proj4 _) as [p|x]; [|done].
    cbn [mbind result_bind]. apply records_graph.
Qed.

Lemma demand_nodes_graph_witness :
  PROJ4_LATLONG ≠ PROJ4_OTHER EmptyString ∧
  _get_demand_nodes small_store (Some PROJ4_LATLONG) =
    Ok (graph_of_records PROJ4_LATLONG (dataset_store.nodes small_store)).
Proof.
  split; [discriminate|].
  apply (proj1 (demand_nodes_graph small_store)). discriminate.
Defined.

(** ** When the realignment fails *)

Lemma rmap_Ok_iff {A B} (f : A → result B) (l : list A) :
  (∃ ys, rmap f l = Ok ys) ↔ ∀ x, x ∈ l → ∃ y, f x = Ok y.
Proof.
  split.
  - intros [ys Hys]. apply rmap_Ok in Hys. intros x Hx.
    apply list_elem_of_lookup in Hx as [j Hj].
    destruct (Forall2_lookup_l _ _ _ _ _ Hys Hj) as (y & _ & Hy). eauto.
  - apply rmap_total.
Qed.

Lemma rmap_Err {A B} (E : exception → Prop) (f : A → result B)
  (l : list A) e :
  (∀ x e', x ∈ l → f x = Err e' → E e') → rmap f l = Err e → E e.
Proof.
  induction l as [|a l IH]; intros Hf; [done|].
  simpl. destruct (f a) as [b|e'] eqn:Ha; simpl.
  - destruct (rmap f l) as [bs|e''] eqn:Hl; simpl; [done|].
    intros [= <-]. apply IH; [|done].
    intros x e' Hx. apply Hf. by right.
  - intros [= <-]. apply (Hf a); [left|done].
Qed.

Lemma py_add1_Ok i : (∃ n, py_add1 i = Ok n) ↔ is_number i.
Proof.
  destruct i as [[z|z]|s]; simpl; split; try done; try by eexists.
  by intros [n Hn].
Qed.

(** X2.  The realignment of a graph succeeds exactly when every node id of
    the graph is a number and has a coordinate in the result of the
    algorithm.  Otherwise it raises [KeyError], for a node without
    coordinate, or [TypeError], for [i+1] on an id that is a string, as
    the names of the existing network are, or for the iteration over
    [None]. *)
Theorem realign_succeeds_iff (result_geo_graph : GeoGraph)
  (filtered_graph : option Graph) :
  ((∃ msf, realign result_geo_graph filtered_graph = Ok msf) ↔
   ∃ fg, filtered_graph = Some fg ∧
     ∀ i, i ∈ node_ids fg →
       is_number i ∧ ∃ c, dict_get (coords result_geo_graph) i = Ok c) ∧
  (∀ e, realign result_geo_graph filtered_graph = Err e →
     e = KeyError ∨ e = TypeError).
Proof.
  destruct filtered_graph as [fg|]; simpl.
  2: { split; [|intros e [= <-]; by right].
       split; [by intros [msf ?]|by intros (fg & ? & _)]. }
  set (f1 := λ i, c ← dict_get (coords result_geo_graph) i ;
                  k ← py_add1 i ; Ok (Num k, c)).
  set (f2 := λ i, k ← py_add1 i ; Ok (i, Num (py_int k))).
  assert (∀ i e, f1 i = Err e → e = KeyError ∨ e = TypeError) as He1.
  { intros i e. unfold f1.
    destruct (dict_get _ i) as [c|x] eqn:Hc; simpl.
    - destruct i as [[z|z]|s]; simpl; try done. intros [= <-]. by right.
    - intros [= <-]. left.
      unfold dict_get in Hc. clear -Hc.
      induction (coords result_geo_graph) as [|[k v] d IH]; simpl in Hc.
      + by inversion Hc.
      + destruct (py_eqb k i); [done|by apply IH]. }
  assert (∀ i e, f2 i = Err e → e = KeyError ∨ e = TypeError) as He2.
  { intros i e. unfold f2. destruct i as [[z|z]|s]; simpl; try done.
    intros [= <-]. by right. }
  split.
  - split.
    + intros [msf Hmsf]. exists fg. split; [done|]. intros i Hi.
      destruct (rmap f1 (node_ids fg)) as [items|x] eqn:H1; [|done].
      assert (∃ y, f1 i = Ok y) as [y Hy].
      { by apply (proj1 (rmap_Ok_iff f1 (node_ids fg)) (ex_intro _ _ H1)). }
      unfold f1 in Hy.
      destruct (dict_get _ i) as [c|] eqn:Hc; [|done]. simpl in Hy.
      destruct (py_add1 i) as [n|] eqn:Hn; [|done].
      split; [|by exists c]. apply py_add1_Ok. by exists n.
    + intros (fg' & [= <-] & Hall).
      destruct (proj2 (rmap_Ok_iff f1 (node_ids fg))) as [items ->].
      { intros i Hi. destruct (Hall i Hi) as [Hn [c Hc]].
        apply py_add1_Ok in Hn as [n Hn]. unfold f1.
        rewrite Hc. simpl. rewrite Hn. by eexists. }
      destruct (proj2 (rmap_Ok_iff f2 (node_ids fg))) as [pairs ->].
      { intros i Hi. destruct (Hall i Hi) as [Hn _].
        apply py_add1_Ok in Hn as [n Hn]. unfold f2. rewrite Hn.
        by eexists. }
      simpl. by eexists.
  - intros e.
    destruct (rmap f1 (node_ids fg)) as [items|x] eqn:H1; simpl.
    + destruct (rmap f2 (node_ids fg)) as [pairs|x] eqn:H2; simpl; [done|].
      intros [= <-].
      apply (rmap_Err (λ e, e = KeyError ∨ e = TypeError) f2 _ _
               (λ i e' _, He2 i e') H2).
    + intros [= <-].
      apply (rmap_Err (λ e, e = KeyError ∨ e = TypeError) f1 _ _
               (λ i e' _, He1 i e') H1).
Qed.

(** ** What the realignment keeps *)

(** X3.  On a graph whose ids are integers that differ, each with a
    coordinate, the realignment succeeds; every node and every edge is
    kept in its place with its attributes, under the id [i+1] as a Python
    int; the new ids differ from one another; the coordinate of [i] is
    found under [i+1]; and the projection of the result of the algorithm
    is kept. *)
Theorem realign_keeps_graph (result_geo_graph : GeoGraph) (fg : Graph) :
  (∀ i, i ∈ node_ids fg → demand_id i) →
  NoDup (key <$> node_ids fg) →
  (∀ i, i ∈ node_ids fg →
     ∃ c, dict_get (coords result_geo_graph) i = Ok c) →
  (∀ u v d, (u, v, d) ∈ edges fg → u ∈ node_ids fg ∧ v ∈ node_ids fg) →
  ∃ msf, realign result_geo_graph (Some fg) = Ok msf ∧
    srs msf = srs result_geo_graph ∧
    node (graph msf) = map (λ n, (store_id n.1, n.2)) (node fg) ∧
    edges (graph msf) =
      map (λ e, (store_id e.1.1, store_id e.1.2, e.2)) (edges fg) ∧
    graph_wf (graph msf) ∧
    Forall (λ m, is_native m = true) (node_ids (graph msf)) ∧
    ∀ i c, i ∈ node_ids fg →
      dict_get (coords result_geo_graph) i = Ok c →
      dict_get (coords msf) (store_id i) = Ok c.
Proof.
  intros Hd Hnd Hc He.
  destruct (realign_spec result_geo_graph fg Hd Hnd Hc He)
    as (msf & Hmsf & Hsrs & Hnodes & Hedges & Hcoords).
  exists msf. do 4 (split; [done|]).
  assert (node_ids (graph msf) = store_id <$> node_ids fg) as Hids.
  { unfold node_ids. rewrite Hnodes. apply map_fst_renamed. }
  split; [split|split; [|done]].
  - rewrite Hids. apply NoDup_fmap_2_strong; [|by eapply NoDup_fmap_1].
    intros i j Hi Hj Hij. apply (f_equal key) in Hij.
    apply store_id_key_inj in Hij.
    apply (NoDup_fmap_inj_on key (node_ids fg)); [done..|].
    by apply demand_id_key; auto.
  - intros u v d. rewrite Hedges, Hids. intros Hin.
    apply list_elem_of_In, in_map_iff in Hin as ([[a b] d'] & Heq & Hin).
    simpl in Heq. inversion Heq; subst.
    apply list_elem_of_In in Hin. destruct (He _ _ _ Hin).
    split; by apply list_elem_of_fmap_2.
  - rewrite Hids. apply Forall_fmap, Forall_true. done.
Qed.

Lemma realign_keeps_graph_witness :
  ∃ msf, realign result_of_algorithm (Some (graph result_of_algorithm)) =
           Ok msf ∧
    edges (graph msf) =
      [(Num (Int 1), Num (Int 2), mkEdgeData (Some (Finite 3)) None None)].
Proof.
  destruct (realign_keeps_graph result_of_algorithm
              (graph result_of_algorithm))
    as (msf & Hmsf & _ & _ & Hedges & _).
  - apply Forall_forall. repeat constructor.
  - apply (bool_decide_unpack _). vm_compute. exact I.
  - intros i Hi.
    assert (Forall (λ i, ∃ c, dict_get (coords result_of_algorithm) i = Ok c)
              (node_ids (graph result_of_algorithm))) as H.
    { repeat constructor; eexists; vm_compute; reflexivity. }
    rewrite Forall_forall in H. by apply H.
  - intros u v d Hin. apply list_elem_of_singleton in Hin. inversion Hin.
    split; apply (bool_decide_unpack _); vm_compute; exact I.
  - exists msf. split; [exact Hmsf|exact Hedges].
Defined.

(** ** What the component filter keeps *)

Lemma class_of_same r ns u v : r u = r v → class_of r ns u = class_of r ns v.
Proof. intros H. unfold class_of. by rewrite H. Qed.

Lemma concat_map_filter_sublist {A B} (f : A → list B) (P : A → Prop)
  `{!∀ x, Decision (P x)} (l : list A) :
  concat (map f (filter P l)) `sublist_of` concat (map f l).
Proof.
  induction l as [|x l IH]; [done|].
  rewrite filter_cons. destruct (decide (P x)); simpl.
  - by apply sublist_app.
  - by apply sublist_inserts_l.
Qed.

Section kept.
Variable g : Graph.
Variable k : Z.
Hypothesis wf : graph_wf g.

(** A component that the filter keeps. *)
Let big (v : node_id) : Prop := k ≤ Z.of_nat (length (component_of g v)).

Let vs : list node_id :=
  filter big (reps (root (edge_ends g)) [] (node_ids g)).

Let out : Graph :=
  mkGraph
    (concat (map (λ v, node (subgraph g (component_of g v))) vs))
    (concat (map (λ v, edges (subgraph g (component_of g v))) vs)).

Lemma kept_filter_eq :
  component_filter g k = match vs with [] => Ok None | _ => Ok (Some out) end.
Proof.
  rewrite (component_filter_eq g k). unfold out, vs, big, component_of.
  by destruct (filter _ _).
Qed.

Lemma kept_Some o : component_filter g k = Ok (Some o) → o = out.
Proof.
  rewrite kept_filter_eq.
  assert (∀ l : list node_id,
    match l with [] => Ok None | _ => Ok (Some out) end = Ok (Some o) →
    o = out) as H.
  { intros [|v l]; [done|]. by intros [= <-]. }
  apply H.
Qed.

Lemma rep_of v :
  v ∈ node_ids g →
  ∃ w, w ∈ reps (root (edge_ends g)) [] (node_ids g) ∧
    root (edge_ends g) w = root (edge_ends g) v.
Proof.
  intros Hv. destruct (reps_cover (root (edge_ends g)) [] _ v Hv) as [H|H].
  - by apply elem_of_nil in H.
  - done.
Qed.

Lemma kept_nodes n : n ∈ node out ↔ n ∈ node g ∧ big n.1.
Proof.
  unfold out. simpl. rewrite elem_of_concat. split.
  - intros (l & Hl & Hn).
    apply list_elem_of_In, in_map_iff in Hl as (v & <- & Hv).
    apply list_elem_of_In, list_elem_of_filter in Hv as [Hbig Hv].
    simpl in Hn. apply list_elem_of_filter in Hn as [Hc Hn].
    split; [done|]. unfold big in *.
    apply class_of_elem in Hc as [Hr _].
    unfold component_of in *. by rewrite (class_of_same _ _ _ _ Hr).
  - intros [Hn Hbig].
    assert (n.1 ∈ node_ids g) as Hid by by apply list_elem_of_fmap_2.
    destruct (rep_of _ Hid) as (w & Hw & Hr).
    exists (node (subgraph g (component_of g w))). split.
    + apply list_elem_of_In, in_map_iff. exists w. split; [done|].
      apply list_elem_of_In, list_elem_of_filter. split; [|done].
      unfold big, component_of in *. by rewrite (class_of_same _ _ _ _ Hr).
    + simpl. apply list_elem_of_filter. split; [|done].
      by apply class_of_elem.
Qed.

Lemma kept_edges e : e ∈ edges out ↔ e ∈ edges g ∧ big e.1.1.
Proof.
  unfold out. simpl. rewrite elem_of_concat. split.
  - intros (l & Hl & He).
    apply list_elem_of_In, in_map_iff in Hl as (v & <- & Hv).
    apply list_elem_of_In, list_elem_of_filter in Hv as [Hbig Hv].
    simpl in He. apply list_elem_of_filter in He as [[Hc _] He].
    split; [done|]. unfold big in *.
    apply class_of_elem in Hc as [Hr _].
    unfold component_of in *. by rewrite (class_of_same _ _ _ _ Hr).
  - intros [He Hbig]. destruct e as [[a b] d]. simpl in Hbig.
    destruct wf as [_ Hends]. destruct (Hends _ _ _ He) as [Ha Hb].
    pose proof (edge_same_root g a b d He) as Hab. simpl in Hab.
    destruct (rep_of _ Ha) as (w & Hw & Hr).
    exists (edges (subgraph g (component_of g w))). split.
    + apply list_elem_of_In, in_map_iff. exists w. split; [done|].
      apply list_elem_of_In, list_elem_of_filter. split; [|done].
      unfold big, component_of in *. by rewrite (class_of_same _ _ _ _ Hr).
    + simpl. apply list_elem_of_filter. split; [|done]. simpl.
      split; apply class_of_elem; split; try done; congruence.
Qed.

Lemma kept_wf : graph_wf out.
Proof.
  split.
  - pose proof (proj1 wf) as Hnd. unfold node_ids in Hnd.
    pose proof (fmap_Permutation fst _ _ (proj1 (all_components_perm g wf)))
      as Hp.
    rewrite <- Hp in Hnd. eapply sublist_NoDup; [exact Hnd|].
    apply fmap_sublist. unfold out, vs. simpl.
      apply (concat_map_filter_sublist
               (λ v, node (subgraph g (component_of g v))) big).
  - intros u v d He. apply kept_edges in He as [He Hbig]. simpl in Hbig.
    destruct wf as [_ Hends]. destruct (Hends _ _ _ He) as [Hu Hv].
    apply list_elem_of_fmap in Hu as ([u' du] & -> & Hu).
    apply list_elem_of_fmap in Hv as ([v' dv] & -> & Hv).
    simpl in *. split.
    + apply (list_elem_of_fmap_2 fst _ (u', du)), kept_nodes. done.
    + apply (list_elem_of_fmap_2 fst _ (v', dv)), kept_nodes.
      split; [done|]. simpl. unfold big, component_of in *.
      rewrite <- (class_of_same _ _ u' v'); [done|].
      apply (edge_same_root g u' v' d He).
Qed.
End kept.

Lemma filter_out_wf (g : Graph) (k : Z) (out : Graph) :
  graph_wf g → component_filter g k = Ok (Some out) → graph_wf out.
Proof. intros wf Hout. apply kept_Some in Hout as ->. by apply kept_wf. Qed.

Lemma filter_out_nodes (g : Graph) (k : Z) (out : Graph) :
  component_filter g k = Ok (Some out) →
  ∀ n, n ∈ node out ↔
    n ∈ node g ∧ k ≤ Z.of_nat (length (component_of g n.1)).
Proof. intros Hout. apply kept_Some in Hout as ->. apply (kept_nodes g k). Qed.

Lemma filter_out_edges (g : Graph) (k : Z) (out : Graph) :
  graph_wf g →
  component_filter g k = Ok (Some out) →
  ∀ e, e ∈ edges out ↔
    e ∈ edges g ∧ k ≤ Z.of_nat (length (component_of g e.1.1)).
Proof.
  intros wf Hout. apply kept_Some in Hout as ->. by apply (kept_edges g k).
Qed.

Lemma filter_is_Ok (g : Graph) (k : Z) : ∃ out, component_filter g k = Ok out.
Proof. rewrite (kept_filter_eq g k). destruct (filter _ _); by eexists. Qed.

Lemma filter_None_iff (g : Graph) (k : Z) :
  component_filter g k = Ok None ↔
  Forall (λ c, Z.of_nat (length c) < k) (connected_components g).
Proof.
  split; [|apply component_filter_none].
  rewrite (kept_filter_eq g k).
  destruct (filter _ _) as [|v vs] eqn:Hvs; [|done]. intros _.
  unfold connected_components, classes.
  apply Forall_fmap, Forall_forall. intros v Hv. unfold compose.
  destruct (decide (k ≤ Z.of_nat
    (length (class_of (root (edge_ends g)) (node_ids g) v)))) as [Hk|Hk];
    [|lia].
  exfalso. apply (elem_of_nil v). rewrite <- Hvs.
  apply list_elem_of_filter. done.
Qed.


(** X5.  What the component filter gives back for a graph is a graph
    again: its nodes differ and the ends of its edges are nodes of it.  A
    node, with its attributes, is in it exactly when it is a node of the
    graph whose connected component has as many nodes as the threshold,
    and so is an edge, with its attributes: nothing is added, nothing is
    altered, and no edge of a component that is kept is lost. *)
Theorem component_filter_members (g : Graph) (k : Z) (out : Graph) :
  graph_wf g →
  component_filter g k = Ok (Some out) →
  graph_wf out ∧
  (∀ n, n ∈ node out ↔
     n ∈ node g ∧ k ≤ Z.of_nat (length (component_of g n.1))) ∧
  (∀ e, e ∈ edges out ↔
     e ∈ edges g ∧ k ≤ Z.of_nat (length (component_of g e.1.1))).
Proof.
  intros wf Hout. split; [|split].
  - by eapply filter_out_wf.
  - by apply filter_out_nodes.
  - by apply filter_out_edges.
Qed.

Lemma component_filter_members_witness :
  graph_wf forest_example ∧
  ∃ out, component_filter forest_example 2 = Ok (Some out) ∧
    ∀ e, e ∈ edges out ↔
      e ∈ edges forest_example ∧
      2 ≤ Z.of_nat (length (component_of forest_example e.1.1)).
Proof.
  split; [exact forest_example_wf|].
  eexists. split; [vm_compute; reflexivity|].
  eapply (proj2 (proj2 (component_filter_members forest_example 2 _
                          forest_example_wf _))).
  Unshelve. vm_compute. reflexivity.
Defined.

(** X6.  A higher threshold keeps less: the nodes and the edges of what
    the filter gives back for a threshold are among those it gives back
    for any lower threshold of the same graph. *)
Theorem component_filter_antitone (g : Graph) (k k' : Z)
  (out out' : Graph) :
  graph_wf g →
  k ≤ k' →
  component_filter g k = Ok (Some out) →
  component_filter g k' = Ok (Some out') →
  (∀ n, n ∈ node out' → n ∈ node out) ∧
  (∀ e, e ∈ edges out' → e ∈ edges out).
Proof.
  intros wf Hk Hout Hout'. split.
  - intros n Hn. apply (filter_out_nodes g k' _ Hout') in Hn as [Hn Hbig].
    apply (filter_out_nodes g k _ Hout). split; [done|]. lia.
  - intros e He. apply (filter_out_edges g k' _ wf Hout') in He as [He Hbig].
    apply (filter_out_edges g k _ wf Hout). split; [done|]. lia.
Qed.

Lemma component_filter_antitone_witness :
  ∃ out out',
    component_filter forest_example 1 = Ok (Some out) ∧
    component_filter forest_example 2 = Ok (Some out') ∧
    ∀ n, n ∈ node out' → n ∈ node out.
Proof.
  eexists _, _. split; [vm_compute; reflexivity|].
  split; [vm_compute; reflexivity|].
  eapply (proj1 (component_filter_antitone forest_example 1 2 _ _
                   forest_example_wf _ _ _)).
  Unshelve. all: vm_compute; try reflexivity. discriminate.
Defined.

(** ** The network of a runner without existing network *)

Lemma filter_Some (g : Graph) (k : Z) :
  Exists (λ c, k ≤ Z.of_nat (length c)) (connected_components g) →
  ∃ out, component_filter g k = Ok (Some out).
Proof.
  intros Hex. destruct (filter_is_Ok g k) as [[out|] Hout]; [by exists out|].
  apply filter_None_iff in Hout. apply Exists_exists in Hex as (c & Hc & Hk).
  rewrite Forall_forall in Hout. specialize (Hout c Hc). lia.
Qed.

Section without_existing.
Context {params subgraphs_t rtree_t : Type}.
Variable load_existing_networks : params → result GeoGraph.
Variable merge_network_and_nodes :
  GeoGraph → GeoGraph → result (GeoGraph * subgraphs_t * rtree_t).
Variable ALGOS : gmap string (@strategy subgraphs_t rtree_t).
Variable config : @Config params.
Variable demand_nodes result_geo_graph : GeoGraph.
Variable k : Z.
Hypothesis no_existing : existing_networks config = None.
Hypothesis algorithm :
  dispatch ALGOS config demand_nodes None None = Ok result_geo_graph.
Hypothesis threshold : minimum_node_count config = Some k.

Lemma build_network_eq :
  _build_network load_existing_networks merge_network_and_nodes ALGOS
    config demand_nodes =
  (filtered_graph ← component_filter (graph result_geo_graph) k ;
   msf ← realign result_geo_graph filtered_graph ;
   Ok (None, msf)).
Proof.
  unfold _build_network. rewrite no_existing. cbn [mbind result_bind].
  rewrite algorithm. cbn [mbind result_bind]. rewrite threshold. done.
Qed.
End without_existing.



Lemma enumerate_get {A} (l : list A) (j : nat) (a : A) :
  l !! j = Some a → dict_get (enumerate l) (Num (Int (Z.of_nat j))) = Ok a.
Proof.
  intros Hj. apply (assoc_get_elem py_eqb key py_eqb_key).
  - apply enumerate_NoDup.
  - unfold enumerate.
    by apply (elem_of_lookup_imap_2
                (λ i a, (Num (Int (Z.of_nat i)), a)) _ _ j).
Qed.

Lemma numbered_elem (n : nat) (i : node_id) :
  i ∈ (λ j, Num (Int (Z.of_nat j))) <$> seq 0 n ↔
  ∃ j, i = Num (Int (Z.of_nat j)) ∧ (j < n)%nat.
Proof.
  rewrite list_elem_of_fmap. split.
  - intros (j & -> & Hj). apply elem_of_seq in Hj. exists j. split; [done|lia].
  - intros (j & -> & Hj). exists j. split; [done|]. apply elem_of_seq. lia.
Qed.

(** X8.  Without existing network, when the algorithm gives back a graph
    on the nodes and the coordinates of the demand graph and one of its
    connected components has as many nodes as the minimum node count,
    [_build_network] returns no existing network and a graph whose nodes
    are records of the store under their ids in the store, when these
    count from 1 in the order of [cycleNodes]: the record is a node
    exactly when the component of its node in the result of the algorithm
    has as many nodes as the minimum, and its coordinate is found under
    its id. *)
Theorem build_network_store_ids {params subgraphs_t rtree_t : Type}
  (load_existing_networks : params → result GeoGraph)
  (merge_network_and_nodes :
     GeoGraph → GeoGraph → result (GeoGraph * subgraphs_t * rtree_t))
  (ALGOS : gmap string (@strategy subgraphs_t rtree_t))
  (config : @Config params) (store : dataset_store.Store)
  (input_proj : option proj4) (demand_nodes result_geo_graph : GeoGraph)
  (k : Z) :
  _get_demand_nodes store input_proj = Ok demand_nodes →
  (∀ j nd, dataset_store.cycleNodes store false !! j = Some nd →
     dataset_store.id nd = Num (Int (Z.of_nat j + 1))) →
  existing_networks config = None →
  dispatch ALGOS config demand_nodes None None = Ok result_geo_graph →
  graph_wf (graph result_geo_graph) →
  node_ids (graph result_geo_graph) = node_ids (graph demand_nodes) →
  coords result_geo_graph = coords demand_nodes →
  minimum_node_count config = Some k →
  Exists (λ c, k ≤ Z.of_nat (length c))
    (connected_components (graph result_geo_graph)) →
  ∃ msf,
    _build_network load_existing_networks merge_network_and_nodes ALGOS
      config demand_nodes = Ok (None, msf) ∧
    graph_wf (graph msf) ∧
    (∀ m, m ∈ node_ids (graph msf) →
       ∃ j nd, dataset_store.cycleNodes store false !! j = Some nd ∧
         m = dataset_store.id nd) ∧
    ∀ j nd, dataset_store.cycleNodes store false !! j = Some nd →
      (dataset_store.id nd ∈ node_ids (graph msf) ↔
       k ≤ Z.of_nat (length (component_of (graph result_geo_graph)
                               (Num (Int (Z.of_nat j)))))) ∧
      (dataset_store.id nd ∈ node_ids (graph msf) →
       dict_get (coords msf) (dataset_store.id nd) =
         Ok (dataset_store.getCommonCoordinates nd)).
Proof.
  intros Hdemand Hstore Hex Halgo wf Hids Hcoords Hk Hbig.
  apply demand_nodes_spec in Hdemand as (Hdids & _ & Hdcoords).
  rewrite Hdids in Hids. rewrite Hdcoords in Hcoords.
  set (records := dataset_store.cycleNodes store false) in *.
  rewrite (build_network_eq _ _ _ _ _ _ _ Hex Halgo Hk).
  destruct (filter_Some _ _ Hbig) as [out Hout]. rewrite Hout.
  cbn [mbind result_bind].
  pose proof (filter_out_wf _ _ _ wf Hout) as [Hnd Hends].
  pose proof (filter_out_nodes _ _ _ Hout) as Hnodes.
  assert (∀ i, i ∈ node_ids out ↔
            ∃ j, i = Num (Int (Z.of_nat j)) ∧ (j < length records)%nat ∧
              k ≤ Z.of_nat (length (component_of (graph result_geo_graph) i)))
    as Hout_ids.
  { intros i. split.
    - intros Hi. apply list_elem_of_fmap in Hi as ([i' d] & -> & Hi).
      apply Hnodes in Hi as [Hi Hb]. simpl in *.
      assert (i' ∈ node_ids (graph result_geo_graph)) as Hi'.
      { apply list_elem_of_fmap. by exists (i', d). }
      rewrite Hids in Hi'. apply numbered_elem in Hi' as (j & -> & Hj).
      eauto.
    - intros (j & -> & Hj & Hb).
      assert (Num (Int (Z.of_nat j)) ∈ node_ids (graph result_geo_graph))
        as Hin.
      { rewrite Hids. apply numbered_elem. eauto. }
      apply list_elem_of_fmap in Hin as ([i' d] & Heq & Hin).
      simpl in Heq. subst i'.
      apply list_elem_of_fmap. exists (Num (Int (Z.of_nat j)), d).
      split; [done|]. apply Hnodes. done. }
  assert (∀ j, (j < length records)%nat →
            ∃ nd, records !! j = Some nd ∧
              dict_get (coords result_geo_graph) (Num (Int (Z.of_nat j))) =
                Ok (dataset_store.getCommonCoordinates nd)) as Hrec.
  { intros j Hj.
    destruct (lookup_lt_is_Some_2 records j Hj) as [nd Hnd'].
    exists nd. split; [done|]. rewrite Hcoords. apply enumerate_get.
    by rewrite map_fmap, list_lookup_fmap, Hnd'. }
  destruct (realign_spec result_geo_graph out)
    as (msf & Hmsf & _ & Hmnodes & Hmedges & Hmcoords).
  { intros i Hi. apply Hout_ids in Hi as (j & -> & _). done. }
  { apply NoDup_fmap_2_strong; [|done].
    intros i i' Hi Hi' Hkey.
    apply Hout_ids in Hi as (j & -> & _).
    apply Hout_ids in Hi' as (j' & -> & _).
    simpl in Hkey. by inversion Hkey. }
  { intros i Hi. apply Hout_ids in Hi as (j & -> & Hj & _).
    destruct (Hrec j Hj) as (nd & _ & Hc). eauto. }
  { exact Hends. }
  rewrite Hmsf. cbn [mbind result_bind]. exists msf. split; [done|].
  assert (node_ids (graph msf) = store_id <$> node_ids out) as Hmids.
  { unfold node_ids. rewrite Hmnodes. apply map_fst_renamed. }
  assert (∀ j nd, records !! j = Some nd →
            dataset_store.id nd = store_id (Num (Int (Z.of_nat j)))) as Hsid.
  { intros j nd Hj. by rewrite (Hstore j nd Hj). }
  assert (∀ j, store_id (Num (Int (Z.of_nat j))) ∈ node_ids (graph msf) ↔
            Num (Int (Z.of_nat j)) ∈ node_ids out) as Hshift.
  { intros j. rewrite Hmids. split; [|apply list_elem_of_fmap_2].
    intros Hin. apply list_elem_of_fmap in Hin as (i & Heq & Hi).
    pose proof Hi as Hi'. apply Hout_ids in Hi' as (j' & -> & _).
    unfold store_id in Heq. simpl in Heq. inversion Heq.
    by replace j with j' by lia. }
  split; [split|split].
  - rewrite Hmids. apply NoDup_fmap_2_strong; [|done].
    intros i i' Hi Hi' Heq.
    apply Hout_ids in Hi as (j & -> & _).
    apply Hout_ids in Hi' as (j' & -> & _).
    unfold store_id in Heq. simpl in Heq. inversion Heq.
    by replace j with j' by lia.
  - intros u v d. rewrite Hmedges, Hmids. intros Hin.
    apply list_elem_of_In, in_map_iff in Hin as ([[a b] d'] & Heq & Hin).
    simpl in Heq. inversion Heq; subst.
    apply list_elem_of_In in Hin. destruct (Hends _ _ _ Hin).
    split; by apply list_elem_of_fmap_2.
  - intros m Hm. rewrite Hmids in Hm.
    apply list_elem_of_fmap in Hm as (i & -> & Hi).
    apply Hout_ids in Hi as (j & -> & Hj & _).
    destruct (Hrec j Hj) as (nd & Hnd' & _).
    exists j, nd. split; [done|]. by rewrite (Hsid j nd).
  - intros j nd Hj. rewrite (Hsid j nd Hj), Hshift. split.
    + rewrite Hout_ids. split.
      * by intros (j' & _ & _ & Hb).
      * intros Hb. exists j. split; [done|]. split; [|done].
        by eapply lookup_lt_Some.
    + intros Hin. apply Hmcoords; [done|].
      destruct (Hrec j) as (nd' & Hnd' & Hc); [by eapply lookup_lt_Some|].
      fold records in Hj. congruence.
Qed.

Lemma build_network_store_ids_witness :
  ∃ msf,
    _build_network (λ _ : unit, Err KeyError) (λ _ _, Err KeyError)
      one_algorithm keep_all_config
      (graph_of_records PROJ4_LATLONG (dataset_store.nodes small_store)) =
      Ok (None, msf) ∧
    graph_wf (graph msf).
Proof.
  destruct (build_network_store_ids (λ _ : unit, Err KeyError)
              (λ _ _, Err KeyError) one_algorithm keep_all_config
              small_store None
              (graph_of_records PROJ4_LATLONG
                 (dataset_store.nodes small_store))
              (graph_of_records PROJ4_LATLONG
                 (dataset_store.nodes small_store)) 1)
    as (msf & Hmsf & Hwf & _).
  - vm_compute. reflexivity.
  - intros [|[|j]] nd; simpl; intros [= <-]; reflexivity.
  - reflexivity.
  - reflexivity.
  - split.
    + apply (bool_decide_unpack _). vm_compute. exact I.
    + intros u v d Hin. by apply elem_of_nil in Hin.
  - reflexivity.
  - reflexivity.
  - reflexivity.
  - apply Exists_cons_hd. vm_compute. discriminate.
  - exists msf. split; [exact Hmsf|exact Hwf].
Defined.

(** ** The calls of the persister *)

Lemma created_nodes_app tr tr' :
  created_nodes (tr ++ tr') = created_nodes tr ++ created_nodes tr'.
Proof. unfold created_nodes. apply omap_app. Qed.

Lemma assigned_ids_app tr tr' :
  assigned_ids (tr ++ tr') = assigned_ids tr ++ assigned_ids tr'.
Proof. unfold assigned_ids. apply omap_app. Qed.

Lemma added_subnets_app tr tr' :
  added_subnets (tr ++ tr') = added_subnets tr ++ added_subnets tr'.
Proof. unfold added_subnets. apply omap_app. Qed.

(** The body of the loop on an edge whose lookups succeed and whose ends
    are not both synthetic. *)
Lemma store_edge_Ok (msf : GeoGraph) (sn : nat) (e : edge) tr :
  edge_complete msf e →
  ¬ (is_synthetic msf e.1.1 ∧ is_synthetic msf e.1.2) →
  ∃ ops,
    store_edge msf sn e tr =
      (tr ++ ops ++
         [dataset_store.session_add_segment (proposed_segment_of sn e)],
       Ok ()) ∧
    ((synthetic_ends msf e = [] ∧ ops = []) ∨
     (∃ n c, synthetic_ends msf e = [n] ∧
        dict_get (coords msf) n = Ok c ∧
        ops = node_ops (length tr) c n)).
Proof.
  destruct e as [[u v] d].
  unfold edge_complete, synthetic_ends, proposed_segment_of.
  cbn [fst snd]. intros ([bu Hu] & [bv Hv] & [cu Hcu] & [cv Hcv] & [w Hw]) Hns.
  assert (is_synthetic msf u ↔ eq_inf bu = true) as Hsu.
  { unfold is_synthetic. rewrite Hu, eq_inf_true. split; congruence. }
  assert (is_synthetic msf v ↔ eq_inf bv = true) as Hsv.
  { unfold is_synthetic. rewrite Hv, eq_inf_true. split; congruence. }
  unfold store_edge, fake_nodes. cbn [fst snd rmap].
  rewrite Hu, Hv, Hw. run. rewrite !filter_cons, filter_nil.
  destruct (eq_inf bu) eqn:Eu, (eq_inf bv) eqn:Ev; simpl.
  - destruct Hns. split; [by apply Hsu|by apply Hsv].
  - rewrite Hcu. simpl. rewrite <- !app_assoc. simpl.
    exists (node_ops (length tr) cu u). split; [done|]. right. exists u, cu.
    rewrite decide_True by by apply Hsu.
    rewrite decide_False; [done|]. rewrite Hsv. done.
  - rewrite Hcv. simpl. rewrite <- !app_assoc. simpl.
    exists (node_ops (length tr) cv v). split; [done|]. right. exists v, cv.
    rewrite decide_False by (rewrite Hsu; done).
    rewrite decide_True by by apply Hsv. done.
  - exists []. split; [done|]. left.
    rewrite decide_False by (rewrite Hsu; done).
    rewrite decide_False by (rewrite Hsv; done). done.
Qed.

(** The body of the loop when the assertion fails. *)
Lemma store_edge_assert (msf : GeoGraph) (sn : nat) (e : edge) tr tr' :
  store_edge msf sn e tr = (tr', Err AssertionError) →
  ∃ cu cv,
    is_synthetic msf e.1.1 ∧ is_synthetic msf e.1.2 ∧
    dict_get (coords msf) e.1.1 = Ok cu ∧
    dict_get (coords msf) e.1.2 = Ok cv ∧
    tr' = tr ++ node_ops (length tr) cu e.1.1 ++
                node_ops (length tr + 4) cv e.1.2.
Proof.
  destruct e as [[u v] d]. unfold store_edge, fake_nodes, is_synthetic.
  cbn [fst snd rmap].
  destruct (node_budget (node (graph msf)) u) as [bu|xu] eqn:Hu.
  2: { apply node_budget_Err in Hu as ->. run. done. }
  destruct (node_budget (node (graph msf)) v) as [bv|xv] eqn:Hv.
  2: { apply node_budget_Err in Hv as ->. run. done. }
  run.
  destruct (eq_inf bu) eqn:Eu, (eq_inf bv) eqn:Ev; simpl;
    rewrite ?eq_inf_true in *; subst;
    repeat match goal with
    | |- context [dict_get (coords msf) ?n] =>
        let Hc := fresh "Hc" in
        destruct (dict_get (coords msf) n) as [?|?] eqn:Hc; simpl;
        [|apply dict_get_Err in Hc as ->]
    end;
    destruct (weight d) as [w|] eqn:Hw; simpl; try done.
  all: intros [= <-]; eexists _, _; repeat split; try done.
  all: rewrite <- !app_assoc, !length_app; simpl.
  all: by replace (length tr + 1 + 1 + 1 + 1)%nat with (length tr + 4)%nat
         by lia.
Qed.

Lemma for_each_Err {A} (l : list A) (body : A → M unit) tr tr' x :
  for_each l body tr = (tr', Err x) →
  ∃ a tr0, a ∈ l ∧ body a tr0 = (tr', Err x).
Proof.
  revert tr. induction l as [|a l IH]; intros tr; [done|].
  simpl. unfold mbind, M_bind.
  destruct (body a tr) as [tr1 [[]|y]] eqn:Ha.
  - intros H. destruct (IH _ H) as (b & tr0 & Hb & Hrun).
    exists b, tr0. split; [by right|done].
  - intros [= <- <-]. exists a, tr. split; [left|done].
Qed.

Lemma edges_loop_Ok (msf : GeoGraph) (sn : nat) (es : list edge) tr :
  Forall (storable msf) es →
  ∃ ops,
    for_each es (store_edge msf sn) tr = (tr ++ ops, Ok ()) ∧
    emitted ops = map (proposed_segment_of sn) es ∧
    assigned_ids ops = concat (map (synthetic_ends msf) es) ∧
    records_of msf (concat (map (synthetic_ends msf) es))
      (created_nodes ops) ∧
    added_subnets ops = [].
Proof.
  revert tr. induction es as [|e es IH]; intros tr Hes.
  - exists []. rewrite app_nil_r. repeat split; try done. constructor.
  - apply Forall_cons in Hes as [[Hc Hns] Hes].
    destruct (store_edge_Ok msf sn e tr Hc Hns) as (ops1 & Hrun & Hops).
    destruct (IH (tr ++ ops1 ++
      [dataset_store.session_add_segment (proposed_segment_of sn e)]) Hes)
      as (ops2 & Hrun2 & Hem & Hids & Hrec & Hsub).
    exists ((ops1 ++
      [dataset_store.session_add_segment (proposed_segment_of sn e)]) ++ ops2).
    simpl. unfold mbind, M_bind. rewrite Hrun, Hrun2.
    rewrite <- !app_assoc. split; [done|].
    rewrite !emitted_app, !assigned_ids_app, !created_nodes_app,
      !added_subnets_app, Hem, Hids, Hsub.
    unfold records_of.
    destruct Hops as [[-> ->]|(n & c & -> & Hc' & ->)]; simpl.
    + repeat split; done.
    + repeat split; try done. constructor; [done|]. exact Hrec.
Qed.

Lemma subnets_loop_Ok (msf : GeoGraph) (subs : list Graph) tr :
  Forall (λ s, Forall (storable msf) (edges s)) subs →
  ∃ ops hs,
    for_each subs (λ subgraph,
      dataset_subnet ← call dataset_store.Subnet_new ;
      _ ← call (dataset_store.session_add_subnet dataset_subnet) ;
      _ ← call dataset_store.session_commit ;
      for_each (edges subgraph) (store_edge msf dataset_subnet)) tr =
      (tr ++ ops, Ok ()) ∧
    length hs = length subs ∧
    Forall (λ h, (length tr ≤ h)%nat) hs ∧
    NoDup hs ∧
    added_subnets ops = hs ∧
    emitted ops = segments_of hs subs ∧
    assigned_ids ops =
      concat (map (synthetic_ends msf) (concat (map edges subs))) ∧
    records_of msf
      (concat (map (synthetic_ends msf) (concat (map edges subs))))
      (created_nodes ops).
Proof.
  revert tr. induction subs as [|s subs IH]; intros tr Hsubs.
  - exists [], []. rewrite app_nil_r. repeat split; try done; constructor.
  - apply Forall_cons in Hsubs as [Hs Hsubs].
    set (pre := [dataset_store.Subnet_new;
                 dataset_store.session_add_subnet (length tr);
                 dataset_store.session_commit]).
    destruct (edges_loop_Ok msf (length tr) (edges s) (tr ++ pre) Hs)
      as (ops1 & Hrun1 & Hem1 & Hids1 & Hrec1 & Hsub1).
    destruct (IH ((tr ++ pre) ++ ops1) Hsubs)
      as (ops2 & hs & Hrun2 & Hlen & Hge & Hnd & Hsub2 & Hem2 & Hids2 & Hrec2).
    exists (pre ++ ops1 ++ ops2), (length tr :: hs).
    split.
    { cbn [for_each]. subst pre. run.
      rewrite <- !app_assoc in *. simpl in *.
      rewrite Hrun1. rewrite Hrun2. done. }
    assert (Forall (λ h, (length tr < h)%nat) hs) as Hgt.
    { eapply Forall_impl; [exact Hge|]. intros h Hh. simpl in Hh.
      rewrite !length_app in Hh. simpl in Hh. lia. }
    split; [simpl; by rewrite Hlen|].
    split.
    { constructor; [done|]. eapply Forall_impl; [exact Hgt|].
      intros h Hh. simpl in Hh. lia. }
    split.
    { constructor; [|done]. intros Hin. rewrite Forall_forall in Hgt.
      specialize (Hgt _ Hin). lia. }
    rewrite !emitted_app, !assigned_ids_app, !created_nodes_app,
      !added_subnets_app, Hem1, Hem2, Hids1, Hids2, Hsub1, Hsub2.
    simpl. split; [done|]. split; [done|].
    rewrite map_app, concat_app. split; [done|].
    by apply Forall2_app.
Qed.

(** The existing pass, call by call: the [Subnet] is made, and the
    segments of the edges are added up to the first edge without weight. *)
Lemma existing_loop_trace (sn : nat) (es : list edge) tr :
  ∃ es1 r,
    for_each es (λ e,
      w ← lift (lookup_key (weight e.2)) ;
      _ ← call (dataset_store.session_add_segment
                  (dataset_store.mkSegment e.1.1 e.1.2 sn true w)) ;
      mret ()) tr =
      (tr ++ map (λ e, dataset_store.session_add_segment
                         (existing_segment sn e)) es1, r) ∧
    Forall (λ e : edge, is_Some (weight e.2)) es1 ∧
    ((r = Ok () ∧ es1 = es) ∨
     (∃ e es2, r = Err KeyError ∧ es = es1 ++ e :: es2 ∧ weight e.2 = None)).
Proof.
  revert tr. induction es as [|e es IH]; intros tr.
  - exists [], (Ok ()). simpl. rewrite app_nil_r. split; [done|].
    split; [constructor|]. by left.
  - cbn [for_each]. destruct (weight e.2) as [w|] eqn:Hw; run.
    + destruct (IH (tr ++ [dataset_store.session_add_segment
          (dataset_store.mkSegment e.1.1 e.1.2 sn true w)]))
        as (es1 & r & Hrun & Hall & Hr).
      exists (e :: es1), r. split.
      { rewrite Hrun. rewrite <- app_assoc. simpl.
        unfold existing_segment at 2. by rewrite Hw. }
      split; [constructor; [by rewrite Hw|done]|].
      destruct Hr as [[-> ->]|(e' & es2 & -> & -> & Hw')]; [by left|].
      right. exists e', es2. done.
    + exists [], (Err KeyError). simpl.
      rewrite app_nil_r. split; [done|]. split; [constructor|].
      right. exists e, es. done.
Qed.

Lemma store_existing_trace (g : GeoGraph) tr :
  ∃ es1 r,
    store_existing g tr =
      (tr ++ dataset_store.Subnet_new ::
         map (λ e, dataset_store.session_add_segment
                     (existing_segment (length tr) e)) es1, r) ∧
    Forall (λ e : edge, is_Some (weight e.2)) es1 ∧
    ((r = Ok () ∧ es1 = edges (graph g)) ∨
     (∃ e es2, r = Err KeyError ∧ edges (graph g) = es1 ++ e :: es2 ∧
        weight e.2 = None)).
Proof.
  unfold store_existing. unfold mbind at 1, M_bind at 1, call at 1.
  destruct (existing_loop_trace (length tr) (edges (graph g))
              (tr ++ [dataset_store.Subnet_new])) as (es1 & r & Hrun & H).
  exists es1, r. split; [|done].
  rewrite Hrun, <- app_assoc. done.
Qed.

Lemma segments_only (f : edge → Segment) (es : list edge) :
  let ops := map (λ e, dataset_store.session_add_segment (f e)) es in
  emitted ops = map f es ∧ created_nodes ops = [] ∧
  assigned_ids ops = [] ∧ added_subnets ops = [].
Proof.
  induction es as [|e es (IH1 & IH2 & IH3 & IH4)]; [done|].
  simpl in *. repeat split; try done. by rewrite IH1.
Qed.

Lemma existing_pass_trace (existing : option GeoGraph) tr :
  ∃ ops r,
    existing_pass existing tr = (tr ++ ops, r) ∧
    created_nodes ops = [] ∧ assigned_ids ops = [] ∧
    added_subnets ops = [] ∧
    Forall (λ s, dataset_store.is_existing s = true) (emitted ops) ∧
    ((∀ g, existing = Some g →
        Forall (λ e : edge, is_Some (weight e.2)) (edges (graph g))) →
     r = Ok ()) ∧
    (∀ x, r = Err x → x = KeyError).
Proof.
  unfold existing_pass. destruct existing as [g|].
  2: { exists [], (Ok ()). rewrite app_nil_r. repeat split; done. }
  destruct (truth (Some g)).
  2: { exists [], (Ok ()). rewrite app_nil_r. repeat split; done. }
  destruct (store_existing_trace g tr) as (es1 & r & Hrun & Hall & Hr).
  destruct (segments_only (existing_segment (length tr)) es1)
    as (Hem & Hcr & Hids & Hsub).
  eexists _, r. split; [exact Hrun|].
  change (dataset_store.Subnet_new :: ?l)
    with ([dataset_store.Subnet_new] ++ l).
  rewrite created_nodes_app, assigned_ids_app, added_subnets_app,
    emitted_app, Hem, Hcr, Hids, Hsub. simpl.
  repeat split; try done.
  - by apply Forall_fmap, Forall_true.
  - intros Hw. destruct Hr as [[-> _]|(e & es2 & -> & Heq & Hnone)]; [done|].
    specialize (Hw g eq_refl). rewrite Heq in Hw.
    apply Forall_app in Hw as [_ Hw]. apply Forall_cons in Hw as [[w Hw] _].
    congruence.
  - intros x ->. by destruct Hr as [[? _]|(e & es2 & [= ->] & _)].
Qed.

Section stored.
Variable msf : GeoGraph.
Variable existing : option GeoGraph.
Hypothesis edges_storable : Forall (storable msf) (edges (graph msf)).
Hypothesis existing_weights : ∀ g, existing = Some g →
  Forall (λ e : edge, is_Some (weight e.2)) (edges (graph g)).

Let subs := connected_component_subgraphs (graph msf).

Lemma subs_storable : Forall (λ s, Forall (storable msf) (edges s)) subs.
Proof.
  apply Forall_forall. intros s Hs. apply Forall_forall. intros e He.
  rewrite Forall_forall in edges_storable. apply edges_storable.
  by eapply subgraph_edge_of.
Qed.

Lemma store_networks_Ok tr :
  ∃ ops1 ops2 hs,
    existing_pass existing tr = (tr ++ ops1, Ok ()) ∧
    _store_networks msf existing tr =
      (tr ++ ops1 ++ ops2 ++ [dataset_store.session_commit], Ok ()) ∧
    created_nodes ops1 = [] ∧ assigned_ids ops1 = [] ∧
    added_subnets ops1 = [] ∧
    length hs = length subs ∧
    Forall (λ h, (length (tr ++ ops1) ≤ h)%nat) hs ∧
    NoDup hs ∧
    added_subnets ops2 = hs ∧
    emitted ops2 = segments_of hs subs ∧
    assigned_ids ops2 =
      concat (map (synthetic_ends msf) (concat (map edges subs))) ∧
    records_of msf
      (concat (map (synthetic_ends msf) (concat (map edges subs))))
      (created_nodes ops2).
Proof.
  destruct (existing_pass_trace existing tr)
    as (ops1 & r & Hrun1 & Hcr & Hids & Hsub & _ & Hok & _).
  rewrite (Hok existing_weights) in Hrun1.
  destruct (subnets_loop_Ok msf subs (tr ++ ops1) subs_storable)
    as (ops2 & hs & Hrun2 & H).
  exists ops1, ops2, hs. split; [done|]. split; [|done].
  unfold _store_networks, proposed_pass. fold subs.
  unfold mbind at 1, M_bind at 1. rewrite Hrun1.
  unfold mbind at 1, M_bind at 1. rewrite Hrun2. run.
  by rewrite <- !app_assoc.
Qed.
End stored.

Lemma concat_map_Permutation {A B} (f : A → list B) (l l' : list A) :
  l ≡ₚ l' → concat (map f l) ≡ₚ concat (map f l').
Proof.
  induction 1 as [|x l l' _ IH|x y l|l l' l'' _ IH1 _ IH2]; simpl.
  - done.
  - by rewrite IH.
  - rewrite !app_assoc. f_equiv. apply Permutation_app_comm.
  - by rewrite IH1.
Qed.

(** The edges of the subnetworks of a graph are the edges of the graph. *)
Lemma subgraph_edges_perm (g : Graph) :
  graph_wf g →
  concat (map edges (connected_component_subgraphs g)) ≡ₚ edges g.
Proof.
  intros wf. rewrite subgraphs_eq, (map_fmap edges), <- list_fmap_compose.
  rewrite <- map_fmap. apply (all_components_perm g wf).
Qed.

Lemma segments_of_ends (hs : list nat) (subs : list Graph) :
  length hs = length subs →
  (λ s, (dataset_store.node1_id s, dataset_store.node2_id s,
         dataset_store.is_existing s, dataset_store.weight s)) <$>
    segments_of hs subs =
  (λ e : edge, (e.1.1, e.1.2, false, default NoneVal (weight e.2))) <$>
    concat (map edges subs).
Proof.
  revert subs. induction hs as [|h hs IH]; intros [|s subs] Hlen;
    try done.
  unfold segments_of in *. simpl. rewrite !fmap_app, IH by (simpl in Hlen; lia).
  f_equal. rewrite <- map_fmap, map_map. by rewrite map_fmap.
Qed.

(** X9.  When every edge of the forest has a weight, ends with a budget
    and a coordinate, and not two synthetic ends, and every edge of the
    existing network has a weight, the persister succeeds.  It adds one
    [Subnet] to the session for each connected component of the forest,
    also for a component of one node, and after what the existing pass
    adds, one segment for each edge of each component, in order, with
    the ends and the weight of the edge, [is_existing = False] and the
    [Subnet] of its component; different components have different
    [Subnet]s.  These segments are the edges of the forest, one for
    one.  The last call is the commit of the session. *)
Theorem proposed_networks_stored (msf : GeoGraph)
  (existing : option GeoGraph) (tr : list store_op) :
  Forall (storable msf) (edges (graph msf)) →
  (∀ g, existing = Some g →
     Forall (λ e : edge, is_Some (weight e.2)) (edges (graph g))) →
  ∃ tr' hs,
    _store_networks msf existing tr = (tr', Ok ()) ∧
    length hs = length (connected_component_subgraphs (graph msf)) ∧
    NoDup hs ∧
    added_subnets tr' = added_subnets tr ++ hs ∧
    emitted tr' =
      emitted (existing_pass existing tr).1 ++
      segments_of hs (connected_component_subgraphs (graph msf)) ∧
    last tr' = Some dataset_store.session_commit ∧
    (graph_wf (graph msf) →
     (λ s, (dataset_store.node1_id s, dataset_store.node2_id s,
            dataset_store.is_existing s, dataset_store.weight s)) <$>
       segments_of hs (connected_component_subgraphs (graph msf)) ≡ₚ
     (λ e : edge, (e.1.1, e.1.2, false, default NoneVal (weight e.2))) <$>
       edges (graph msf)).
Proof.
  intros Hedges Hweights.
  destruct (store_networks_Ok msf existing Hedges Hweights tr)
    as (ops1 & ops2 & hs & Hrun1 & Hrun & _ & _ & Hsub1 & Hlen & _ & Hnd &
        Hsub2 & Hem2 & _).
  cbv zeta in *.
  eexists _, hs. split; [exact Hrun|]. split; [done|]. split; [done|].
  rewrite Hrun1. cbn [fst].
  rewrite !added_subnets_app, !emitted_app, Hsub1, Hsub2, Hem2. simpl.
  rewrite !app_nil_r. split; [done|]. split; [by rewrite app_assoc|]. split.
  - rewrite !app_assoc. apply last_snoc.
  - intros wf. rewrite segments_of_ends by done.
    apply fmap_Permutation. by apply subgraph_edges_perm.
Qed.

Lemma junction_storable : Forall (storable junction) (edges (graph junction)).
Proof.
  repeat constructor; simpl; try (eexists; vm_compute; reflexivity).
  all: intros [H1 H2]; vm_compute in H1, H2; congruence.
Defined.

Lemma proposed_networks_stored_witness :
  Forall (storable junction) (edges (graph junction)) ∧
  ∃ tr' hs,
    _store_networks junction None [] = (tr', Ok ()) ∧
    length hs = 1%nat ∧
    emitted tr' =
      segments_of hs (connected_component_subgraphs (graph junction)).
Proof.
  split; [exact junction_storable|].
  destruct (proposed_networks_stored junction None [] junction_storable)
    as (tr' & hs & Hrun & Hlen & _ & _ & Hem & _).
  - intros g Hg. discriminate Hg.
  - exists tr', hs. split; [exact Hrun|]. split; [exact Hlen|exact Hem].
Defined.

(** X10.  Under the same conditions the persister calls [store.addNode]
    once for each synthetic end of each edge, in the order of the edges
    of the components: the record is fake, it lies at the coordinate the
    forest has for the node, and it is given the id of the node.  A
    synthetic node that is an end of several edges so gets a record for
    each of them. *)
Theorem synthetic_nodes_stored (msf : GeoGraph)
  (existing : option GeoGraph) (tr : list store_op) :
  Forall (storable msf) (edges (graph msf)) →
  (∀ g, existing = Some g →
     Forall (λ e : edge, is_Some (weight e.2)) (edges (graph g))) →
  ∃ tr' ids cs,
    _store_networks msf existing tr = (tr', Ok ()) ∧
    ids = concat (map (synthetic_ends msf)
            (concat (map edges
               (connected_component_subgraphs (graph msf))))) ∧
    assigned_ids tr' = assigned_ids tr ++ ids ∧
    created_nodes tr' = created_nodes tr ++ cs ∧
    records_of msf ids cs ∧
    (graph_wf (graph msf) →
     ids ≡ₚ concat (map (synthetic_ends msf) (edges (graph msf)))).
Proof.
  intros Hedges Hweights.
  destruct (store_networks_Ok msf existing Hedges Hweights tr)
    as (ops1 & ops2 & hs & _ & Hrun & Hcr1 & Hids1 & _ & _ & _ & _ &
        _ & _ & Hids2 & Hrec).
  cbv zeta in *.
  eexists _, _, (created_nodes ops2). split; [exact Hrun|].
  split; [reflexivity|].
  rewrite !assigned_ids_app, !created_nodes_app, Hcr1, Hids1, Hids2. simpl.
  rewrite !app_nil_r. split; [done|]. split; [done|]. split; [done|].
  intros wf. by apply concat_map_Permutation, subgraph_edges_perm.
Qed.

Lemma synthetic_nodes_stored_witness :
  ∃ tr',
    _store_networks junction None [] = (tr', Ok ()) ∧
    assigned_ids tr' = [Num (Int 2); Num (Int 2)].
Proof.
  destruct (synthetic_nodes_stored junction None [] junction_storable)
    as (tr' & ids & cs & Hrun & Hids & Hassigned & _).
  - intros g Hg. discriminate Hg.
  - exists tr'. split; [exact Hrun|]. rewrite Hassigned, Hids. reflexivity.
Defined.

(** X11.  When the persister raises [AssertionError], the last calls it
    has made are those that put the records of the two synthetic ends of
    an edge of the forest in the store, each followed by a commit of the
    session: the assertion comes after the second commit, and the
    segment of that edge is not added. *)
Theorem assertion_after_commit (msf : GeoGraph)
  (existing : option GeoGraph) (tr tr' : list store_op) :
  _store_networks msf existing tr = (tr', Err AssertionError) →
  ∃ pre u v d cu cv,
    (u, v, d) ∈ edges (graph msf) ∧
    is_synthetic msf u ∧ is_synthetic msf v ∧
    dict_get (coords msf) u = Ok cu ∧
    dict_get (coords msf) v = Ok cv ∧
    tr' = pre ++ node_ops (length pre) cu u ++
                 node_ops (length pre + 4) cv v.
Proof.
  unfold _store_networks. unfold mbind at 1, M_bind at 1.
  destruct (existing_pass_trace existing tr)
    as (ops1 & r1 & -> & _ & _ & _ & _ & _ & Hr1).
  destruct r1 as [[]|x1].
  2: { intros [= _ ->]. specialize (Hr1 _ eq_refl). discriminate Hr1. }
  unfold mbind at 1, M_bind at 1.
  destruct (proposed_pass msf (tr ++ ops1)) as [tr2 [[]|x2]] eqn:Hrun2.
  { run. done. }
  intros [= <- ->]. unfold proposed_pass in Hrun2.
  apply for_each_Err in Hrun2 as (s & tr0 & Hs & Hbody).
  unfold mbind, M_bind, call in Hbody. simpl in Hbody.
  apply for_each_Err in Hbody as ([[u v] d] & tr00 & He & Hedge).
  apply store_edge_assert in Hedge as (cu & cv & Hu & Hv & Hcu & Hcv & ->).
  exists tr00, u, v, d, cu, cv. repeat split; try done.
  by eapply subgraph_edge_of.
Qed.

Lemma assertion_after_commit_witness :
  (_store_networks synthetic_pair None []).2 = Err AssertionError ∧
  last (_store_networks synthetic_pair None []).1 =
    Some dataset_store.session_commit.
Proof.
  assert (_store_networks synthetic_pair None [] =
          ((_store_networks synthetic_pair None []).1, Err AssertionError))
    as Hrun by (vm_compute; reflexivity).
  split; [vm_compute; reflexivity|].
  destruct (assertion_after_commit synthetic_pair None [] _ Hrun)
    as (pre & u & v & d & cu & cv & _ & _ & _ & _ & _ & Htr).
  rewrite Htr. unfold node_ops.
  change (pre ++ ?l ++ [?a; ?b; ?c; ?d'])
    with (pre ++ l ++ [a; b; c] ++ [d']).
  rewrite !app_assoc. apply last_snoc.
Defined.

Lemma first_without_weight (es1 es1' es2 es2' : list edge) (e e' : edge) :
  es1 ++ e :: es2 = es1' ++ e' :: es2' →
  Forall (λ e : edge, is_Some (weight e.2)) es1 →
  Forall (λ e : edge, is_Some (weight e.2)) es1' →
  weight e.2 = None → weight e'.2 = None →
  es1 = es1'.
Proof.
  revert es1'. induction es1 as [|x es1 IH]; intros [|x' es1'] Heq H1 H1' He He';
    simpl in Heq; inversion Heq; subst.
  - done.
  - apply Forall_cons in H1' as [[w Hw] _]. congruence.
  - apply Forall_cons in H1 as [[w Hw] _]. congruence.
  - apply Forall_cons in H1 as [_ H1]. apply Forall_cons in H1' as [_ H1'].
    f_equal. by apply IH.
Qed.

(** X12.  When an edge of the existing network has no weight, the
    persister raises [KeyError] in the existing pass: the segments of
    the edges before that edge have been added to the session, nothing
    has been committed, and the proposed pass does not start, so that no
    [Subnet], no node and no segment of the forest reaches the store. *)
Theorem existing_edge_without_weight (msf g : GeoGraph)
  (tr : list store_op) (es1 es2 : list edge) (e : edge) :
  node (graph g) ≠ [] →
  edges (graph g) = es1 ++ e :: es2 →
  Forall (λ e : edge, is_Some (weight e.2)) es1 →
  weight e.2 = None →
  _store_networks msf (Some g) tr =
    (tr ++ dataset_store.Subnet_new ::
       map (λ e, dataset_store.session_add_segment
                   (existing_segment (length tr) e)) es1,
     Err KeyError).
Proof.
  intros Hne Hedges Hes1 He.
  unfold _store_networks, existing_pass, truth.
  rewrite bool_decide_eq_true_2 by done.
  unfold mbind at 1, M_bind at 1.
  destruct (store_existing_trace g tr) as (es1' & r & -> & Hes1' & Hr).
  destruct Hr as [[-> ->]|(e' & es2' & -> & Heq & He')].
  - rewrite Hedges in Hes1'. apply Forall_app in Hes1' as [_ H].
    apply Forall_cons in H as [[w Hw] _]. congruence.
  - rewrite Hedges in Heq.
    by rewrite (first_without_weight _ _ _ _ _ _ Heq Hes1 Hes1' He He').
Qed.

Lemma existing_edge_without_weight_witness :
  _store_networks junction (Some unweighted_existing) [] =
    ([dataset_store.Subnet_new;
      dataset_store.session_add_segment
        (dataset_store.mkSegment (Str "grid-0") (Str "grid-1") 0 true
           (Finite 7))],
     Err KeyError).
Proof.
  apply (existing_edge_without_weight junction unweighted_existing []
           [(Str "grid-0", Str "grid-1",
             mkEdgeData (Some (Finite 7)) None None)]
           []
           (Str "grid-1", Str "grid-2", mkEdgeData None None None)).
  - discriminate.
  - reflexivity.
  - repeat constructor. by eexists.
  - reflexivity.
Defined.

(** ** What the persister never does *)

Lemma store_edge_frame (msf : GeoGraph) (sn : nat) (e : edge) tr :
  e ∈ edges (graph msf) →
  ∃ ops r, store_edge msf sn e tr = (tr ++ ops, r) ∧ persisted msf ops ∧
    Forall (λ s, dataset_store.is_existing s = false) (emitted ops).
Proof.
  intros Hin. destruct e as [[u v] d].
  assert (∀ n, n = u ∨ n = v → is_synthetic msf n → synthetic_end_of msf n)
    as Hend.
  { intros n Hn Hs. split; [done|]. exists (u, v, d). by split. }
  assert (∀ n c, is_synthetic msf n → dict_get (coords msf) n = Ok c →
            fake_record msf (c, true)) as Hrec.
  { intros n c Hs Hc. split; [done|]. by exists n. }
  unfold store_edge, fake_nodes, persisted. cbn [fst snd rmap].
  destruct (node_budget (node (graph msf)) u) as [bu|xu] eqn:Hu.
  2: { run. exists [], (Err xu). rewrite app_nil_r. repeat split; done. }
  destruct (node_budget (node (graph msf)) v) as [bv|xv] eqn:Hv.
  2: { run. exists [], (Err xv). rewrite app_nil_r. repeat split; done. }
  run.
  destruct (eq_inf bu) eqn:Eu, (eq_inf bv) eqn:Ev; simpl;
    rewrite ?eq_inf_true in *; subst;
    repeat match goal with
    | |- context [dict_get (coords msf) ?n] =>
        let Hc := fresh "Hc" in
        destruct (dict_get (coords msf) n) as [?|?] eqn:Hc; simpl
    end;
    destruct (weight d) as [w|] eqn:Hw; simpl;
    rewrite <- ?app_assoc; simpl;
    try (eexists _, _; split; [reflexivity|]);
    try (eexists [], _; split; [by rewrite app_nil_r|]);
    simpl; repeat split; repeat constructor; eauto.
Qed.

Lemma persisted_nil msf : persisted msf [].
Proof. repeat split; constructor. Qed.

Lemma persisted_app msf ops ops' :
  persisted msf ops → persisted msf ops' → persisted msf (ops ++ ops').
Proof.
  intros (H1 & H2) (H1' & H2'). unfold persisted.
  rewrite created_nodes_app, assigned_ids_app, !Forall_app. done.
Qed.

Lemma for_each_frame {A} (F : list store_op → Prop) (l : list A)
  (body : A → M unit) :
  F [] → (∀ ops ops', F ops → F ops' → F (ops ++ ops')) →
  (∀ a tr, a ∈ l → ∃ ops r, body a tr = (tr ++ ops, r) ∧ F ops) →
  ∀ tr, ∃ ops r, for_each l body tr = (tr ++ ops, r) ∧ F ops.
Proof.
  intros Hnil Happ. induction l as [|a l IH]; intros Hbody tr.
  - exists [], (Ok ()). by rewrite app_nil_r.
  - destruct (Hbody a tr) as (ops & r & Hrun & HF); [left|].
    simpl. unfold mbind, M_bind. rewrite Hrun. destruct r as [[]|x].
    + destruct (IH (λ b tr' Hb, Hbody b tr' (list_elem_of_further _ _ _ Hb))
                  (tr ++ ops)) as (ops' & r' & Hrun' & HF').
      exists (ops ++ ops'), r'. rewrite Hrun', app_assoc. split; [done|].
      by apply Happ.
    + by exists ops, (Err x).
Qed.

(** X13.  Whatever the forest and the existing network are, and whether
    the persister ends well or raises, it only adds calls to those made
    before; every record it creates with [store.addNode] is fake and
    lies at the coordinate the forest has for a synthetic node; every id
    it assigns is that of a synthetic end of an edge of the forest; and
    the segments it adds to the session are those of the existing pass,
    with [is_existing = True], followed by those of the proposed pass,
    with [is_existing = False]. *)
Theorem persister_frame (msf : GeoGraph) (existing : option GeoGraph)
  (tr : list store_op) :
  ∃ ops r ex pr,
    _store_networks msf existing tr = (tr ++ ops, r) ∧
    Forall (fake_record msf) (created_nodes ops) ∧
    Forall (synthetic_end_of msf) (assigned_ids ops) ∧
    emitted ops = ex ++ pr ∧
    Forall (λ s, dataset_store.is_existing s = true) ex ∧
    Forall (λ s, dataset_store.is_existing s = false) pr.
Proof.
  destruct (existing_pass_trace existing tr)
    as (ops1 & r1 & Hrun1 & Hcr1 & Hids1 & _ & Hex & _).
  unfold _store_networks. unfold mbind at 1, M_bind at 1. rewrite Hrun1.
  destruct r1 as [[]|x1].
  2: { exists ops1, (Err x1), (emitted ops1), [].
       rewrite Hcr1, Hids1, app_nil_r. repeat split; done. }
  set (F := λ ops, persisted msf ops ∧
    Forall (λ s, dataset_store.is_existing s = false) (emitted ops)).
  assert (F []) as Hnil.
  { split; [apply persisted_nil|constructor]. }
  assert (∀ ops ops', F ops → F ops' → F (ops ++ ops')) as Happ.
  { intros ops ops' [H1 H2] [H1' H2']. split; [by apply persisted_app|].
    rewrite emitted_app, Forall_app. done. }
  destruct (for_each_frame F (connected_component_subgraphs (graph msf))
    (λ subgraph,
       dataset_subnet ← call dataset_store.Subnet_new ;
       _ ← call (dataset_store.session_add_subnet dataset_subnet) ;
       _ ← call dataset_store.session_commit ;
       for_each (edges subgraph) (store_edge msf dataset_subnet))
    Hnil Happ) with (tr := tr ++ ops1) as (ops2 & r2 & Hrun2 & [[Hcr2 Hids2] Hpr]).
  { intros s tr0 Hs. run.
    destruct (for_each_frame F (edges s) (store_edge msf (length tr0))
                Hnil Happ) with
      (tr := ((tr0 ++ [dataset_store.Subnet_new]) ++
              [dataset_store.session_add_subnet (length tr0)]) ++
             [dataset_store.session_commit])
      as (ops & r & Hrun & HF).
    { intros e tr00 He. apply store_edge_frame. by eapply subgraph_edge_of. }
    rewrite Hrun.
    exists ([dataset_store.Subnet_new;
             dataset_store.session_add_subnet (length tr0);
             dataset_store.session_commit] ++ ops), r.
    split; [by rewrite <- !app_assoc|].
    apply Happ; [|done]. split; [|constructor]. apply persisted_nil. }
  unfold mbind at 1, M_bind at 1. fold (proposed_pass msf) in Hrun2.
  rewrite Hrun2. destruct r2 as [[]|x2]; run.
  - exists (ops1 ++ ops2 ++ [dataset_store.session_commit]), (Ok ()),
      (emitted ops1), (emitted ops2).
    rewrite <- !app_assoc. split; [done|].
    rewrite !created_nodes_app, !assigned_ids_app, !emitted_app, Hcr1, Hids1.
    simpl. rewrite !app_nil_r. done.
  - exists (ops1 ++ ops2), (Err x2), (emitted ops1), (emitted ops2).
    rewrite <- !app_assoc. split; [done|].
    rewrite !created_nodes_app, !assigned_ids_app, !emitted_app, Hcr1, Hids1.
    done.
Qed.

(** ** The graph of a store, in full *)

Lemma seg_to_nx_ids_Err (np : dict node_id) (s : Segment) e :
  seg_to_nx_ids np s = Err e → e = KeyError.
Proof.
  unfold seg_to_nx_ids.
  destruct (dict_get np (dataset_store.node1_id s)) as [a|x] eqn:Ha; simpl.
  - destruct (dict_get np (dataset_store.node2_id s)) as [b|x] eqn:Hb;
      simpl; [done|].
    intros [= <-]. by eapply dict_get_Err.
  - intros [= <-]. by eapply dict_get_Err.
Qed.

Lemma store_graph_refers (default_srs : proj4) (ds : dataset_store.Store) G :
  dataset_store_to_geograph default_srs ds = Ok G → segments_refer ds.
Proof.
  unfold dataset_store_to_geograph.
  change (dataset_store.cycleNodes ds false ++
          dataset_store.cycleNodes ds true) with (store_nodes ds).
  cbv zeta. rewrite (store_graph_nodes default_srs ds).
  cbn [mbind result_bind].
  destruct (rmap _ (dataset_store.cycleSegments ds false)) as [es|x] eqn:Hes;
    [|done].
  intros _ s Hs. apply rmap_Ok in Hes.
  destruct (Forall2_elem_l _ _ _ _ Hes Hs) as (p & _ & Hp).
  apply (seg_ids_value ds) in Hp as (i & j & ni & nj & _ & Hi & Hki & Hj & Hkj).
  rewrite <- Hki, <- Hkj. split.
  - apply list_elem_of_fmap_2, list_elem_of_fmap_2.
    by eapply list_elem_of_lookup_2.
  - apply list_elem_of_fmap_2, list_elem_of_fmap_2.
    by eapply list_elem_of_lookup_2.
Qed.

(** X14.  [dataset_store_to_geograph] returns a graph exactly when every
    segment of the store that is not existing joins ids of nodes of the
    store; a segment that does not makes it raise [KeyError], and it
    raises nothing else.  The existing segments are not looked at: they
    may join anything. *)
Theorem store_graph_succeeds_iff (default_srs : proj4)
  (ds : dataset_store.Store) :
  ((∃ G, dataset_store_to_geograph default_srs ds = Ok G) ↔
   segments_refer ds) ∧
  (∀ e, dataset_store_to_geograph default_srs ds = Err e → e = KeyError).
Proof.
  split; [split|].
  - intros [G HG]. by eapply store_graph_refers.
  - intros Hrefs.
    destruct (store_graph_spec default_srs ds Hrefs) as (G & HG & _).
    by exists G.
  - intros e. unfold dataset_store_to_geograph.
    change (dataset_store.cycleNodes ds false ++
            dataset_store.cycleNodes ds true) with (store_nodes ds).
    cbv zeta. rewrite (store_graph_nodes default_srs ds).
    cbn [mbind result_bind].
    destruct (rmap _ (dataset_store.cycleSegments ds false)) as [es|x] eqn:Hes.
    + intros Herr. exfalso.
      assert (segments_refer ds) as Hrefs.
      { intros s Hs. apply rmap_Ok in Hes.
        destruct (Forall2_elem_l _ _ _ _ Hes Hs) as (p & _ & Hp).
        apply (seg_ids_value ds) in Hp
          as (i & j & ni & nj & _ & Hi & Hki & Hj & Hkj).
        rewrite <- Hki, <- Hkj.
        split; apply list_elem_of_fmap_2, list_elem_of_fmap_2;
          by eapply list_elem_of_lookup_2. }
      destruct (store_graph_spec default_srs ds Hrefs) as (G & HG & _).
      unfold dataset_store_to_geograph in HG.
      change (dataset_store.cycleNodes ds false ++
              dataset_store.cycleNodes ds true) with (store_nodes ds) in HG.
      cbv zeta in HG. rewrite (store_graph_nodes default_srs ds) in HG.
      cbn [mbind result_bind] in HG. rewrite Hes in HG.
      cbn [mbind result_bind] in HG, Herr. congruence.
    + cbn [mbind result_bind]. intros [= <-].
      apply (rmap_Err (λ e, e = KeyError) _ _ _
               (λ s e' _, seg_to_nx_ids_Err _ s e') Hes).
Qed.

Lemma store_graph_succeeds_iff_witness :
  (∃ G, dataset_store_to_geograph PROJ4_LATLONG stored_network = Ok G) ∧
  dataset_store_to_geograph PROJ4_LATLONG dangling_store = Err KeyError.
Proof.
  split.
  - apply (proj1 (store_graph_succeeds_iff PROJ4_LATLONG stored_network)).
    exact stored_network_refs.
  - vm_compute. reflexivity.
Defined.

(** ** The edges of the graph of a store *)

Lemma distinct_ends_app (l : list (node_id * node_id)) p l' :
  distinct_ends (l ++ p :: l') →
  Forall (λ q, ¬ same_ends q p) l ∧ distinct_ends ((l ++ [p]) ++ l').
Proof.
  rewrite <- app_assoc. simpl. split; [|done].
  induction l as [|q l IH]; [constructor|].
  simpl in H. destruct H as [Hq Hd]. constructor; [|by apply IH].
  rewrite Forall_app in Hq. destruct Hq as [_ Hq].
  by apply Forall_cons in Hq as [Hq _].
Qed.

Lemma distinct_ends_NoDup (ps : list (node_id * node_id)) :
  distinct_ends ps → NoDup (prod_map key key <$> ps).
Proof.
  induction ps as [|p ps IH]; [constructor|].
  intros [Hp Hd]. rewrite fmap_cons. constructor; [|by apply IH].
  intros Hin. apply list_elem_of_fmap in Hin as (q & Hq & Hin).
  rewrite Forall_forall in Hp. apply (Hp q Hin). by left.
Qed.

Lemma fold_add_edge_exact (ps : list (node_id * node_id)) (g : Graph) :
  (∀ p, p ∈ ps →
     key p.1 ∈ key <$> node_ids g ∧ key p.2 ∈ key <$> node_ids g) →
  distinct_ends (edge_ends g ++ ps) →
  fold_left add_edge ps g =
    mkGraph (node g) (edges g ++ map (λ p, (p, no_edge_data)) ps).
Proof.
  revert g. induction ps as [|[u v] ps IH]; intros g Hin Hd.
  - simpl. rewrite app_nil_r. by destruct g.
  - apply distinct_ends_app in Hd as [Hnew Hd].
    destruct (Hin (u, v)) as [Hu Hv]; [left|]. simpl in Hu, Hv.
    assert (add_edge g (u, v) =
            mkGraph (node g) (edges g ++ [(u, v, no_edge_data)])) as Hstep.
    { unfold add_edge. cbn [fst snd].
      rewrite (add_node_present (node g) u) by done.
      rewrite (add_node_present (node g) v) by done.
      destruct (existsb (same_edge u v) (edges g)) eqn:Hex; [|done].
      apply existsb_exists in Hex as (e & He & Hs).
      apply same_edge_spec in Hs. rewrite Forall_forall in Hnew.
      destruct (Hnew e.1); [|done].
      apply list_elem_of_fmap_2. by apply list_elem_of_In. }
    cbn [fold_left]. rewrite Hstep, IH.
    + cbn [node edges]. by rewrite <- app_assoc.
    + intros p Hp. apply Hin. by right.
    + unfold edge_ends in *. cbn [edges].
      by rewrite fmap_app.
Qed.

Lemma set_edge_attr_at (upd : EdgeData → EdgeData) (done : list edge)
  (e : edge) (tail : list edge) :
  Forall (λ q : edge, ¬ same_ends q.1 e.1) done →
  set_edge_attr upd (done ++ e :: tail) e.1.1 e.1.2 =
    Ok (done ++ (e.1, upd e.2) :: tail).
Proof.
  induction done as [|q done IH]; intros Hd.
  - simpl.
    assert (same_edge e.1.1 e.1.2 e = true) as ->; [|done].
    apply same_edge_spec. left. by destruct e as [[u v] d].
  - apply Forall_cons in Hd as [Hq Hd]. simpl.
    destruct (same_edge e.1.1 e.1.2 q) eqn:Hs.
    + apply same_edge_spec in Hs. destruct Hq. by destruct e as [[u v] d].
    + by rewrite IH.
Qed.

Lemma fold_set_exact {A} (upd : A → EdgeData → EdgeData)
  (rest done : list edge) (vals : list A) :
  length vals = length rest →
  distinct_ends ((done ++ rest).*1) →
  fold_left (λ acc kv, es ← acc ;
                       set_edge_attr (upd kv.2) es kv.1.1 kv.1.2)
    (zip rest.*1 vals) (Ok (done ++ rest)) =
  Ok (done ++ zip_with (λ e v, (e.1, upd v e.2)) rest vals).
Proof.
  revert done vals. induction rest as [|e rest IH]; intros done vals Hlen Hd.
  - done.
  - destruct vals as [|v vals]; [done|]. simpl in Hlen.
    rewrite fmap_app, fmap_cons in Hd.
    destruct (distinct_ends_app _ _ _ Hd) as [Hnew _].
    rewrite fmap_cons. cbn [zip zip_with fold_left mbind result_bind fst snd].
    rewrite set_edge_attr_at.
    2: { apply Forall_forall. intros q Hq. rewrite Forall_forall in Hnew.
         apply Hnew. by apply list_elem_of_fmap_2. }
    specialize (IH (done ++ [(e.1, upd v e.2)]) vals).
    rewrite <- !app_assoc in IH. simpl in IH. apply IH; [lia|].
    rewrite fmap_app, fmap_cons. simpl. exact Hd.
Qed.

Lemma set_edge_attributes_exact {A} (upd : A → EdgeData → EdgeData)
  (g : Graph) (vals : list A) :
  length vals = length (edges g) →
  distinct_ends (edge_ends g) →
  set_edge_attributes g upd (zip (edge_ends g) vals) =
    Ok (mkGraph (node g)
          (zip_with (λ e v, (e.1, upd v e.2)) (edges g) vals)).
Proof.
  intros Hlen Hd. unfold set_edge_attributes, edge_ends.
  pose proof (fold_set_exact upd (edges g) [] vals Hlen Hd) as H.
  cbn [app] in H. by rewrite H.
Qed.

Lemma zip_with_ends {A} (upd : A → EdgeData → EdgeData) (E : list edge)
  (vals : list A) :
  length vals = length E →
  (zip_with (λ e v, (e.1, upd v e.2)) E vals).*1 = E.*1.
Proof.
  revert vals. induction E as [|e E IH]; intros [|v vals] Hlen; try done.
  simpl in Hlen. cbn [zip_with]. rewrite !fmap_cons. cbn [fst].
  rewrite IH; [done|lia].
Qed.

Lemma zip_fmap_eq {A B} (items : list (A * B)) (l : list A) (k : list B) :
  items.*1 = l → items.*2 = k → items = zip l k.
Proof. intros <- <-. by rewrite zip_fst_snd. Qed.

Section store_edges.
Variable default_srs : proj4.
Variable ds : dataset_store.Store.
Hypothesis integrity : segments_refer ds.
Hypothesis one_segment :
  distinct_ends (segment_ends <$> dataset_store.cycleSegments ds false).

Let all := store_nodes ds.
Let N (i : nat) : node_id := Num (Int (Z.of_nat i)).
Let np : dict node_id :=
  dict_of_items (imap (λ i n, (dataset_store.id n, N i)) all).
Let segs := dataset_store.cycleSegments ds false.

(** The edge of a segment joins the numbers of its nodes. *)
Let joins (s : Segment) (p : node_id * node_id) : Prop :=
  ∃ i j ni nj, p = (N i, N j) ∧
    all !! i = Some ni ∧
    key (dataset_store.id ni) = key (dataset_store.node1_id s) ∧
    all !! j = Some nj ∧
    key (dataset_store.id nj) = key (dataset_store.node2_id s).

Lemma joins_same s s' p p' :
  joins s p → joins s' p' → same_ends p p' →
  same_ends (segment_ends s) (segment_ends s').
Proof.
  intros (i & j & ni & nj & -> & Hi & Hki & Hj & Hkj)
         (i' & j' & ni' & nj' & -> & Hi' & Hki' & Hj' & Hkj') Hs.
  unfold same_ends, segment_ends, prod_map in *. simpl in *.
  destruct Hs as [Hs|Hs]; inversion Hs;
    repeat match goal with
    | H : Z.of_nat _ = Z.of_nat _ |- _ => apply Nat2Z.inj in H; subst
    end; simplify_eq; [left|right]; congruence.
Qed.

Lemma joined_distinct (ss : list Segment) (ps : list (node_id * node_id)) :
  Forall2 joins ss ps →
  distinct_ends (segment_ends <$> ss) → distinct_ends ps.
Proof.
  induction 1 as [|s p ss ps Hsp HF IH]; [done|].
  rewrite fmap_cons. intros [Hs Hd]. split; [|by apply IH].
  apply Forall_forall. intros p' Hp' Hsame.
  destruct (Forall2_elem_r _ _ _ _ HF Hp') as (s' & Hs' & Hsp').
  rewrite Forall_forall in Hs. apply (Hs (segment_ends s')).
  - by apply list_elem_of_fmap_2.
  - by eapply joins_same.
Qed.

Lemma store_edges_spec :
  ∃ G es,
    dataset_store_to_geograph default_srs ds = Ok G ∧
    Forall2 joins segs es ∧
    edges (graph G) = zip_with (λ s p, (p, segment_data s)) segs es.
Proof.
  destruct (seg_ids_total ds integrity) as [es Hes].
  assert (Forall2 joins segs es) as Hjoins.
  { apply rmap_Ok in Hes. eapply Forall2_impl; [exact Hes|].
    intros s p Hp. by apply (seg_ids_value ds) in Hp. }
  pose proof (joined_distinct _ _ Hjoins one_segment) as Hd.
  pose proof (Forall2_length _ _ _ Hjoins) as Hlen.
  eexists _, es.
  unfold joins, np, segs, N, all in *. clear joins np segs N all.
  set (nodes := store_nodes ds) in *.
  set (segs := dataset_store.cycleSegments ds false) in *.
  set (np := dict_of_items (imap _ nodes)) in *.
  assert (∀ {A} (f : Segment → A),
    edge_dict np f segs = Ok (zip es (f <$> segs))) as Hdict.
  { intros A f. destruct (rmap_tagged _ f _ _ Hes) as (items & Hit & H1 & H2).
    unfold edge_dict. rewrite Hit. cbn [mbind result_bind].
    rewrite (assoc_of_items_nodup pair_eqb (prod_map key key) pair_eqb_key).
    - by rewrite (zip_fmap_eq items _ _ H1 H2).
    - rewrite H1. by apply distinct_ends_NoDup. }
  set (g1 := mkGraph
    (imap (λ i n, (Num (Int (Z.of_nat i)),
                   mkNodeData (Some (dataset_store.metric n)))) nodes)
    []).
  assert (add_edges_from g1 es =
          mkGraph (node g1) (map (λ p, (p, no_edge_data)) es)) as Hg2.
  { unfold add_edges_from. rewrite fold_add_edge_exact; [done| |done].
    intros p Hp.
    destruct (Forall2_elem_r _ _ _ _ Hjoins Hp) as (s & Hs & Hp').
    destruct Hp' as (i & j & ni & nj & -> & Hi & _ & Hj & _).
    assert (∀ i n, nodes !! i = Some n →
              key (Num (Int (Z.of_nat i))) ∈ key <$> node_ids g1) as Hin.
    { intros i' n' Hi'. apply list_elem_of_fmap_2.
      unfold node_ids, g1. simpl. rewrite fmap_imap.
      apply (elem_of_lookup_imap_2
               (λ n, fst ∘ λ n0 : dataset_store.Node,
                  (Num (Int (Z.of_nat n)),
                   mkNodeData (Some (dataset_store.metric n0))))
               nodes n' i' Hi'). }
    split; eauto. }
  assert (∀ l : list (node_id * node_id),
    (map (λ p, (p, no_edge_data)) l).*1 = l) as Hfst.
  { intros l. induction l as [|x l IH]; [done|].
    cbn [map]. rewrite fmap_cons. cbn [fst]. by rewrite IH. }
  split.
  { unfold dataset_store_to_geograph.
    change (dataset_store.cycleNodes ds false ++
            dataset_store.cycleNodes ds true) with (store_nodes ds).
    cbv zeta. rewrite (store_graph_nodes default_srs ds).
    fold nodes g1 segs np. cbn [mbind result_bind].
    rewrite Hes. cbn [mbind result_bind].
    rewrite !Hdict. cbn [mbind result_bind]. rewrite Hg2.
    set (E0 := map (λ p, (p, no_edge_data)) es).
    replace es with (edge_ends (mkGraph (node g1) E0)) at 1
      by (unfold edge_ends, E0; simpl; apply Hfst).
    rewrite set_edge_attributes_exact; cycle 1.
    { unfold E0. cbn [edges]. by rewrite length_fmap, length_map. }
    { unfold edge_ends, E0. simpl. by rewrite Hfst. }
    cbn [mbind result_bind edges node].
    set (E1 := zip_with _ E0 _).
    assert (E1.*1 = es) as H1.
    { unfold E1. rewrite zip_with_ends; [apply Hfst|].
      unfold E0. by rewrite length_fmap, length_map. }
    replace es with (edge_ends (mkGraph (node g1) E1)) at 1
      by (unfold edge_ends; simpl; exact H1).
    rewrite set_edge_attributes_exact; cycle 1.
    { cbn [edges]. rewrite length_fmap.
      pose proof (f_equal length H1) as L. rewrite length_fmap in L.
      transitivity (length es); [exact Hlen|symmetry; exact L]. }
    { unfold edge_ends. simpl. by rewrite H1. }
    cbn [mbind result_bind edges node].
    set (E2 := zip_with _ E1 _).
    assert (E2.*1 = es) as H2.
    { unfold E2. rewrite zip_with_ends; [exact H1|].
      rewrite length_fmap.
      pose proof (f_equal length H1) as L. rewrite length_fmap in L.
      transitivity (length es); [exact Hlen|symmetry; exact L]. }
    replace es with (edge_ends (mkGraph (node g1) E2)) at 1
      by (unfold edge_ends; simpl; exact H2).
    rewrite set_edge_attributes_exact; cycle 1.
    { cbn [edges]. rewrite length_fmap.
      pose proof (f_equal length H2) as L. rewrite length_fmap in L.
      transitivity (length es); [exact Hlen|symmetry; exact L]. }
    { unfold edge_ends. simpl. by rewrite H2. }
    cbn [mbind result_bind edges node]. reflexivity. }
  split; [exact Hjoins|].
  cbn [graph edges].
  clear -Hlen. revert es Hlen.
  induction segs as [|s ss IH]; intros [|p ps] Hlen; try done.
  simpl in *. f_equal. apply IH. lia.
Qed.
End store_edges.

(** X15.  When the segments of the store that are not existing join nodes
    of the store and no two of them join the same pair of nodes, the
    edges of the graph that [dataset_store_to_geograph] returns match
    these segments one to one: the edge of a segment joins the numbers
    of the two nodes of the segment, whichever of them comes first, and
    carries the weight and the subnet id of the segment, with
    [is_existing = False].  Nothing is said of the order in which the
    graph lists its edges. *)
Theorem store_graph_edges (default_srs : proj4) (ds : dataset_store.Store) :
  segments_refer ds →
  distinct_ends (segment_ends <$> dataset_store.cycleSegments ds false) →
  ∃ G es, dataset_store_to_geograph default_srs ds = Ok G ∧
    es ≡ₚ edges (graph G) ∧
    Forall2 (λ s e,
      e.2 = mkEdgeData (Some (dataset_store.weight s)) (Some false)
                       (Some (dataset_store.subnet_id s)) ∧
      ∃ i j ni nj,
        same_ends e.1 (Num (Int (Z.of_nat i)), Num (Int (Z.of_nat j))) ∧
        store_nodes ds !! i = Some ni ∧
        key (dataset_store.id ni) = key (dataset_store.node1_id s) ∧
        store_nodes ds !! j = Some nj ∧
        key (dataset_store.id nj) = key (dataset_store.node2_id s))
      (dataset_store.cycleSegments ds false) es.
Proof.
  intros Hrefs Hone.
  destruct (store_edges_spec default_srs ds Hrefs Hone)
    as (G & es & HG & Hjoins & Hedges).
  exists G, (edges (graph G)). split; [done|]. split; [done|].
  rewrite Hedges.
  assert (Forall (λ s, dataset_store.is_existing s = false)
            (dataset_store.cycleSegments ds false)) as Hprop.
  { apply Forall_forall. intros s Hs.
    unfold dataset_store.cycleSegments in Hs.
    by apply list_elem_of_filter in Hs as [? _]. }
  clear Hedges HG Hone Hrefs.
  induction Hjoins as [|s p ss ps Hsp _ IH]; [constructor|].
  apply Forall_cons in Hprop as [Hs Hprop].
  cbn [zip_with]. constructor; [|by apply IH].
  split; [unfold segment_data; cbn [snd]; by rewrite Hs|].
  destruct Hsp as (i & j & ni & nj & -> & Hrest).
  exists i, j, ni, nj. split; [by left|exact Hrest].
Qed.

Lemma stored_network_one_segment :
  distinct_ends
    (segment_ends <$> dataset_store.cycleSegments stored_network false).
Proof.
  change (dataset_store.cycleSegments stored_network false) with
    [dataset_store.mkSegment (Num (Int 1)) (Num (Int 3)) 1 false (Finite 5);
     dataset_store.mkSegment (Num (Int 3)) (Num (Int 2)) 1 false (Finite 6)].
  simpl. repeat split; repeat constructor.
  intros [H|H]; vm_compute in H; discriminate H.
Defined.

Lemma store_graph_edges_witness :
  segments_refer stored_network ∧
  distinct_ends
    (segment_ends <$> dataset_store.cycleSegments stored_network false) ∧
  ∃ G es, dataset_store_to_geograph PROJ4_LATLONG stored_network = Ok G ∧
    es ≡ₚ edges (graph G) ∧ length es = 2%nat.
Proof.
  split; [exact stored_network_refs|].
  split; [exact stored_network_one_segment|].
  destruct (store_graph_edges PROJ4_LATLONG stored_network
              stored_network_refs stored_network_one_segment)
    as (G & es & HG & Hp & HF).
  exists G, es. split; [exact HG|]. split; [exact Hp|].
  transitivity
    (length (dataset_store.cycleSegments stored_network false));
    [symmetry; exact (Forall2_length _ _ _ HF)|reflexivity].
Defined.

(** ** The graph of a store without network *)

(** X16.  For a store that has no segment that is not existing,
    [dataset_store_to_geograph] returns the graph of its records, real
    ones before fake ones, without edges, also when the store has no
    record at all; when the store has no fake node either, this is the
    demand graph that [_get_demand_nodes] builds of the store under the
    same projection. *)
Theorem store_graph_without_segments (default_srs : proj4)
  (ds : dataset_store.Store) :
  dataset_store.cycleSegments ds false = [] →
  dataset_store_to_geograph default_srs ds =
    Ok (graph_of_records default_srs (store_nodes ds)) ∧
  (dataset_store.cycleNodes ds true = [] →
   default_srs ≠ PROJ4_OTHER EmptyString →
   dataset_store_to_geograph default_srs ds =
     _get_demand_nodes ds (Some default_srs)).
Proof.
  intros Hsegs.
  assert (dataset_store_to_geograph default_srs ds =
          Ok (graph_of_records default_srs (store_nodes ds))) as Heq.
  { unfold dataset_store_to_geograph.
    change (dataset_store.cycleNodes ds false ++
            dataset_store.cycleNodes ds true) with (store_nodes ds).
    cbv zeta. rewrite (store_graph_nodes default_srs ds), Hsegs.
    cbn. unfold graph_of_records. by rewrite dict_of_enumerate. }
  split; [exact Heq|]. intros Hfake Hsrs. rewrite Heq.
  unfold store_nodes. rewrite Hfake, app_nil_r. symmetry.
  unfold _get_demand_nodes. cbn [mbind result_bind]. apply records_graph.
Qed.

Lemma store_graph_without_segments_witness :
  dataset_store_to_geograph PROJ4_LATLONG small_store =
    Ok (graph_of_records PROJ4_LATLONG (dataset_store.nodes small_store)).
Proof.
  exact (proj1 (store_graph_without_segments PROJ4_LATLONG small_store
                  eq_refl)).
Defined.

(** ** The graph of a store is a simple graph *)

Lemma set_edge_attr_ends (upd : EdgeData → EdgeData) (es : list edge)
  u v es' :
  set_edge_attr upd es u v = Ok es' → es'.*1 = es.*1.
Proof.
  revert es'. induction es as [|e es IH]; intros es'; [done|].
  cbn [set_edge_attr]. destruct (same_edge u v e).
  - by intros [= <-].
  - destruct (set_edge_attr upd es u v) as [es''|] eqn:H; [|done].
    cbn [mbind result_bind]. intros [= <-].
    by rewrite !fmap_cons, (IH es'').
Qed.

Lemma set_edge_attributes_ends {A} (upd : A → EdgeData → EdgeData)
  (g g' : Graph) (attrs : list (node_id * node_id * A)) :
  set_edge_attributes g upd attrs = Ok g' →
  node g' = node g ∧ edge_ends g' = edge_ends g.
Proof.
  unfold set_edge_attributes, edge_ends.
  assert (∀ acc es',
    fold_left (λ acc kv, es ← acc ;
                 set_edge_attr (upd kv.2) es kv.1.1 kv.1.2) attrs acc =
      Ok es' →
    ∃ es, acc = Ok es ∧ es'.*1 = es.*1) as Hfold.
  { induction attrs as [|kv attrs IH]; intros acc es'; simpl.
    - intros ->. by exists es'.
    - intros H. apply IH in H as (es1 & H1 & Heq).
      destruct acc as [es|]; [|done]. cbn [mbind result_bind] in H1.
      exists es. split; [done|].
      rewrite Heq. by eapply set_edge_attr_ends. }
  destruct (fold_left _ attrs (Ok (edges g))) as [es'|] eqn:H; [|done].
  cbn [mbind result_bind]. intros [= <-].
  apply Hfold in H as (es & [= <-] & Heq). done.
Qed.

Lemma numbered_NoDup (n : nat) :
  NoDup ((λ i, Num (Int (Z.of_nat i))) <$> seq 0 n).
Proof.
  apply NoDup_fmap_2; [|apply NoDup_seq].
  intros i j Hij. inversion Hij. lia.
Qed.

(** The graph of a store is simple and has an edge for every segment
    that is not existing. *)
Lemma store_graph_cover (default_srs : proj4) (ds : dataset_store.Store) :
  segments_refer ds →
  ∃ G, dataset_store_to_geograph default_srs ds = Ok G ∧
    graph_wf (graph G) ∧
    distinct_ends (edge_ends (graph G)) ∧
    ∀ s, s ∈ dataset_store.cycleSegments ds false →
      ∃ e i j ni nj, e ∈ edges (graph G) ∧
        same_ends e.1 (Num (Int (Z.of_nat i)), Num (Int (Z.of_nat j))) ∧
        store_nodes ds !! i = Some ni ∧
        key (dataset_store.id ni) = key (dataset_store.node1_id s) ∧
        store_nodes ds !! j = Some nj ∧
        key (dataset_store.id nj) = key (dataset_store.node2_id s).
Proof.
  intros Hrefs.
  destruct (store_graph_spec default_srs ds Hrefs)
    as (G & HG & Hnodes & _ & Hedges).
  exists G. split; [exact HG|].
  assert (node_ids (graph G) =
          (λ i, Num (Int (Z.of_nat i))) <$> seq 0 (length (store_nodes ds)))
    as Hids.
  { unfold node_ids. rewrite Hnodes, fmap_imap.
    unfold compose. simpl.
    rewrite <- (enumerate_keys (store_nodes ds)). unfold enumerate.
    by rewrite fmap_imap. }
  assert (∀ i n, store_nodes ds !! i = Some n →
            Num (Int (Z.of_nat i)) ∈ node_ids (graph G)) as Hin.
  { intros i n Hi. rewrite Hids. apply numbered_elem. exists i.
    split; [done|]. by eapply lookup_lt_Some. }
  split; [split|].
  { rewrite Hids. apply numbered_NoDup. }
  { intros u v d He.
    destruct (Hedges _ He) as (_ & s & i & j & ni & nj & _ & _ & Heq & Hi &
                               _ & Hj & _).
    simpl in Heq. inversion Heq; subst. eauto. }
  revert HG. unfold dataset_store_to_geograph.
  change (dataset_store.cycleNodes ds false ++
          dataset_store.cycleNodes ds true) with (store_nodes ds).
  cbv zeta. rewrite (store_graph_nodes default_srs ds).
  cbn [mbind result_bind].
  set (g1 := mkGraph _ []).
  destruct (rmap _ (dataset_store.cycleSegments ds false)) as [es|] eqn:Hes;
    [|done].
  cbn [mbind result_bind].
  destruct (edge_dict _ dataset_store.weight _) as [aw|]; [|done].
  destruct (edge_dict _ dataset_store.is_existing _) as [ax|]; [|done].
  destruct (edge_dict _ dataset_store.subnet_id _) as [an|]; [|done].
  cbn [mbind result_bind].
  destruct (set_edge_attributes _ set_weight aw) as [g3|] eqn:H3; [|done].
  cbn [mbind result_bind].
  destruct (set_edge_attributes g3 set_is_existing ax) as [g4|] eqn:H4;
    [|done].
  cbn [mbind result_bind].
  destruct (set_edge_attributes g4 set_subnet_id an) as [g5|] eqn:H5;
    [|done].
  cbn [mbind result_bind]. intros [= <-]. cbn [graph].
  apply set_edge_attributes_ends in H3 as [_ H3].
  apply set_edge_attributes_ends in H4 as [_ H4].
  apply set_edge_attributes_ends in H5 as [_ H5].
  assert (edge_ends g5 = edge_ends (add_edges_from g1 es)) as Hends
    by congruence.
  pose proof (rmap_Ok _ _ _ Hes) as Hsegs.
  destruct (add_edges_from_spec g1 es eq_refl) as (_ & Hd & _ & Hcover).
  { intros p Hp. destruct (Forall2_elem_r _ _ _ _ Hsegs Hp) as (s & Hs & Hp').
    apply (seg_ids_value ds) in Hp'
      as (i & j & ni & nj & -> & Hi & _ & Hj & _).
    assert (∀ i n, store_nodes ds !! i = Some n →
              key (Num (Int (Z.of_nat i))) ∈ key <$> node_ids g1) as Hin1.
    { intros i' n' Hi'. apply list_elem_of_fmap_2.
      unfold node_ids, g1. simpl. rewrite fmap_imap.
      apply (elem_of_lookup_imap_2
               (λ n, fst ∘ λ n0 : dataset_store.Node,
                  (Num (Int (Z.of_nat n)),
                   mkNodeData (Some (dataset_store.metric n0))))
               (store_nodes ds) n' i' Hi'). }
    split; eauto. }
  split; [by rewrite Hends|].
  intros s Hs. destruct (Forall2_elem_l _ _ _ _ Hsegs Hs) as (p & Hp & Hsp).
  apply (seg_ids_value ds) in Hsp as (i & j & ni & nj & -> & Hi & Hki & Hj & Hkj).
  destruct (Hcover _ Hp) as (e & He & Hsame).
  assert (e.1 ∈ edge_ends g5) as He5.
  { rewrite Hends. by apply list_elem_of_fmap_2. }
  apply list_elem_of_fmap in He5 as (e5 & Heq & He5).
  exists e5, i, j, ni, nj. split; [done|]. rewrite <- Heq. done.
Qed.

(** X17.  When the segments of the store that are not existing join
    nodes of the store, the graph that [dataset_store_to_geograph]
    returns is a simple graph: its nodes differ, the ends of its edges
    are nodes of it, and no two edges join the same pair of nodes,
    whichever way round.  Every such segment has its edge: segments
    between the same two nodes share one. *)
Theorem store_graph_simple (default_srs : proj4) (ds : dataset_store.Store) :
  segments_refer ds →
  ∃ G, dataset_store_to_geograph default_srs ds = Ok G ∧
    graph_wf (graph G) ∧
    distinct_ends (edge_ends (graph G)) ∧
    ∀ s, s ∈ dataset_store.cycleSegments ds false →
      ∃ e i j ni nj, e ∈ edges (graph G) ∧
        same_ends e.1 (Num (Int (Z.of_nat i)), Num (Int (Z.of_nat j))) ∧
        store_nodes ds !! i = Some ni ∧
        key (dataset_store.id ni) = key (dataset_store.node1_id s) ∧
        store_nodes ds !! j = Some nj ∧
        key (dataset_store.id nj) = key (dataset_store.node2_id s).
Proof. exact (store_graph_cover default_srs ds). Qed.

Lemma doubled_store_refs : segments_refer doubled_store.
Proof.
  intros s Hs.
  change (dataset_store.cycleSegments doubled_store false) with
    [dataset_store.mkSegment (Num (Int 1)) (Num (Int 2)) 1 false (Finite 5);
     dataset_store.mkSegment (Num (Int 2)) (Num (Int 1)) 2 false (Finite 6)]
    in Hs.
  apply elem_of_cons in Hs as [->|Hs];
    [|apply list_elem_of_singleton in Hs as ->];
    split; apply (bool_decide_unpack _); vm_compute; exact I.
Defined.

Lemma store_graph_simple_witness :
  segments_refer doubled_store ∧
  ∃ G, dataset_store_to_geograph PROJ4_LATLONG doubled_store = Ok G ∧
    edge_ends (graph G) = [(Num (Int 0), Num (Int 1))].
Proof.
  split; [exact doubled_store_refs|].
  destruct (store_graph_simple PROJ4_LATLONG doubled_store doubled_store_refs)
    as (G & HG & _).
  exists G. split; [exact HG|]. revert HG. vm_compute. by intros [= <-].
Defined.

(** ** The graph of a store holds the proposed network *)

(** C10.  For a store whose proposed segments join nodes of the store,
    [dataset_store_to_geograph] returns a graph that has a node for every
    node of the store, the real ones before the fake ones, with its
    coordinate and its budget; every segment of the store that is not
    existing has its edge in the graph, between the numbers of its two
    nodes; and every edge of the graph carries [is_existing = False] and
    joins the nodes of a segment of the store that is not existing, so
    that no existing segment is an edge of it.  An edge is known by its
    two ends, whichever of them comes first. *)
Theorem dataset_store_to_geograph_proposed_only (default_srs : proj4)
  (ds : dataset_store.Store) :
  (∀ s, s ∈ dataset_store.cycleSegments ds false →
     key (dataset_store.node1_id s) ∈
       key <$> (dataset_store.id <$> store_nodes ds) ∧
     key (dataset_store.node2_id s) ∈
       key <$> (dataset_store.id <$> store_nodes ds)) →
  ∃ G, dataset_store_to_geograph default_srs ds = Ok G ∧
    node (graph G) =
      imap (λ i n, (Num (Int (Z.of_nat i)),
                    mkNodeData (Some (dataset_store.metric n))))
        (store_nodes ds) ∧
    coords G =
      enumerate (map dataset_store.getCommonCoordinates (store_nodes ds)) ∧
    (∀ s, s ∈ dataset_store.segments ds →
       dataset_store.is_existing s = false →
       ∃ e i j ni nj,
         e ∈ edges (graph G) ∧
         edge_is_existing e.2 = Some false ∧
         same_ends e.1 (Num (Int (Z.of_nat i)), Num (Int (Z.of_nat j))) ∧
         store_nodes ds !! i = Some ni ∧
         key (dataset_store.id ni) = key (dataset_store.node1_id s) ∧
         store_nodes ds !! j = Some nj ∧
         key (dataset_store.id nj) = key (dataset_store.node2_id s)) ∧
    (∀ e, e ∈ edges (graph G) →
       edge_is_existing e.2 = Some false ∧
       ∃ s i j ni nj,
         s ∈ dataset_store.segments ds ∧
         dataset_store.is_existing s = false ∧
         same_ends e.1 (Num (Int (Z.of_nat i)), Num (Int (Z.of_nat j))) ∧
         store_nodes ds !! i = Some ni ∧
         key (dataset_store.id ni) = key (dataset_store.node1_id s) ∧
         store_nodes ds !! j = Some nj ∧
         key (dataset_store.id nj) = key (dataset_store.node2_id s)).
Proof.
  intros Hrefs.
  destruct (store_graph_spec default_srs ds Hrefs)
    as (G & HG & Hnodes & Hcoords & Hedges).
  destruct (store_graph_cover default_srs ds Hrefs)
    as (G' & HG' & _ & _ & Hcover).
  assert (G' = G) as -> by congruence.
  exists G. split; [exact HG|]. split; [exact Hnodes|].
  split; [exact Hcoords|]. split.
  - intros s Hs Hex.
    destruct (Hcover s) as (e & i & j & ni & nj & He & Hrest).
    { unfold dataset_store.cycleSegments. by apply list_elem_of_filter. }
    exists e, i, j, ni, nj. split; [exact He|].
    split; [exact (proj1 (Hedges e He))|exact Hrest].
  - intros e He. destruct (Hedges e He)
      as (Hex & s & i & j & ni & nj & Hs & Hsx & Heq & Hrest).
    split; [exact Hex|]. exists s, i, j, ni, nj.
    split; [exact Hs|]. split; [exact Hsx|]. split; [|exact Hrest].
    rewrite Heq. by left.
Qed.

Lemma dataset_store_to_geograph_proposed_only_witness :
  (∀ s, s ∈ dataset_store.cycleSegments stored_network false →
     key (dataset_store.node1_id s) ∈
       key <$> (dataset_store.id <$> store_nodes stored_network) ∧
     key (dataset_store.node2_id s) ∈
       key <$> (dataset_store.id <$> store_nodes stored_network)) ∧
  ∃ G, dataset_store_to_geograph PROJ4_LATLONG stored_network = Ok G ∧
    (∀ e, e ∈ edges (graph G) → edge_is_existing e.2 = Some false) ∧
    (∃ e, e ∈ edges (graph G) ∧
       same_ends e.1 (Num (Int 2), Num (Int 1))) ∧
    ¬ (∃ e, e ∈ edges (graph G) ∧ same_ends e.1 (Num (Int 0), Num (Int 1))).
Proof.
  split; [exact stored_network_refs|].
  destruct (dataset_store_to_geograph_proposed_only PROJ4_LATLONG
              stored_network stored_network_refs)
    as (G & HG & _ & _ & Hc & He).
  exists G. split; [exact HG|].
  split; [intros e Hin; exact (proj1 (He e Hin))|].
  revert HG. vm_compute. intros [= <-]. split.
  - eexists. split; [right; left|]. by left.
  - intros (e & Hin & Hsame).
    apply elem_of_cons in Hin as [->|Hin];
      [|apply list_elem_of_singleton in Hin as ->];
      destruct Hsame as [H|H]; vm_compute in H; discriminate H.
Defined.

(** ** The coordinates after the realignment *)

(** X18.  On a graph whose ids are integers that differ, each with a
    coordinate, the realignment returns a graph whose coordinates are
    keyed by its nodes and by nothing else: as keys of a dict, the keys
    of the coordinates are the ids of the nodes, in the same order, so
    that the coordinates of the nodes that the filter dropped are
    dropped and every node has one. *)
Theorem realign_coords_cover (result_geo_graph : GeoGraph) (fg : Graph) :
  (∀ i, i ∈ node_ids fg → demand_id i) →
  NoDup (key <$> node_ids fg) →
  (∀ i, i ∈ node_ids fg →
     ∃ c, dict_get (coords result_geo_graph) i = Ok c) →
  (∀ u v d, (u, v, d) ∈ edges fg → u ∈ node_ids fg ∧ v ∈ node_ids fg) →
  ∃ msf, realign result_geo_graph (Some fg) = Ok msf ∧
    key <$> (coords msf).*1 = key <$> node_ids (graph msf).
Proof.
  intros Hd Hnd Hc He.
  destruct (realign_spec result_geo_graph fg Hd Hnd Hc He)
    as (msf & Hmsf & _ & Hnodes & _).
  exists msf. split; [exact Hmsf|].
  destruct (realign_items result_geo_graph fg Hd Hc) as (items & Hitems & HF).
  revert Hmsf. unfold realign.
  rewrite Hitems, (realign_pairs fg Hd). cbn [mbind result_bind].
  intros [= <-]. cbn [coords graph new_GeoGraph] in *.
  assert (key <$> items.*1 = key <$> (store_id <$> node_ids fg)) as Hkeys.
  { rewrite <- !list_fmap_compose.
    apply (Forall2_fmap_eq _ _ _ _ _ HF). }
  assert (NoDup (key <$> items.*1)) as Hnd'.
  { rewrite Hkeys, <- list_fmap_compose.
    apply NoDup_fmap_2_strong; [|by eapply NoDup_fmap_1].
    intros i j Hi Hj Hij. apply store_id_key_inj in Hij.
    apply (NoDup_fmap_inj_on key (node_ids fg)); [done..|].
    by apply demand_id_key; auto. }
  unfold dict_of_items at 1.
  rewrite (assoc_of_items_nodup py_eqb key py_eqb_key) by done.
  rewrite Hkeys. f_equal. unfold node_ids at 2. rewrite Hnodes.
  by rewrite map_fst_renamed.
Qed.

Lemma realign_coords_cover_witness :
  ∃ msf, realign result_of_algorithm (Some numpy_filtered) = Ok msf ∧
    key <$> (coords msf).*1 = key <$> node_ids (graph msf).
Proof.
  apply (realign_coords_cover result_of_algorithm numpy_filtered).
  - apply Forall_forall. repeat constructor; simpl; lia.
  - apply (bool_decide_unpack _). vm_compute. exact I.
  - intros i Hi.
    assert (Forall (λ i, ∃ c, dict_get (coords result_of_algorithm) i = Ok c)
              (node_ids numpy_filtered)) as H.
    { repeat constructor; eexists; vm_compute; reflexivity. }
    rewrite Forall_forall in H. by apply H.
  - intros u v d Hin. apply list_elem_of_singleton in Hin. inversion Hin.
    split; apply (bool_decide_unpack _); vm_compute; exact I.
Defined.

(** ** The segments of the persister are edges *)

Lemma store_edge_segment (msf : GeoGraph) (sn : nat) (e : edge) tr :
  ∃ ops r, store_edge msf sn e tr = (tr ++ ops, r) ∧
    Forall (λ s, dataset_store.is_existing s = false ∧ segment_of_edge s e)
      (emitted ops).
Proof.
  destruct (store_edge_spec msf sn e tr) as (tr' & r & Hrun & _ & Hr).
  destruct e as [[u v] d].
  assert (∃ ops, tr' = tr ++ ops) as [ops ->].
  { revert Hrun. unfold store_edge, fake_nodes. cbn [fst snd rmap].
    destruct (node_budget (node (graph msf)) u) as [bu|xu];
      [|run; intros [= <- _]; exists []; by rewrite app_nil_r].
    destruct (node_budget (node (graph msf)) v) as [bv|xv];
      [|run; intros [= <- _]; exists []; by rewrite app_nil_r].
    run.
    destruct (eq_inf bu), (eq_inf bv); simpl;
      repeat match goal with
      | |- context [dict_get (coords msf) ?n] =>
          destruct (dict_get (coords msf) n) as [?|?]; simpl
      end;
      destruct (weight d) as [w|]; simpl;
      rewrite <- ?app_assoc; simpl; intros [= <- _];
      first [by eexists | exists []; by rewrite app_nil_r]. }
  exists ops, r. split; [done|].
  rewrite emitted_app in Hr. destruct r as [[]|x].
  - destruct Hr as (w & Hw & Hem & _). apply app_inv_head in Hem as ->.
    apply Forall_singleton. by repeat split.
  - destruct Hr as [Hem _].
    assert (emitted ops = []) as ->; [|constructor].
    apply (app_inv_head (emitted tr)). by rewrite app_nil_r.
Qed.

(** X19.  Whatever the forest and the existing network are, and whether
    the persister ends well or raises, every segment it adds to the
    session stands for an edge: one with [is_existing = True] for an
    edge of the existing network, one with [is_existing = False] for an
    edge of the forest, with the ends and the weight of that edge.  No
    segment is made up. *)
Theorem persister_segments_are_edges (msf : GeoGraph)
  (existing : option GeoGraph) (tr : list store_op) :
  ∃ ops r,
    _store_networks msf existing tr = (tr ++ ops, r) ∧
    Forall (segment_of_network msf existing) (emitted ops).
Proof.
  set (F := λ ops, Forall (segment_of_network msf existing) (emitted ops)).
  assert (F []) as Hnil by constructor.
  assert (∀ ops ops', F ops → F ops' → F (ops ++ ops')) as Happ.
  { intros ops ops' H H'. unfold F. rewrite emitted_app, Forall_app. done. }
  assert (∃ ops1 r1, existing_pass existing tr = (tr ++ ops1, r1) ∧ F ops1)
    as (ops1 & r1 & Hrun1 & HF1).
  { unfold existing_pass. destruct existing as [g|].
    2: { exists [], (Ok ()). by rewrite app_nil_r. }
    destruct (truth (Some g)).
    2: { exists [], (Ok ()). by rewrite app_nil_r. }
    destruct (store_existing_trace g tr) as (es1 & r & Hrun & Hall & Hr).
    eexists _, r. split; [exact Hrun|]. unfold F.
    destruct (segments_only (existing_segment (length tr)) es1)
      as (Hem & _).
    change (dataset_store.Subnet_new :: ?l)
      with ([dataset_store.Subnet_new] ++ l).
    rewrite emitted_app, Hem. simpl.
    apply Forall_fmap, Forall_forall. intros e He. unfold compose.
    unfold segment_of_network. simpl. exists g, e. split; [done|].
    rewrite Forall_forall in Hall. destruct (Hall e He) as [w Hw].
    split.
    - destruct Hr as [[_ ->]|(e' & es2 & _ & -> & _)]; [done|].
      apply elem_of_app. by left.
    - unfold segment_of_edge, existing_segment. simpl. by rewrite Hw. }
  unfold _store_networks. unfold mbind at 1, M_bind at 1. rewrite Hrun1.
  destruct r1 as [[]|x1]; [|by exists ops1, (Err x1)].
  destruct (for_each_frame F (connected_component_subgraphs (graph msf))
    (λ subgraph,
       dataset_subnet ← call dataset_store.Subnet_new ;
       _ ← call (dataset_store.session_add_subnet dataset_subnet) ;
       _ ← call dataset_store.session_commit ;
       for_each (edges subgraph) (store_edge msf dataset_subnet))
    Hnil Happ) with (tr := tr ++ ops1) as (ops2 & r2 & Hrun2 & HF2).
  { intros s tr0 Hs. run.
    destruct (for_each_frame F (edges s) (store_edge msf (length tr0))
                Hnil Happ) with
      (tr := ((tr0 ++ [dataset_store.Subnet_new]) ++
              [dataset_store.session_add_subnet (length tr0)]) ++
             [dataset_store.session_commit])
      as (ops & r & Hrun & HF).
    { intros e tr00 He.
      destruct (store_edge_segment msf (length tr0) e tr00)
        as (ops & r & Hrun & Hseg).
      exists ops, r. split; [done|].
      eapply Forall_impl; [exact Hseg|]. intros sg [Hex Hsg].
      unfold segment_of_network. rewrite Hex. exists e.
      split; [by eapply subgraph_edge_of|done]. }
    rewrite Hrun.
    exists ([dataset_store.Subnet_new;
             dataset_store.session_add_subnet (length tr0);
             dataset_store.session_commit] ++ ops), r.
    split; [by rewrite <- !app_assoc|]. by apply Happ. }
  unfold mbind at 1, M_bind at 1. fold (proposed_pass msf) in Hrun2.
  rewrite Hrun2. destruct r2 as [[]|x2]; run.
  - exists (ops1 ++ ops2 ++ [dataset_store.session_commit]), (Ok ()).
    rewrite <- !app_assoc. split; [done|].
    apply Happ; [done|]. by apply Happ.
  - exists (ops1 ++ ops2), (Err x2).
    rewrite <- !app_assoc. split; [done|]. by apply Happ.
Qed.

(** ** The components of what the filter keeps *)

(** A representative is the first node of its class. *)
Lemma rep_first (r : node_id → node_id) (seen ns : list node_id) v :
  v ∈ reps r seen ns →
  ∃ l1 l2, ns = l1 ++ v :: l2 ∧ ∀ u, u ∈ l1 → r u ≠ r v.
Proof.
  revert seen. induction ns as [|x ns IH]; intros seen; simpl.
  - intros H. by apply elem_of_nil in H.
  - case_decide as Hx.
    + intros Hv. pose proof (proj2 (reps_NoDup r seen ns) v Hv) as Hseen.
      destruct (IH _ Hv) as (l1 & l2 & -> & Hl1).
      exists (x :: l1), l2. split; [done|].
      intros u [->|Hu]%elem_of_cons; [|by apply Hl1].
      intros Heq. apply Hseen. apply Exists_exists in Hx as (w & Hw & Hr).
      rewrite <- Heq, <- Hr. by apply list_elem_of_fmap_2.
    + intros [->|Hv]%elem_of_cons.
      * exists [], ns. split; [done|]. intros u Hu. by apply elem_of_nil in Hu.
      * pose proof (proj2 (reps_NoDup r (x :: seen) ns) v Hv) as Hseen.
        destruct (IH _ Hv) as (l1 & l2 & -> & Hl1).
        exists (x :: l1), l2. split; [done|].
        intros u [->|Hu]%elem_of_cons; [|by apply Hl1].
        intros Heq. apply Hseen. rewrite fmap_cons, Heq. left.
Qed.

(** Nodes whose class has been seen give no representative. *)
Lemma reps_skip (r : node_id → node_id) (seen l1 l2 : list node_id) :
  (∀ u, u ∈ l1 → Exists (λ w, r w = r u) seen) →
  reps r seen (l1 ++ l2) = reps r seen l2.
Proof.
  induction l1 as [|x l1 IH]; intros Hl1; [done|].
  simpl. rewrite decide_True by (apply Hl1; left).
  apply IH. intros u Hu. apply Hl1. by right.
Qed.

(** The representatives of a list of classes, each after its first
    node, are these first nodes. *)
Lemma reps_groups (r : node_id → node_id) (groups : list (list node_id))
  (heads seen : list node_id) :
  Forall2 (λ c v, ∃ tl, c = v :: tl ∧ ∀ u, u ∈ c → r u = r v) groups heads →
  NoDup (r <$> heads) →
  (∀ w, w ∈ seen → r w ∉ r <$> heads) →
  reps r seen (concat groups) = heads.
Proof.
  intros HF. revert seen.
  induction HF as [|c v groups heads (tl & -> & Hc) _ IH]; intros seen Hnd Hseen.
  - done.
  - rewrite fmap_cons in Hnd. apply NoDup_cons in Hnd as [Hv Hnd].
    simpl. rewrite decide_False.
    + f_equal. rewrite reps_skip.
      * apply IH; [done|]. intros w [->|Hw]%elem_of_cons; [done|].
        intros Hin. apply (Hseen w Hw). rewrite fmap_cons. by right.
      * intros u Hu. apply Exists_cons_hd. symmetry. apply Hc. by right.
    + intros Hex. apply Exists_exists in Hex as (w & Hw & Hr).
      apply (Hseen w Hw). rewrite fmap_cons, Hr. left.
Qed.

(** Filtering the classes of a list picks the one class that passes. *)
Lemma filter_pick {A B} (P : A → Prop) `{!∀ x, Decision (P x)}
  (f : B → list A) (l1 l2 : list B) (v : B) :
  (∀ x, x ∈ f v → P x) →
  (∀ w x, w ∈ l1 ++ l2 → x ∈ f w → ¬ P x) →
  filter P (concat (map f (l1 ++ v :: l2))) = f v.
Proof.
  intros Hv Hothers.
  assert (∀ l, (∀ w, w ∈ l → w ∈ l1 ++ l2) →
            filter P (concat (map f l)) = []) as Hnone.
  { induction l as [|w l IH]; intros Hl; [done|].
    simpl. rewrite filter_app, IH by (intros w' Hw'; apply Hl; by right).
    rewrite app_nil_r. apply filter_none. intros x Hx.
    apply (Hothers w x); [apply Hl; left|done]. }
  rewrite map_app, concat_app, filter_app. simpl. rewrite filter_app.
  rewrite (Hnone l1) by (intros w Hw; apply elem_of_app; by left).
  rewrite (Hnone l2) by (intros w Hw; apply elem_of_app; by right).
  rewrite app_nil_r. simpl. by apply filter_all.
Qed.

Section refilter.
Variable g : Graph.
Hypothesis wf : graph_wf g.
Variable vs : list node_id.
Hypothesis vs_reps : vs `sublist_of` reps (root (edge_ends g)) [] (node_ids g).

Let r := root (edge_ends g).
Let ids := node_ids g.
Let cls (v : node_id) : list node_id := class_of r ids v.
Let sub (v : node_id) : Graph := subgraph g (cls v).
Let out : Graph :=
  mkGraph (concat (map (λ v, node (sub v)) vs))
          (concat (map (λ v, edges (sub v)) vs)).
Let r' := root (edge_ends out).

Lemma kept_roots_NoDup : NoDup (r <$> vs).
Proof.
  eapply sublist_NoDup; [apply (reps_NoDup r [] ids)|].
  by apply fmap_sublist.
Qed.

Lemma kept_is_rep v : v ∈ vs → v ∈ reps r [] ids.
Proof. intros Hv. by eapply elem_of_sublist. Qed.

Lemma out_ids : node_ids out = concat (map cls vs).
Proof. apply (juxtaposed_ids g vs). Qed.

Lemma in_out u : u ∈ node_ids out ↔ ∃ v, v ∈ vs ∧ u ∈ cls v.
Proof.
  rewrite out_ids, elem_of_concat. split.
  - intros (c & Hc & Hu).
    apply list_elem_of_In, in_map_iff in Hc as (v & <- & Hv).
    exists v. split; [by apply list_elem_of_In|done].
  - intros (v & Hv & Hu). exists (cls v). split; [|done].
    apply list_elem_of_In, in_map_iff. exists v.
    split; [done|by apply list_elem_of_In].
Qed.

Lemma out_edges_of_g p : p ∈ edge_ends out → p ∈ edge_ends g.
Proof.
  intros Hp. apply list_elem_of_fmap in Hp as (e & -> & He).
  apply list_elem_of_fmap_2. unfold out in He. simpl in He.
  apply elem_of_concat in He as (l & Hl & He).
  apply list_elem_of_In, in_map_iff in Hl as (v & <- & _).
  unfold sub, subgraph in He. simpl in He.
  by apply list_elem_of_filter in He as [_ He].
Qed.

Lemma same_root_out u w :
  u ∈ node_ids out → r' u = r' w ↔ r u = r w.
Proof.
  intros Hu. split.
  - intros H. apply root_linked. apply root_linked in H.
    eapply linked_mono; [|exact H]. apply out_edges_of_g.
  - intros H. apply in_out in Hu as (v & Hv & Hu).
    apply root_linked. apply root_linked in H.
    apply (linked_within g out (cls v)) in H as (_ & _ & H);
      [done| |by left].
    intros a b d He Hab.
    destruct (kept_closed g wf vs v a b d Hv He Hab) as (? & ? & Hin).
    repeat split; try done.
    unfold edge_ends. apply list_elem_of_fmap. by exists (a, b, d).
Qed.

Lemma cls_head v : v ∈ vs → ∃ tl, cls v = v :: tl.
Proof.
  intros Hv. apply kept_is_rep in Hv.
  destruct (rep_first r [] ids v Hv) as (l1 & l2 & Hids & Hl1).
  unfold cls, class_of. rewrite Hids, filter_app.
  rewrite filter_none by (intros u Hu; by apply Hl1).
  rewrite filter_cons_True by done. by eexists.
Qed.

Lemma cls_in_out v u : v ∈ vs → u ∈ cls v → u ∈ node_ids out.
Proof. intros Hv Hu. apply in_out. eauto. Qed.

Lemma reps_out : reps r' [] (node_ids out) = vs.
Proof.
  rewrite out_ids. apply reps_groups.
  - apply Forall2_fmap_l, Forall_Forall2_diag, Forall_forall.
    intros v Hv. destruct (cls_head v Hv) as [tl Htl].
    exists tl. split; [done|]. intros u Hu.
    apply same_root_out; [by eapply cls_in_out|].
    by apply class_of_elem in Hu as [? _].
  - apply NoDup_fmap_2_strong; [|eapply NoDup_fmap_1, kept_roots_NoDup].
    intros v w Hv Hw H.
    assert (v ∈ node_ids out) as Hvo.
    { destruct (cls_head v Hv) as [tl Htl].
      apply (cls_in_out v v Hv). rewrite Htl. left. }
    apply same_root_out in H; [|done].
    by apply (NoDup_fmap_inj_on r vs v w kept_roots_NoDup).
  - intros w Hw. by apply elem_of_nil in Hw.
Qed.

Lemma cls_out v : v ∈ vs → class_of r' (node_ids out) v = cls v.
Proof.
  intros Hv. rewrite out_ids.
  destruct (NoDup_fmap_split r vs v kept_roots_NoDup Hv)
    as (l1 & l2 & Hvs & Hothers).
  unfold class_of at 1. rewrite Hvs.
  apply (filter_pick (λ u, r' u = r' v) cls l1 l2 v).
  - intros u Hu. apply same_root_out; [by eapply cls_in_out|].
    by apply class_of_elem in Hu as [? _].
  - intros w u Hw Hu Heq.
    assert (w ∈ vs) as Hwvs.
    { rewrite Hvs. apply elem_of_app in Hw as [Hw|Hw];
        apply elem_of_app; [by left|right; by right]. }
    apply same_root_out in Heq; [|by eapply cls_in_out].
    apply class_of_elem in Hu as [Hu _].
    apply (Hothers w Hw). congruence.
Qed.

Lemma sub_out v : v ∈ vs → subgraph out (cls v) = sub v.
Proof.
  intros Hv.
  destruct (NoDup_fmap_split r vs v kept_roots_NoDup Hv)
    as (l1 & l2 & Hvs & Hothers).
  assert (∀ w u, w ∈ l1 ++ l2 → u ∈ cls w → u ∉ cls v) as Hdisj.
  { intros w u Hw Hu Hu'.
    apply class_of_elem in Hu as [Hu _]. apply class_of_elem in Hu' as [Hu' _].
    apply (Hothers w Hw). congruence. }
  transitivity (mkGraph (node (sub v)) (edges (sub v)));
    [|by destruct (sub v)].
  unfold subgraph at 1. unfold out. cbn [node edges]. rewrite Hvs. f_equal.
  - apply (filter_pick (λ n : node_id * NodeData, n.1 ∈ cls v)
             (λ w, node (sub w)) l1 l2 v).
    + intros n Hn. unfold sub, subgraph in Hn. simpl in Hn.
      by apply list_elem_of_filter in Hn as [? _].
    + intros w n Hw Hn. unfold sub, subgraph in Hn. simpl in Hn.
      apply list_elem_of_filter in Hn as [Hn _]. by eapply Hdisj.
  - apply (filter_pick
             (λ e : edge, e.1.1 ∈ cls v ∧ e.1.2 ∈ cls v)
             (λ w, edges (sub w)) l1 l2 v).
    + intros e He. unfold sub, subgraph in He. simpl in He.
      by apply list_elem_of_filter in He as [? _].
    + intros w e Hw He [He1 _]. unfold sub, subgraph in He. simpl in He.
      apply list_elem_of_filter in He as [[He _] _]. by eapply Hdisj.
Qed.

Lemma components_out : connected_components out = cls <$> vs.
Proof.
  unfold connected_components, classes. fold r'. rewrite reps_out, map_fmap.
  apply Forall_fmap_ext_1, Forall_forall. intros v Hv. by apply cls_out.
Qed.

Lemma subgraphs_out : connected_component_subgraphs out = sub <$> vs.
Proof.
  unfold connected_component_subgraphs.
  rewrite components_out, map_fmap, <- list_fmap_compose.
  apply Forall_fmap_ext_1, Forall_forall. intros v Hv. by apply sub_out.
Qed.

Lemma refilter (k : Z) :
  vs ≠ [] →
  (∀ v, v ∈ vs → k ≤ Z.of_nat (length (cls v))) →
  component_filter out k = Ok (Some out).
Proof.
  intros Hne Hbig. unfold component_filter. rewrite subgraphs_out.
  rewrite filter_all.
  - transitivity (match vs with [] => Ok None | _ => Ok (Some out) end);
      [exact (union_all_subgraphs g vs kept_roots_NoDup)|by destruct vs].
  - intros s Hs. apply list_elem_of_fmap in Hs as (v & -> & Hv).
    unfold sub, cls. rewrite (subgraph_length g). by apply Hbig.
Qed.
End refilter.

(** X20.  The connected components of what the component filter gives
    back are the connected components of the graph that have as many
    nodes as the threshold, in their order and with their nodes in their
    order; and the filter gives the same graph back when it is run on
    its own result with the same threshold. *)
Theorem component_filter_idempotent (g : Graph) (k : Z) (out : Graph) :
  graph_wf g →
  component_filter g k = Ok (Some out) →
  connected_components out =
    filter (λ c, k ≤ Z.of_nat (length c)) (connected_components g) ∧
  component_filter out k = Ok (Some out).
Proof.
  intros wf Hout. pose proof (kept_filter_eq g k) as Heq.
  cbv beta zeta in Heq. rewrite Hout in Heq.
  set (vs := filter (λ v, k ≤ Z.of_nat (length (component_of g v)))
               (reps (root (edge_ends g)) [] (node_ids g))) in *.
  assert (vs `sublist_of` reps (root (edge_ends g)) [] (node_ids g)) as Hsub.
  { apply sublist_filter. }
  assert (vs ≠ [] ∧
          out = mkGraph
            (concat (map (λ v, node (subgraph g (component_of g v))) vs))
            (concat (map (λ v, edges (subgraph g (component_of g v))) vs)))
    as [Hne ->].
  { destruct vs; [done|]. split; [done|]. by inversion Heq. }
  unfold component_of in *. split.
  - rewrite (components_out g wf vs Hsub).
    unfold connected_components, classes.
    rewrite (filter_fmap _ (λ c, k ≤ Z.of_nat (length c))).
    done.
  - apply (refilter g wf vs Hsub k Hne).
    intros v Hv. unfold vs in Hv.
    by apply list_elem_of_filter in Hv as [? _].
Qed.

Lemma component_filter_idempotent_witness :
  ∃ out, component_filter forest_example 2 = Ok (Some out) ∧
    component_filter out 2 = Ok (Some out).
Proof.
  eexists. split; [vm_compute; reflexivity|].
  eapply (proj2 (component_filter_idempotent forest_example 2 _
                   forest_example_wf _)).
  Unshelve. vm_compute. reflexivity.
Defined.

(** ** A threshold that keeps every subnetwork *)

(** X21.  On a well-formed graph that has a node, with a threshold of 1
    or less, the component filter returns a graph that has the nodes of
    the graph with their attributes and the edges of the graph with
    theirs, each once: nothing is dropped and nothing is added.  The
    order in which the nodes and the edges come may differ. *)
Theorem component_filter_keeps_all (g : Graph) (k : Z) :
  graph_wf g → node g ≠ [] → k ≤ 1 →
  ∃ out, component_filter g k = Ok (Some out) ∧
    node out ≡ₚ node g ∧ edges out ≡ₚ edges g.
Proof.
  intros wf Hne Hk.
  pose proof (component_filter_eq g k) as Hcf.
  pose proof (survivors_all g k Hk) as Hall.
  cbv beta zeta in Hcf, Hall. rewrite Hall in Hcf. clear Hall.
  destruct (all_components_perm g wf) as [Hn He].
  assert (reps (root (edge_ends g)) [] (node_ids g) ≠ []) as Hreps.
  { destruct (node g) as [|[u d] ns] eqn:Hnodes; [done|].
    destruct (one_rep g u) as (vs1 & w & vs2 & -> & _).
    - unfold node_ids. rewrite Hnodes. left.
    - by destruct vs1. }
  destruct (reps (root (edge_ends g)) [] (node_ids g)) as [|v vs]; [done|].
  eexists. split; [exact Hcf|]. cbn [node edges]. done.
Qed.

Lemma component_filter_keeps_all_witness :
  graph_wf forest_example ∧
  ∃ out, component_filter forest_example 1 = Ok (Some out) ∧
    node out ≡ₚ node forest_example ∧ edges out ≡ₚ edges forest_example.
Proof.
  split; [exact forest_example_wf|].
  apply (component_filter_keeps_all forest_example 1 forest_example_wf).
  - done.
  - lia.
Defined.

(** ** The [Subnet] of the existing pass *)

Lemma store_edge_subnet (msf : GeoGraph) (sn : nat) (e : edge) tr :
  ∃ ops r, store_edge msf sn e tr = (tr ++ ops, r) ∧
    added_subnets ops = [] ∧
    Forall (λ s, dataset_store.is_existing s = false ∧
                 dataset_store.subnet_id s = sn) (emitted ops).
Proof.
  destruct e as [[u v] d].
  unfold store_edge, fake_nodes. cbn [fst snd rmap].
  destruct (node_budget (node (graph msf)) u) as [bu|xu] eqn:Hu.
  2: { run. exists [], (Err xu). rewrite app_nil_r. repeat split; done. }
  destruct (node_budget (node (graph msf)) v) as [bv|xv] eqn:Hv.
  2: { run. exists [], (Err xv). rewrite app_nil_r. repeat split; done. }
  run.
  destruct (eq_inf bu) eqn:Eu, (eq_inf bv) eqn:Ev; simpl;
    repeat match goal with
    | |- context [dict_get (coords msf) ?n] =>
        let Hc := fresh "Hc" in
        destruct (dict_get (coords msf) n) as [?|?] eqn:Hc; simpl
    end;
    destruct (weight d) as [w|] eqn:Hw; simpl;
    rewrite <- ?app_assoc; simpl;
    try (eexists _, _; split; [reflexivity|]);
    try (eexists [], _; split; [by rewrite app_nil_r|]);
    simpl; repeat split; repeat constructor; eauto.
Qed.

Lemma subnets_known_app (tr ops : list store_op) :
  subnets_known tr →
  0%nat ∉ added_subnets ops →
  Forall (λ s, dataset_store.is_existing s = false ∧
               dataset_store.subnet_id s ∈ added_subnets (tr ++ ops))
    (emitted ops) →
  subnets_known (tr ++ ops).
Proof.
  intros (H0 & Hno & Hsegs) Hno' Hsegs'. split; [|split].
  - destruct tr; [done|]. done.
  - rewrite added_subnets_app. intros Hin.
    apply elem_of_app in Hin as [Hin|Hin]; [by apply Hno|by apply Hno'].
  - rewrite emitted_app. apply Forall_app. split.
    + eapply Forall_impl; [exact Hsegs|]. intros s Hs. cbv beta in *.
      destruct (dataset_store.is_existing s); [done|].
      rewrite added_subnets_app. apply elem_of_app. by left.
    + eapply Forall_impl; [exact Hsegs'|]. by intros s [-> Hs].
Qed.

Lemma proposed_pass_subnets (msf : GeoGraph) (tr : list store_op) :
  subnets_known tr → subnets_known (proposed_pass msf tr).1.
Proof.
  unfold proposed_pass. apply for_each_inv. clear tr.
  intros sub tr _ Hk. run.
  assert (0 < length tr)%nat as Hlen.
  { destruct Hk as (H0 & _). destruct tr; [done|]. simpl. lia. }
  set (h := length tr).
  set (tr1 := ((tr ++ [dataset_store.Subnet_new]) ++
               [dataset_store.session_add_subnet h]) ++
              [dataset_store.session_commit]).
  assert (subnets_known tr1 ∧ h ∈ added_subnets tr1) as Hk1.
  { unfold tr1. rewrite <- !app_assoc. simpl. split.
    - apply subnets_known_app; [done| |constructor].
      simpl. intros Hin. apply list_elem_of_singleton in Hin. lia.
    - rewrite added_subnets_app. apply elem_of_app. right. simpl. left. }
  clearbody tr1. revert Hk1.
  apply (for_each_inv (λ t, subnets_known t ∧ h ∈ added_subnets t)).
  intros e t _ [Hkt Hh].
  destruct (store_edge_subnet msf h e t) as (ops & r & -> & Hno & Hsegs).
  cbn [fst]. split.
  - apply subnets_known_app; [done|by rewrite Hno; apply not_elem_of_nil|].
    eapply Forall_impl; [exact Hsegs|]. intros s [Hs ->]. split; [done|].
    rewrite added_subnets_app. apply elem_of_app. by left.
  - rewrite added_subnets_app. apply elem_of_app. by left.
Qed.

Lemma store_existing_subnets (existing : GeoGraph) :
  subnets_known (store_existing existing []).1.
Proof.
  destruct (store_existing_trace existing []) as (es1 & r & -> & _).
  destruct (segments_only (existing_segment 0) es1) as (Hem & _ & _ & Hsub).
  cbn [fst app length]. split; [done|]. split.
  - change (dataset_store.Subnet_new :: ?l)
      with ([dataset_store.Subnet_new] ++ l).
    rewrite added_subnets_app, Hsub. apply not_elem_of_nil.
  - change (dataset_store.Subnet_new :: ?l)
      with ([dataset_store.Subnet_new] ++ l).
    rewrite emitted_app, Hem. simpl.
    apply Forall_forall. intros s Hs.
    apply list_elem_of_In, in_map_iff in Hs as (e & <- & _). done.
Qed.

(** C7 fails on the code.  When an existing network is given, the
    [Subnet] that the existing pass makes, the first object of the run,
    is never added to the session, whatever the forest is and whether
    the run ends well or raises: every segment flagged existing carries
    what was read of that [Subnet], which the session does not know,
    while every segment of the proposed pass carries what was read of a
    [Subnet] that was added to the session.  The claim wants the
    existing segments under one [Subnet] of the store. *)
Theorem existing_subnet_not_added (msf existing : GeoGraph) :
  node (graph existing) ≠ [] →
  ∃ tr r, _store_networks msf (Some existing) [] = (tr, r) ∧
    head tr = Some dataset_store.Subnet_new ∧
    (0%nat ∉ added_subnets tr) ∧
    ∀ s, s ∈ emitted tr →
      if dataset_store.is_existing s
      then dataset_store.subnet_id s = 0%nat
      else dataset_store.subnet_id s ∈ added_subnets tr.
Proof.
  intros Hnodes.
  assert (subnets_known (_store_networks msf (Some existing) []).1) as Hk.
  { unfold _store_networks. unfold mbind at 1, M_bind at 1.
    unfold existing_pass, truth. rewrite bool_decide_eq_true_2 by done.
    pose proof (store_existing_subnets existing) as H1.
    destruct (store_existing existing []) as [tr1 [[]|x]]; [|done].
    cbn [fst] in H1. unfold mbind at 1, M_bind at 1.
    pose proof (proposed_pass_subnets msf tr1 H1) as H2.
    destruct (proposed_pass msf tr1) as [tr2 [[]|x]]; [|done].
    cbn [fst] in H2. run.
    apply subnets_known_app; [done|apply not_elem_of_nil|constructor]. }
  destruct (_store_networks msf (Some existing) []) as [tr r].
  exists tr, r. split; [done|]. destruct Hk as (H0 & Hno & Hsegs).
  split; [done|]. split; [done|]. by apply Forall_forall.
Qed.

Lemma existing_subnet_not_added_witness :
  node (graph existing_example) ≠ [] ∧
  ∃ tr r, _store_networks junction (Some existing_example) [] = (tr, r) ∧
    (0%nat ∉ added_subnets tr) ∧
    dataset_store.mkSegment (Str "grid-0") (Str "grid-1") 0 true (Finite 7)
      ∈ emitted tr.
Proof.
  assert (node (graph existing_example) ≠ []) as Hnodes by done.
  split; [exact Hnodes|].
  destruct (existing_subnet_not_added junction existing_example Hnodes)
    as (tr & r & Hrun & _ & Hno & _).
  exists tr, r. split; [exact Hrun|]. split; [exact Hno|].
  revert Hrun. vm_compute. intros [= <- _]. left.
Defined.

(** ** The segments of the existing pass *)

(** X22.  When an existing network is given whose edges carry a weight,
    the segments flagged existing that the persister adds to the session
    are one for each edge of that network, in the order of its edges,
    with the ends and the weight of the edge; they are the same
    whatever the proposed forest is and whether the proposed pass ends
    well or raises. *)
Theorem existing_segments_per_edge (msf existing : GeoGraph) :
  graph_wf (graph existing) →
  Forall (λ e : edge, is_Some (weight e.2)) (edges (graph existing)) →
  segment_line <$>
    filter (λ s, dataset_store.is_existing s = true)
      (emitted (_store_networks msf (Some existing) []).1) =
  (λ e : edge, (e.1.1, e.1.2, default NoneVal (weight e.2))) <$>
    edges (graph existing).
Proof.
  intros wf Hweights.
  destruct (store_networks_emitted msf (Some existing) [])
    as (segs & Hem & Hsegs).
  rewrite Hem. clear Hem. unfold existing_pass in *.
  assert (filter (λ s, dataset_store.is_existing s = true) segs = []) as Hno.
  { apply filter_none. intros s Hs. rewrite Forall_forall in Hsegs.
    apply Hsegs in Hs as [-> _]. done. }
  rewrite filter_app, Hno, app_nil_r.
  destruct (truth (Some existing)) eqn:Htruth.
  - destruct (store_existing_spec existing [])
      as (tr' & r & n & Hrun & Hlen & Hem & Hr).
    rewrite Hrun in *. simpl in *. destruct r as [[]|x]; [|by destruct Hr].
    subst n. rewrite firstn_all in Hem. rewrite Hem.
    rewrite filter_all.
    + etrans;
        [symmetry;
         apply (list_fmap_compose (existing_segment 0) segment_line)|].
      done.
    + intros s Hs.
      apply list_elem_of_In, in_map_iff in Hs as (e & <- & _). done.
  - simpl in *. assert (edges (graph existing) = []) as Hnil.
    { apply bool_decide_eq_false in Htruth.
      destruct (edges (graph existing)) as [|[[u v] d] es] eqn:Hes; [done|].
      destruct (proj2 wf u v d) as [Hu _]; [rewrite Hes; left|].
      unfold node_ids in Hu. destruct (node (graph existing)).
      - by apply elem_of_nil in Hu.
      - destruct Htruth. done. }
    by rewrite Hnil.
Qed.

Lemma existing_segments_per_edge_witness :
  graph_wf (graph existing_example) ∧
  Forall (λ e : edge, is_Some (weight e.2))
    (edges (graph existing_example)) ∧
  segment_line <$>
    filter (λ s, dataset_store.is_existing s = true)
      (emitted (_store_networks synthetic_pair (Some existing_example) []).1) =
  [(Str "grid-0", Str "grid-1", Finite 7)].
Proof.
  assert (Forall (λ e : edge, is_Some (weight e.2))
            (edges (graph existing_example))) as Hweights.
  { apply Forall_singleton. eexists. reflexivity. }
  split; [exact existing_example_wf|]. split; [exact Hweights|].
  exact (existing_segments_per_edge synthetic_pair existing_example
           existing_example_wf Hweights).
Defined.
